(** * convertflow: the DWFx-to-PDF transcoder of [convert.js]

    A shallow embedding of the converter and the properties its
    specification states about it.

    Conventions of the embedding.
    - JavaScript numbers are IEEE-754 binary64 values: Rocq's primitive
      [float], whose [+ - * /], [sqrt] and comparisons are the ones of
      the JS operators.  [Math.acos], which has no binary64
      definition, is a parameter of [vecAngle] (module [ArcGeometry]).
    - The ZIP container is given by what [zip.getEntry] returns for
      each name; opening it and writing the output stream are outside
      the model.
    - Strings are byte strings ([string]), the UTF-8 encoding of the JS
      string; buffers are [list byte].
    - The attribute object [node.$] and the table [resources] are
      [gmap]s, the [Set] of registered fonts a [gset].  The parser gives
      an element without attributes no [$]: the empty attribute map
      stands for it, and reading a property of it throws.  The table
      [fonts] is a [gmap] of its own properties, read through
      [fonts_get], which also finds the properties every object
      inherits.
    - Functions of the JS runtime and of Node's [path] module are the
      fields of the class [Runtime]; whether PDFKit completes a call or
      throws is the field of the class [Backend].  General theorems hold
      for every runtime and backend; closed examples use the instances
      [js_runtime] and [pdfkit].
    - The document is the sequence of the calls made on it, oldest
      first.  A call PDFKit rejects throws and leaves no trace.  The
      chain of [bezierCurveTo] calls that [emitArc] computes with
      trigonometric functions is recorded as one [CArcCurves] entry. *)

From Stdlib Require Import ZArith NArith Floats.PrimFloat Floats.FloatOps Floats.FloatAxioms.
From Stdlib Require Import Numbers.DecimalString.
From Stdlib Require Import Strings.Ascii Strings.String Strings.Byte.
From stdpp Require Import gmap strings list.

Local Open Scope string_scope.

(* ================================================================== *)
(** * Definitions *)
(* ================================================================== *)

(** ** Characters and strings *)

Definition ascii_between (lo hi c : ascii) : bool :=
  (N.leb (N_of_ascii lo) (N_of_ascii c)) && (N.leb (N_of_ascii c) (N_of_ascii hi)).

Definition is_digit (c : ascii) : bool := ascii_between "0" "9" c.

(** [[0-9a-f]] under the [i] flag. *)
Definition is_hex (c : ascii) : bool :=
  is_digit c || ascii_between "a" "f" c || ascii_between "A" "F" c.

Definition hex_val (c : ascii) : N :=
  if is_digit c then N_of_ascii c - 48
  else if ascii_between "a" "f" c then N_of_ascii c - 87
  else if ascii_between "A" "F" c then N_of_ascii c - 55
  else 0.

Fixpoint string_all (p : ascii -> bool) (s : string) : bool :=
  match s with
  | EmptyString => true
  | String c r => p c && string_all p r
  end.

(** ** Bytes and buffers *)

#[global] Instance byte_inhabited : Inhabited byte := populate x00.

(** [Buffer.from([n])]: a number is stored modulo 256. *)
Definition byte_of_N (n : N) : byte :=
  default x00 (Byte.of_N (n mod 256)).

Definition xor8 (a b : bool * (bool * (bool * (bool * (bool * (bool * (bool * bool)))))))
  : bool * (bool * (bool * (bool * (bool * (bool * (bool * bool)))))) :=
  let '(a0, (a1, (a2, (a3, (a4, (a5, (a6, a7))))))) := a in
  let '(b0, (b1, (b2, (b3, (b4, (b5, (b6, b7))))))) := b in
  (xorb a0 b0, (xorb a1 b1, (xorb a2 b2, (xorb a3 b3,
   (xorb a4 b4, (xorb a5 b5, (xorb a6 b6, xorb a7 b7))))))).

(** [a ^ b] on two bytes of a [Buffer]. *)
Definition byte_xor (a b : byte) : byte :=
  Byte.of_bits (xor8 (Byte.to_bits a) (Byte.to_bits b)).

(** ** ODTTF deobfuscation ([deobfuscateOdttf]) *)

(** The five capture groups [m[1]] .. [m[5]] of the UUID pattern. *)
Record uuid_groups := UuidGroups {
  g1 : string; g2 : string; g3 : string; g4 : string; g5 : string
}.

(** [[0-9a-f]{n}] at the head of [s]: the group and the rest. *)
Fixpoint take_hex (n : nat) (s : string) : option (string * string) :=
  match n with
  | O => Some (EmptyString, s)
  | S n' =>
      match s with
      | String c r =>
          if is_hex c then
            '(g, rest) ← take_hex n' r; Some (String c g, rest)
          else None
      | EmptyString => None
      end
  end.

Definition take_dash (s : string) : option string :=
  match s with
  | String c r => if Ascii.eqb c "-" then Some r else None
  | EmptyString => None
  end.

(** The pattern
    [([0-9a-f]{8})-([0-9a-f]{4})-([0-9a-f]{4})-([0-9a-f]{4})-([0-9a-f]{12})]
    anchored at the head of [s]. *)
Definition uuid_at (s : string) : option uuid_groups :=
  '(a, s1) ← take_hex 8 s; s1' ← take_dash s1;
  '(b, s2) ← take_hex 4 s1'; s2' ← take_dash s2;
  '(c, s3) ← take_hex 4 s2'; s3' ← take_dash s3;
  '(d, s4) ← take_hex 4 s3'; s4' ← take_dash s4;
  '(e, _) ← take_hex 12 s4';
  Some (UuidGroups a b c d e).

(** [fileName.match(/.../i)]: the leftmost position where the pattern
    matches. *)
Fixpoint uuid_search (s : string) : option uuid_groups :=
  match uuid_at s with
  | Some m => Some m
  | None =>
      match s with
      | EmptyString => None
      | String _ r => uuid_search r
      end
  end.

(** [parseInt(s, 16)] on a string of hexadecimal digits, the only
    strings the pattern lets through: the value of its longest prefix
    of hexadecimal digits ([None] is NaN). *)
Fixpoint parseInt16_from (acc : option N) (s : string) : option N :=
  match s with
  | String c r =>
      if is_hex c then parseInt16_from (Some (16 * default 0%N acc + hex_val c)%N) r
      else acc
  | EmptyString => acc
  end.

Definition parseInt16 (s : string) : option N := parseInt16_from None s.

(** [const h = (s, i) => parseInt(s.slice(i, i + 2), 16)], stored in a
    [Buffer] (NaN is stored as 0). *)
Definition h (s : string) (i : nat) : byte :=
  byte_of_N (default 0%N (parseInt16 (substring i 2 s))).

Definition odttf_key (m : uuid_groups) : list byte :=
  [ h (g1 m) 6; h (g1 m) 4; h (g1 m) 2; h (g1 m) 0;
    h (g2 m) 2; h (g2 m) 0;
    h (g3 m) 2; h (g3 m) 0;
    h (g4 m) 0; h (g4 m) 2;
    h (g5 m) 0; h (g5 m) 2; h (g5 m) 4; h (g5 m) 6; h (g5 m) 8; h (g5 m) 10 ].

(** [for (let i = 0; i < 32 && i < out.length; i++) out[i] ^= key[i % 16]],
    entered at index [i]; the loop runs at most [32 - i] times. *)
Fixpoint xor_loop (fuel i : nat) (key out : list byte) : list byte :=
  match fuel with
  | O => out
  | S fuel' =>
      if (i <? 32)%nat && (i <? length out)%nat then
        xor_loop fuel' (S i) key
          (<[i := byte_xor (out !!! i) (key !!! (i mod 16)%nat)]> out)
      else out
  end.

Definition deobfuscateOdttf (buffer : list byte) (fileName : string) : list byte :=
  match uuid_search fileName with
  | None => buffer
  | Some m => xor_loop 32 0 (odttf_key m) buffer
  end.

(** *** The specification's reading of the key, for comparison *)

(** A string is a UUID group of [n] hexadecimal digits. *)
Definition hex_group (n : nat) (s : string) : Prop :=
  String.length s = n ∧ string_all is_hex s = true.

Definition is_uuid (m : uuid_groups) : Prop :=
  hex_group 8 (g1 m) ∧ hex_group 4 (g2 m) ∧ hex_group 4 (g3 m) ∧
  hex_group 4 (g4 m) ∧ hex_group 12 (g5 m).

Definition uuid_text (m : uuid_groups) : string :=
  g1 m ++ "-" ++ g2 m ++ "-" ++ g3 m ++ "-" ++ g4 m ++ "-" ++ g5 m.

(** The file name contains [xxxxxxxx-xxxx-xxxx-xxxx-xxxxxxxxxxxx]. *)
Definition contains_uuid (name : string) : Prop :=
  ∃ pre m post, is_uuid m ∧ name = pre ++ uuid_text m ++ post.

(** The table of the specification: key index ↦ (UUID group, offset). *)
Definition key_table : list (nat * nat) :=
  [ (1, 6); (1, 4); (1, 2); (1, 0); (2, 2); (2, 0); (3, 2); (3, 0);
    (4, 0); (4, 2); (5, 0); (5, 2); (5, 4); (5, 6); (5, 8); (5, 10) ]%nat.

Definition group (m : uuid_groups) (k : nat) : string :=
  match k with
  | 1 => g1 m | 2 => g2 m | 3 => g3 m | 4 => g4 m | _ => g5 m
  end%nat.

(** The byte written by two hexadecimal digits, high nibble first. *)
Definition hex_pair (s : string) (off : nat) : byte :=
  match String.get off s, String.get (S off) s with
  | Some hi, Some lo => byte_of_N (16 * hex_val hi + hex_val lo)
  | _, _ => x00
  end.

Definition spec_key (m : uuid_groups) : list byte :=
  (λ '(k, off), hex_pair (group m k) off) <$> key_table.


(** ** JavaScript values and the host interface *)

(** The values the path interpreter handles: a number, a one-letter
    string taken from the token array, [undefined] read past its end,
    and what [+] makes of them. *)
Inductive value :=
| VUndef
| VNum (x : float)
| VStr (s : string).

Class Runtime := {
  (** [parseFloat(s)] *)
  parseFloat : string → float;
  (** [Number(s)], the conversion of a string to a number *)
  Number : string → float;
  (** the conversion of a number to a string *)
  numberToString : float → string;
  (** [path.posix.join(a, b)] *)
  posix_join : string → string → string;
  (** [path.posix.dirname(p)] *)
  posix_dirname : string → string;
  (** [path.basename(p)] *)
  basename : string → string
}.

Section Values.
Context `{Runtime}.

Definition toString (v : value) : string :=
  match v with
  | VUndef => "undefined"
  | VNum x => numberToString x
  | VStr s => s
  end.

Definition toNumber (v : value) : float :=
  match v with
  | VUndef => nan
  | VNum x => x
  | VStr s => Number s
  end.

(** [a + b]: addition of numbers, concatenation when a string is
    involved, NaN with [undefined]. *)
Definition js_add (a b : value) : value :=
  match a, b with
  | VNum x, VNum y => VNum (x + y)%float
  | VStr _, _ | _, VStr _ => VStr (toString a ++ toString b)
  | _, _ => VNum nan
  end.

End Values.

(** [a === b] *)
Definition strict_eq (a b : value) : bool :=
  match a, b with
  | VUndef, VUndef => true
  | VNum x, VNum y => PrimFloat.eqb x y
  | VStr s, VStr t => String.eqb s t
  | _, _ => false
  end.

(** ** Calls on the PDF document *)

(** What [registerFont] is given as the font: a buffer, or the
    property [Object.prototype[key]] that a plain object inherits. *)
Inductive font_src :=
| SrcBuffer (buf : list byte)
| SrcInherited (key : string).

Inductive call :=
| CSave
| CRestore
| CTransform (a b c d e f : value)
| CClip
| CMoveTo (x y : value)
| CLineTo (x y : value)
| CBezierCurveTo (x1 y1 x2 y2 x y : value)
| CQuadraticCurveTo (qx qy x y : value)
| CArcCurves (x1 y1 rx ry angleDeg largeArc sweep x2 y2 : value)
| CClosePath
| CFill (color : string)
| CStroke
| CFillAndStroke (fill stroke : string)
| CImage (buf : list byte) (x y width height : value)
| CRegisterFont (id : string) (src : font_src)
| CFont (name : string)
| CFontSize (size : float)
| CFillColor (color : string)
| CText (text : string) (x y : float) (lineBreak : bool)
| CStrokeColor (color : string)
| CLineWidth (w : float)
| CLineCap (cap : string)
| CLineJoin (join : string)
| CMiterLimit (m : float)
| CDash (parts : list float) (phase : float)
| CUndash
| CAddPage
| CEnd.

(** ** Path data: [tokenizePath] *)

Inductive token :=
| TCmd (c : ascii)
| TNum (x : float).

Definition token_value (t : token) : value :=
  match t with
  | TCmd c => VStr (String c EmptyString)
  | TNum x => VNum x
  end.

(** [[a-df-zA-DF-Z]] *)
Definition is_cmd (c : ascii) : bool :=
  ascii_between "a" "d" c || ascii_between "f" "z" c ||
  ascii_between "A" "D" c || ascii_between "F" "Z" c.

Definition is_sign (c : ascii) : bool := Ascii.eqb c "+" || Ascii.eqb c "-".

Definition is_exp (c : ascii) : bool := Ascii.eqb c "e" || Ascii.eqb c "E".

Definition is_dot (c : ascii) : bool := Ascii.eqb c ".".

Fixpoint count_digits (s : string) : nat :=
  match s with
  | String c r => if is_digit c then S (count_digits r) else O
  | EmptyString => O
  end.

Fixpoint string_drop (n : nat) (s : string) : string :=
  match n, s with
  | O, _ => s
  | S n', String _ r => string_drop n' r
  | S _, EmptyString => EmptyString
  end.

Definition sign_len (s : string) : nat :=
  match s with
  | String c _ => if is_sign c then 1 else 0
  | EmptyString => 0
  end%nat.

(** [\d+\.?\d*|\.\d+] at the head of [s]: the length matched, 0 when
    there is no match. *)
Definition mantissa_len (s : string) : nat :=
  let d := count_digits s in
  if (0 <? d)%nat then
    match string_drop d s with
    | String c r => if is_dot c then (d + 1 + count_digits r)%nat else d
    | EmptyString => d
    end
  else
    match s with
    | String c r =>
        if is_dot c && (0 <? count_digits r)%nat
        then S (count_digits r) else O
    | EmptyString => O
    end.

(** [(?:[eE][+-]?\d+)?] at the head of [s]. *)
Definition exponent_len (s : string) : nat :=
  match s with
  | String c r =>
      let d := count_digits (string_drop (sign_len r) r) in
      if is_exp c && (0 <? d)%nat then (1 + sign_len r + d)%nat else O
  | EmptyString => O
  end.

(** [[+-]?(?:\d+\.?\d*|\.\d+)(?:[eE][+-]?\d+)?] at the head of [s]. *)
Definition number_len (s : string) : nat :=
  let m := mantissa_len (string_drop (sign_len s) s) in
  if (0 <? m)%nat
  then (sign_len s + m + exponent_len (string_drop (sign_len s + m) s))%nat
  else O.

Section PathData.
Context `{Runtime}.

(** [while ((m = re.exec(d))) tokens.push(m[1] || parseFloat(m[2]))]:
    the scan of [d] from left to right; [skip] characters of the numeral
    just matched remain to be passed over. *)
Fixpoint tokenize_from (skip : nat) (s : string) : list token :=
  match s with
  | EmptyString => []
  | String c r =>
      match skip with
      | S k => tokenize_from k r
      | O =>
          if is_cmd c then TCmd c :: tokenize_from 0 r
          else
            match number_len s with
            | O => tokenize_from 0 r
            | S k => TNum (parseFloat (substring 0 (S k) s)) :: tokenize_from k r
            end
      end
  end.

Definition tokenizePath (d : string) : list token := tokenize_from 0 d.

(** ** Path data: [drawPathData] and [emitArc] *)

(** The interpreter's variables: the tokens from index [i] on, the
    current point, the subpath start, and the calls made so far on
    [doc]. *)
Record istate := IState {
  toks : list token;
  cx : value; cy : value;
  sx : value; sy : value;
  out : list call
}.

(** [const num = () => t[i++]] *)
Definition num (s : istate) : value * istate :=
  match toks s with
  | [] => (VUndef, s)
  | t :: r => (token_value t, IState r (cx s) (cy s) (sx s) (sy s) (out s))
  end.

(** [const isNum = () => i < t.length && typeof t[i] === "number"] *)
Definition isNum (s : istate) : bool :=
  match toks s with
  | TNum _ :: _ => true
  | _ => false
  end.

Definition emit (c : call) (s : istate) : istate :=
  IState (toks s) (cx s) (cy s) (sx s) (sy s) (out s ++ [c]).

Definition set_cx (v : value) (s : istate) : istate :=
  IState (toks s) v (cy s) (sx s) (sy s) (out s).

Definition set_cy (v : value) (s : istate) : istate :=
  IState (toks s) (cx s) v (sx s) (sy s) (out s).

(** [sx = cx; sy = cy] *)
Definition mark_start (s : istate) : istate :=
  IState (toks s) (cx s) (cy s) (cx s) (cy s) (out s).

(** [emitArc]: a straight line for a degenerate arc, else the chain of
    Bézier segments. *)
Definition emitArc (x1 y1 rx ry angleDeg largeArc sweep x2 y2 : value)
    (s : istate) : istate :=
  if (strict_eq x1 x2 && strict_eq y1 y2)
     || strict_eq rx (VNum 0) || strict_eq ry (VNum 0)
  then emit (CLineTo x2 y2) s
  else emit (CArcCurves x1 y1 rx ry angleDeg largeArc sweep x2 y2) s.

(** [cx = num(); cy = num();] *)
Definition read_abs (s : istate) : istate :=
  let '(x, s) := num s in let s := set_cx x s in
  let '(y, s) := num s in set_cy y s.

(** [cx += num(); cy += num();] *)
Definition read_rel (s : istate) : istate :=
  let '(x, s) := num s in let s := set_cx (js_add (cx s) x) s in
  let '(y, s) := num s in set_cy (js_add (cy s) y) s.

Definition line_here (s : istate) : istate := emit (CLineTo (cx s) (cy s)) s.

Definition body_L (s : istate) : istate := line_here (read_abs s).
Definition body_l (s : istate) : istate := line_here (read_rel s).

Definition body_H (s : istate) : istate :=
  let '(x, s) := num s in line_here (set_cx x s).
Definition body_h (s : istate) : istate :=
  let '(x, s) := num s in line_here (set_cx (js_add (cx s) x) s).
Definition body_V (s : istate) : istate :=
  let '(y, s) := num s in line_here (set_cy y s).
Definition body_v (s : istate) : istate :=
  let '(y, s) := num s in line_here (set_cy (js_add (cy s) y) s).

Definition body_C (s : istate) : istate :=
  let '(x1, s) := num s in let '(y1, s) := num s in
  let '(x2, s) := num s in let '(y2, s) := num s in
  let s := read_abs s in
  emit (CBezierCurveTo x1 y1 x2 y2 (cx s) (cy s)) s.

Definition body_c (s : istate) : istate :=
  let '(a, s) := num s in let x1 := js_add (cx s) a in
  let '(b, s) := num s in let y1 := js_add (cy s) b in
  let '(c, s) := num s in let x2 := js_add (cx s) c in
  let '(d, s) := num s in let y2 := js_add (cy s) d in
  let s := read_rel s in
  emit (CBezierCurveTo x1 y1 x2 y2 (cx s) (cy s)) s.

Definition body_Q (s : istate) : istate :=
  let '(qx, s) := num s in let '(qy, s) := num s in
  let s := read_abs s in
  emit (CQuadraticCurveTo qx qy (cx s) (cy s)) s.

Definition body_q (s : istate) : istate :=
  let '(a, s) := num s in let qx := js_add (cx s) a in
  let '(b, s) := num s in let qy := js_add (cy s) b in
  let s := read_rel s in
  emit (CQuadraticCurveTo qx qy (cx s) (cy s)) s.

Definition body_A (s : istate) : istate :=
  let '(rx, s) := num s in let '(ry, s) := num s in
  let '(rot, s) := num s in let '(la, s) := num s in
  let '(sw, s) := num s in
  let '(ex, s) := num s in let '(ey, s) := num s in
  let s := emitArc (cx s) (cy s) rx ry rot la sw ex ey s in
  set_cy ey (set_cx ex s).

Definition body_a (s : istate) : istate :=
  let '(rx, s) := num s in let '(ry, s) := num s in
  let '(rot, s) := num s in let '(la, s) := num s in
  let '(sw, s) := num s in
  let '(a, s) := num s in let ex := js_add (cx s) a in
  let '(b, s) := num s in let ey := js_add (cy s) b in
  let s := emitArc (cx s) (cy s) rx ry rot la sw ex ey s in
  set_cy ey (set_cx ex s).

(** [while (isNum()) { body }]; every iteration takes at least one
    token, so [fuel] = the number of tokens left is enough. *)
Fixpoint whileNum (fuel : nat) (body : istate → istate) (s : istate) : istate :=
  match fuel with
  | O => s
  | S fuel' => if isNum s then whileNum fuel' body (body s) else s
  end.

Definition repeat_body (body : istate → istate) (s : istate) : istate :=
  whileNum (length (toks s)) body s.

(** The [switch (cmd)] of [drawPathData]: [cmd] is compared with the
    case labels in turn; a number, or a letter without a case, does
    nothing. *)
Definition exec_cmd (cmd : value) (s : istate) : istate :=
  match cmd with
  | VStr c =>
      if String.eqb c "F" then s
      else if String.eqb c "M" then
        let s := read_abs s in
        let s := mark_start (emit (CMoveTo (cx s) (cy s)) s) in
        repeat_body body_L s
      else if String.eqb c "m" then
        let s := read_rel s in
        let s := mark_start (emit (CMoveTo (cx s) (cy s)) s) in
        repeat_body body_l s
      else if String.eqb c "L" then repeat_body body_L s
      else if String.eqb c "l" then repeat_body body_l s
      else if String.eqb c "H" then repeat_body body_H s
      else if String.eqb c "h" then repeat_body body_h s
      else if String.eqb c "V" then repeat_body body_V s
      else if String.eqb c "v" then repeat_body body_v s
      else if String.eqb c "C" then repeat_body body_C s
      else if String.eqb c "c" then repeat_body body_c s
      else if String.eqb c "Q" then repeat_body body_Q s
      else if String.eqb c "q" then repeat_body body_q s
      else if String.eqb c "A" then repeat_body body_A s
      else if String.eqb c "a" then repeat_body body_a s
      else if String.eqb c "Z" || String.eqb c "z" then
        let s := emit CClosePath s in
        set_cy (sy s) (set_cx (sx s) s)
      else s
  | _ => s
  end.

(** [while (i < t.length) { const cmd = t[i++]; switch (cmd) ... }];
    every iteration takes at least one token. *)
Fixpoint draw_loop (fuel : nat) (s : istate) : istate :=
  match fuel with
  | O => s
  | S fuel' =>
      match toks s with
      | [] => s
      | _ :: _ => let '(cmd, s) := num s in draw_loop fuel' (exec_cmd cmd s)
      end
  end.

(** The interpreter on the token array [t], entered with the current
    point, subpath start and earlier calls of [s]. *)
Definition run_tokens (t : list token) (s : istate) : istate :=
  draw_loop (length t) (IState t (cx s) (cy s) (sx s) (sy s) (out s)).

(** [let cx = 0, cy = 0, sx = 0, sy = 0] *)
Definition start_state : istate :=
  IState [] (VNum 0) (VNum 0) (VNum 0) (VNum 0) [].

Definition interpret (t : list token) : istate := run_tokens t start_state.

(** The calls [drawPathData(doc, d)] makes on [doc], in order, as long
    as none of them throws. *)
Definition pathCalls (d : string) : list call := out (interpret (tokenizePath d)).

End PathData.

(** ** The parsed XML tree *)

(** An element as [xml2js] returns it with [explicitChildren] and
    [preserveChildrenOrder]: its tag [#name], its attributes and its
    children [$$] in document order.  The parser creates the attribute
    object [$] when it meets the first attribute: an element without
    attributes has none, and [attrs] is empty exactly then. *)
#[local] Unset Elimination Schemes.
Inductive node := Node {
  name : string;
  attrs : gmap string string;
  getChildren : list node
}.
#[local] Set Elimination Schemes.

(** A string used as a condition: [undefined] and [""] are falsy. *)
Definition truthy (o : option string) : option string :=
  match o with
  | Some s => if String.eqb s "" then None else Some s
  | None => None
  end.

(** [o || d] on an optional string. *)
Definition or_else (o : option string) (d : string) : string :=
  default d (truthy o).

(** [s.split(",")] *)
Fixpoint split_comma_from (cur : string) (s : string) : list string :=
  match s with
  | EmptyString => [String.rev cur]
  | String c r =>
      if Ascii.eqb c "," then String.rev cur :: split_comma_from EmptyString r
      else split_comma_from (String c cur) r
  end.

Definition split_comma (s : string) : list string := split_comma_from EmptyString s.

(** [\s] on the UTF-8 encoding: the number of bytes of the white-space
    or line-terminator character at the head of [s], 0 when there is
    none.  These are TAB, LF, VT, FF, CR, SP, U+00A0, U+1680,
    U+2000..U+200A, U+2028, U+2029, U+202F, U+205F, U+3000 and U+FEFF. *)
Definition js_space_len (s : string) : nat :=
  match s with
  | EmptyString => 0
  | String a r =>
      let x := N_of_ascii a in
      if (9 <=? x)%N && (x <=? 13)%N || (x =? 32)%N then 1
      else if (x =? 0xC2)%N then
        match r with
        | String b _ => if (N_of_ascii b =? 0xA0)%N then 2 else 0
        | EmptyString => 0
        end
      else if (x =? 0xE1)%N || (x =? 0xE2)%N || (x =? 0xE3)%N || (x =? 0xEF)%N then
        match r with
        | String b (String c _) =>
            let y := N_of_ascii b in
            let z := N_of_ascii c in
            if (x =? 0xE1)%N then
              if (y =? 0x9A)%N && (z =? 0x80)%N then 3 else 0
            else if (x =? 0xE2)%N then
              if (y =? 0x80)%N
                 && ((0x80 <=? z)%N && (z <=? 0x8A)%N
                     || (z =? 0xA8)%N || (z =? 0xA9)%N || (z =? 0xAF)%N)
                 || (y =? 0x81)%N && (z =? 0x9F)%N
              then 3 else 0
            else if (x =? 0xE3)%N then
              if (y =? 0x80)%N && (z =? 0x80)%N then 3 else 0
            else
              if (y =? 0xBB)%N && (z =? 0xBF)%N then 3 else 0
        | _ => 0
        end
      else 0
  end%nat.

(** The number of bytes of the longest run of [\s] characters at the
    head of [s]; [skip] bytes of the character just matched remain to be
    passed over. *)
Fixpoint spaces_len_from (skip : nat) (s : string) : nat :=
  match s with
  | EmptyString => 0
  | String _ r =>
      match skip with
      | S k => S (spaces_len_from k r)
      | O =>
          match js_space_len s with
          | S k => S (spaces_len_from k r)
          | O => O
          end
      end
  end.

Definition spaces_len (s : string) : nat := spaces_len_from 0 s.

(** [[\s,]]: the number of bytes of the separator at the head of [s]. *)
Definition sep_len (s : string) : nat :=
  match s with
  | String c _ => if Ascii.eqb c "," then 1%nat else js_space_len s
  | EmptyString => 0%nat
  end.

(** [s.split(/[\s,]+/)]; [insep] tells that the previous character was a
    separator, [skip] how many of its bytes remain to be passed over. *)
Fixpoint split_seps_from (skip : nat) (insep : bool) (cur : string)
    (s : string) : list string :=
  match s with
  | EmptyString => [String.rev cur]
  | String c r =>
      match skip with
      | S k => split_seps_from k insep cur r
      | O =>
          match sep_len s with
          | S k =>
              if insep then split_seps_from k true cur r
              else String.rev cur :: split_seps_from k true EmptyString r
          | O => split_seps_from 0 false (String c cur) r
          end
      end
  end.

Definition split_seps (s : string) : list string :=
  split_seps_from 0 false EmptyString s.

(** [m[i]] on an array of numbers. *)
Definition at_index (m : list float) (i : nat) : value :=
  match m !! i with
  | Some x => VNum x
  | None => VUndef
  end.

Definition lower_ascii (c : ascii) : ascii :=
  if ascii_between "A" "Z" c then ascii_of_N (N_of_ascii c + 32) else c.

(** [s.toLowerCase()], on ASCII letters. *)
Fixpoint toLowerCase (s : string) : string :=
  match s with
  | EmptyString => EmptyString
  | String c r => String (lower_ascii c) (toLowerCase r)
  end.

(** [\w] *)
Definition is_word (c : ascii) : bool :=
  is_digit c || ascii_between "a" "z" c || ascii_between "A" "Z" c ||
  Ascii.eqb c "_".

Fixpoint count_while (p : ascii → bool) (s : string) : nat :=
  match s with
  | String c r => if p c then S (count_while p r) else O
  | EmptyString => O
  end.

(** [fill.match(/^\{StaticResource\s+(\w+)\}$/)]: the key [m[1]]. *)
Definition staticResource (fill : string) : option string :=
  let pre := "{StaticResource" in
  if String.prefix pre fill then
    let r := string_drop (String.length pre) fill in
    let ws := spaces_len r in
    let r1 := string_drop ws r in
    let w := count_while is_word r1 in
    if (0 <? ws)%nat && (0 <? w)%nat
       && String.eqb (string_drop w r1) "}"
    then Some (substring 0 w r1) else None
  else None.

Fixpoint hex_of_string (s : string) : string :=
  match s with
  | EmptyString => EmptyString
  | String c r =>
      let digit n := nth (N.to_nat n) (list_ascii_of_string "0123456789abcdef") "0"%char in
      String (digit (N_of_ascii c / 16)%N)
        (String (digit (N_of_ascii c mod 16)%N) (hex_of_string r))
  end.

(** ["f_" + Buffer.from(uri).toString("hex").slice(0, 20)] *)
Definition fontIdOf (uri : string) : string :=
  "f_" ++ substring 0 20 (hex_of_string uri).

(** ** The font table *)

(** The names of the properties a plain object inherits from
    [Object.prototype]. *)
Definition object_prototype_keys : list string :=
  [ "constructor"; "__defineGetter__"; "__defineSetter__"; "hasOwnProperty";
    "__lookupGetter__"; "__lookupSetter__"; "isPrototypeOf";
    "propertyIsEnumerable"; "toString"; "valueOf"; "__proto__";
    "toLocaleString" ].

(** [fonts[uri]] on the plain object [fonts]: the buffer stored under
    [uri], else the inherited property of that name, else [undefined].
    Buffers, functions and [Object.prototype] are all truthy. *)
Definition fonts_get (fonts : gmap string (list byte)) (uri : string)
    : option font_src :=
  match fonts !! uri with
  | Some buf => Some (SrcBuffer buf)
  | None =>
      if bool_decide (uri ∈ object_prototype_keys) then Some (SrcInherited uri)
      else None
  end.

(** ** Errors and effects *)

Inductive error :=
| NoFixedDocumentSequence            (* Error("No FixedDocumentSequence found") *)
| NoPagesFound                       (* Error("No pages found in DWFx file") *)
| CannotReadPage (fpagePath : string) (* Error(`Cannot read page: ...`) *)
| XmlError                           (* the XML parser rejects a part *)
| TypeError                          (* a property of [undefined] is read *)
| PdfError (c : call).               (* PDFKit throws in call [c] *)

(** The kinds the specification gives to the errors that abort a
    conversion: [PackageInvalid] for a missing
    [FixedDocumentSequence.fdseq] or an unreadable first page, [NoPages]
    for an empty navigation result.  What the XML parser, the read of a
    missing property or PDFKit throws has no kind there. *)
Inductive error_kind := PackageInvalid | NoPages | Uncategorised.

Definition kind_of (e : error) : error_kind :=
  match e with
  | NoFixedDocumentSequence | CannotReadPage _ => PackageInvalid
  | NoPagesFound => NoPages
  | XmlError | TypeError | PdfError _ => Uncategorised
  end.

Inductive result (A : Type) :=
| Ok (a : A)
| Throw (e : error).
Arguments Ok {A} a.
Arguments Throw {A} e.

#[global] Instance result_ret : MRet result := λ A a, Ok a.
#[global] Instance result_bind : MBind result := λ A B f m,
  match m with
  | Ok a => f a
  | Throw e => Throw e
  end.

(** What rendering mutates: the document, that is the calls accepted so
    far, and the module-level [registeredFonts] set. *)
Record rstate := RState {
  doc : list call;
  registeredFonts : gset string
}.

(** A computation that may mutate the state and may throw; what it did
    before throwing stays done. *)
Definition M (A : Type) : Type := rstate → result A * rstate.

#[global] Instance M_ret : MRet M := λ A a st, (Ok a, st).
#[global] Instance M_bind : MBind M := λ A B f m st,
  match m st with
  | (Ok a, st') => f a st'
  | (Throw e, st') => (Throw e, st')
  end.

(** [try { m } catch { handler }] *)
Definition try_catch {A : Type} (m handler : M A) : M A := λ st,
  match m st with
  | (Ok a, st') => (Ok a, st')
  | (Throw _, st') => handler st'
  end.

(** [try { m } catch { }] *)
Definition try_ (m : M unit) : M unit := try_catch m (mret tt).

Class Backend := {
  (** PDFKit completes call [c] on a document with history [log]
      ([true]) or throws ([false]). *)
  pdf_accepts : call → list call → bool
}.

Section Rendering.
Context `{Runtime} `{Backend}.

(** A method call on [doc]. *)
Definition call_ (c : call) : M unit := λ st,
  if pdf_accepts c (doc st)
  then (Ok tt, RState (doc st ++ [c]) (registeredFonts st))
  else (Throw (PdfError c), st).

Fixpoint replay (cs : list call) : M unit :=
  match cs with
  | [] => mret tt
  | c :: r => call_ c;; replay r
  end.

(** [drawPathData(doc, d)]: the interpreter's calls reach the document
    one after the other; the first one PDFKit rejects ends it. *)
Definition drawPathData (d : string) : M unit := replay (pathCalls d).

Definition XPS_TO_PDF : float := (72 / 96)%float.

(** [parseFloat(x)] of an attribute that may be missing: [undefined] is
    first converted to the string ["undefined"]. *)
Definition parseFloat_attr (o : option string) : float :=
  parseFloat (default "undefined" o).

(** The read of [node.$] before a property of it is taken: a
    [TypeError] when the element has no attributes. *)
Definition dollar (n : node) : M unit := λ st,
  if bool_decide (attrs n = ∅) then (Throw TypeError, st) else (Ok tt, st).

(** *** [applyStrokeStyle] *)

Definition applyStrokeStyle (n : node) (thickness : float) : M unit :=
  dollar n;;
  call_ (CStrokeColor (default "" (attrs n !! "Stroke")));;
  call_ (CLineWidth thickness);;
  let cap :=
    toLowerCase
      (default (or_else (attrs n !! "StrokeStartLineCap") "Flat")
         (truthy (attrs n !! "StrokeEndLineCap"))) in
  call_ (CLineCap (if String.eqb cap "round" then "round"
                   else if String.eqb cap "square" then "square" else "butt"));;
  let join := toLowerCase (or_else (attrs n !! "StrokeLineJoin") "Miter") in
  call_ (CLineJoin (if String.eqb join "round" then "round"
                    else if String.eqb join "bevel" then "bevel" else "miter"));;
  let miter := parseFloat (or_else (attrs n !! "StrokeMiterLimit") "10") in
  call_ (CMiterLimit miter);;
  match truthy (attrs n !! "StrokeDashArray") with
  | Some dashStr =>
      if negb (String.eqb dashStr "1 0") then
        let dashOffset := parseFloat (or_else (attrs n !! "StrokeDashOffset") "0") in
        let parts := (λ p, parseFloat p * thickness)%float <$> split_seps dashStr in
        call_ (CDash parts (abs (dashOffset * thickness)%float))
      else call_ CUndash
  | None => call_ CUndash
  end.

(** *** [renderImageFill] *)

Record brush := Brush {
  imageBuffer : option (list byte);
  transform : option string;
  viewport : option string;
  viewbox : option string
}.

Definition renderImageFill (data key : string) (resources : gmap string brush)
    (stroke : option string) (n : node) (thickness : float) : M unit :=
  match resources !! key with
  | None => mret tt
  | Some res =>
      match imageBuffer res with
      | None => mret tt
      | Some img =>
          call_ CSave;;
          try_ (
            drawPathData data;;
            call_ CClip;;
            match truthy (transform res) with
            | Some tr =>
                let t := Number <$> split_comma tr in
                call_ (CTransform (at_index t 0) (at_index t 1) (at_index t 2)
                         (at_index t 3) (at_index t 4) (at_index t 5))
            | None => mret tt
            end;;
            let vp :=
              match truthy (viewport res) with
              | Some v => Number <$> split_seps v
              | None => [0; 0; 100; 100]%float
              end in
            call_ (CImage img (at_index vp 0) (at_index vp 1)
                     (at_index vp 2) (at_index vp 3)));;
          call_ CRestore;;
          match stroke with
          | Some _ =>
              call_ CSave;;
              applyStrokeStyle n thickness;;
              try_ (drawPathData data;; call_ CStroke);;
              call_ CRestore
          | None => mret tt
          end
      end
  end.

(** *** [renderPath] *)

Definition renderPath (n : node) (resources : gmap string brush) : M unit :=
  dollar n;;
  match truthy (attrs n !! "Data") with
  | None => mret tt
  | Some data =>
      let fill := truthy (attrs n !! "Fill") in
      let stroke := truthy (attrs n !! "Stroke") in
      match fill, stroke with
      | None, None => mret tt
      | _, _ =>
          let thickness := parseFloat (or_else (attrs n !! "StrokeThickness") "1") in
          match fill ≫= staticResource with
          | Some key => renderImageFill data key resources stroke n thickness
          | None =>
              call_ CSave;;
              match stroke with
              | Some _ => applyStrokeStyle n thickness
              | None => mret tt
              end;;
              try_ (
                drawPathData data;;
                match fill, stroke with
                | Some f, Some s => call_ (CFillAndStroke f s)
                | Some f, None => call_ (CFill f)
                | None, _ => call_ CStroke
                end);;
              call_ CRestore
          end
      end
  end.

(** *** [renderGlyphs] *)

Definition registered (fontId : string) : M bool := λ st,
  (Ok (bool_decide (fontId ∈ registeredFonts st)), st).

(** [registeredFonts.add(fontId)] *)
Definition registeredFonts_add (fontId : string) : M unit := λ st,
  (Ok tt, RState (doc st) ({[fontId]} ∪ registeredFonts st)).

(** The face [renderGlyphs] selects, registering it when needed;
    [fonts[uri]] is read through [fonts_get]. *)
Definition chooseFont (uri : option string) (fonts : gmap string (list byte))
    : M string :=
  match uri ≫= λ u, (λ src, (u, src)) <$> fonts_get fonts u with
  | Some (u, src) =>
      let fontId := fontIdOf u in
      known ← registered fontId;
      if negb known then
        try_catch
          (call_ (CRegisterFont fontId src);;
           registeredFonts_add fontId;;
           mret fontId)
          (mret "Helvetica")
      else mret fontId
  | None => mret "Helvetica"
  end.

(** [renderGlyphs]; the literal [0.8] of the source is the double
    [0x1.999999999999ap-1]. *)
Definition renderGlyphs (n : node) (fonts : gmap string (list byte)) : M unit :=
  dollar n;;
  match truthy (attrs n !! "UnicodeString") with
  | None => mret tt
  | Some text =>
      let fill := or_else (attrs n !! "Fill") "#000000" in
      let fontSize := parseFloat (or_else (attrs n !! "FontRenderingEmSize") "12") in
      let ox := parseFloat (or_else (attrs n !! "OriginX") "0") in
      let oy := parseFloat (or_else (attrs n !! "OriginY") "0") in
      let uri := truthy (attrs n !! "FontUri") in
      call_ CSave;;
      fontName ← chooseFont uri fonts;
      try_ (
        call_ (CFont fontName);;
        call_ (CFontSize fontSize);;
        call_ (CFillColor fill);;
        call_ (CText text ox (oy - fontSize * 0x1.999999999999ap-1)%float false));;
      call_ CRestore
  end.

(** *** [renderCanvas], [renderElement], [renderChildren] *)

(** [renderCanvas]; [kids] is [renderChildren(doc, node, resources, fonts)]. *)
Definition renderCanvas (kids : M unit) (n : node) : M unit :=
  call_ CSave;;
  dollar n;;
  match truthy (attrs n !! "RenderTransform") with
  | Some rt =>
      let m := Number <$> split_comma rt in
      call_ (CTransform (at_index m 0) (at_index m 1) (at_index m 2)
               (at_index m 3) (at_index m 4) (at_index m 5))
  | None => mret tt
  end;;
  match truthy (attrs n !! "Clip") with
  | Some clip => drawPathData clip;; call_ CClip
  | None => mret tt
  end;;
  kids;;
  call_ CRestore.

Fixpoint renderElement (resources : gmap string brush)
    (fonts : gmap string (list byte)) (n : node) {struct n} : M unit :=
  match n with
  | Node nm _ cs =>
      let kids :=
        (fix each (l : list node) : M unit :=
           match l with
           | [] => mret tt
           | c :: r => renderElement resources fonts c;; each r
           end) cs in
      if String.eqb nm "Canvas" then renderCanvas kids n
      else if String.eqb nm "Path" then renderPath n resources
      else if String.eqb nm "Glyphs" then renderGlyphs n fonts
      else if String.eqb nm "Canvas.Resources"
              || String.eqb nm "ResourceDictionary" then mret tt
      else kids
  end.

Fixpoint renderEach (resources : gmap string brush)
    (fonts : gmap string (list byte)) (l : list node) : M unit :=
  match l with
  | [] => mret tt
  | c :: r => renderElement resources fonts c;; renderEach resources fonts r
  end.

Definition renderChildren (n : node) (resources : gmap string brush)
    (fonts : gmap string (list byte)) : M unit :=
  renderEach resources fonts (getChildren n).

End Rendering.

(** ** The package: [readEntry], [findPages], resources and fonts *)

(** A part of the ZIP container: its bytes and, for the text they
    decode to, the tree the XML parser makes of it ([None] when the
    parser rejects it). *)
Record part := Part {
  data : list byte;
  xml : option node
}.

(** [s.replace(/^p/, "")] for a literal prefix [p]. *)
Definition strip_prefix (p s : string) : string :=
  if String.prefix p s then string_drop (String.length p) s else s.

(** [p.replace(/^\.\//, "").replace(/^\//, "")] *)
Definition clean_path (p : string) : string :=
  strip_prefix "/" (strip_prefix "./" p).

(** The opened archive: what [zip.getEntry(name)] returns for each
    name.  How the library finds the entry of a name is its own affair. *)
Definition archive : Type := string → option part.

(** [readEntry]: the decoded text of a part, or [null]. *)
Definition readEntry (zip : archive) (p : string) : option part :=
  zip (clean_path p).

(** [readEntryBuf]: the bytes of a part, or [null]. *)
Definition readEntryBuf (zip : archive) (p : string) : option (list byte) :=
  data <$> zip (clean_path p).

(** A text used as a condition: [null] and the empty text are falsy. *)
Definition readable (o : option part) : option part :=
  match o with
  | Some t => match data t with [] => None | _ :: _ => Some t end
  | None => None
  end.

(** [parseXml], followed by [parsed.Tag || Object.values(parsed)[0]]:
    the root element. *)
Definition parseXml (t : part) : result node :=
  match xml t with
  | Some root => Ok root
  | None => Throw XmlError
  end.

Record page_ref := PageRef {
  fpagePath : string;
  basePath : string
}.

Section Package.
Context `{Runtime}.

(** The loop of [findPages] over the children of a FixedDocument. *)
Fixpoint pageContents (l : list node) (pages : list page_ref)
    : result (list page_ref) :=
  match l with
  | [] => Ok pages
  | pc :: r =>
      if negb (String.eqb (name pc) "PageContent") then pageContents r pages
      else
        match attrs pc !! "Source" with
        | None => Throw TypeError
        | Some source =>
            let src := strip_prefix "/" source in
            pageContents r (pages ++ [PageRef src (posix_dirname src)])
        end
  end.

(** The loop of [findPages] over the children of the
    FixedDocumentSequence. *)
Fixpoint documentReferences (zip : archive) (l : list node)
    (pages : list page_ref) : result (list page_ref) :=
  match l with
  | [] => Ok pages
  | child :: r =>
      if negb (String.eqb (name child) "DocumentReference")
      then documentReferences zip r pages
      else
        match attrs child !! "Source" with
        | None => Throw TypeError
        | Some source =>
            let docSrc := strip_prefix "/" source in
            match readable (readEntry zip docSrc) with
            | None => documentReferences zip r pages
            | Some docXml =>
                docRoot ← parseXml docXml;
                pages' ← pageContents (getChildren docRoot) pages;
                documentReferences zip r pages'
            end
        end
  end.

Definition findPages (zip : archive) : result (list page_ref) :=
  match readable (readEntry zip "FixedDocumentSequence.fdseq") with
  | None => Throw NoFixedDocumentSequence
  | Some fdseqXml =>
      fdseqRoot ← parseXml fdseqXml;
      documentReferences zip (getChildren fdseqRoot) []
  end.

Definition resolvePath (base rel : string) : string :=
  if String.prefix "/" rel then string_drop 1 rel
  else posix_join base (strip_prefix "./" rel).

(** [loadBrush]; reading [node.$["x:Key"]] throws on an ImageBrush
    without attributes. *)
Definition loadBrush (n : node) (basePath : string) (zip : archive)
    (resources : gmap string brush) : result (gmap string brush) :=
  if negb (String.eqb (name n) "ImageBrush") then Ok resources
  else if bool_decide (attrs n = ∅) then Throw TypeError
  else
    let key :=
      match truthy (attrs n !! "x:Key") with
      | Some k => Some k
      | None => truthy (attrs n !! "Key")
      end in
    match key, truthy (attrs n !! "ImageSource") with
    | Some key, Some imgSrc =>
        Ok (<[key := Brush (readEntryBuf zip (resolvePath basePath imgSrc))
                       (attrs n !! "Transform") (attrs n !! "Viewport")
                       (attrs n !! "Viewbox")]> resources)
    | _, _ => Ok resources
    end.

(** [for (const res of l) loadBrush(res, basePath, zip, resources)] *)
Fixpoint loadBrushes (l : list node) (basePath : string) (zip : archive)
    (resources : gmap string brush) : result (gmap string brush) :=
  match l with
  | [] => Ok resources
  | res :: r =>
      resources1 ← loadBrush res basePath zip resources;
      loadBrushes r basePath zip resources1
  end.

Definition parseResourceDict (t : part) (basePath : string) (zip : archive)
    (resources : gmap string brush) : result (gmap string brush) :=
  root ← parseXml t;
  loadBrushes (getChildren root) basePath zip resources.

(** The loop of [collectResources] over the children of a
    [Canvas.Resources] element. *)
Fixpoint resourceDictionaries (l : list node) (zip : archive)
    (basePath : string) (resources : gmap string brush)
    : result (gmap string brush) :=
  match l with
  | [] => Ok resources
  | rd :: r =>
      if negb (String.eqb (name rd) "ResourceDictionary")
      then resourceDictionaries r zip basePath resources
      else if bool_decide (attrs rd = ∅) then Throw TypeError
      else
        resources1 ←
          match truthy (attrs rd !! "Source") with
          | Some src =>
              match readable (readEntry zip (resolvePath basePath src)) with
              | Some rdXml => parseResourceDict rdXml basePath zip resources
              | None => Ok resources
              end
          | None => Ok resources
          end;
        resources2 ← loadBrushes (getChildren rd) basePath zip resources1;
        resourceDictionaries r zip basePath resources2
  end.

Fixpoint collectResources (n : node) (zip : archive)
    (basePath : string) (resources : gmap string brush) {struct n}
    : result (gmap string brush) :=
  match n with
  | Node _ _ cs =>
      (fix each (l : list node) (resources : gmap string brush)
         : result (gmap string brush) :=
         match l with
         | [] => Ok resources
         | child :: r =>
             resources1 ←
               (if String.eqb (name child) "Canvas.Resources"
                then resourceDictionaries (getChildren child) zip basePath resources
                else Ok resources);
             resources2 ← collectResources child zip basePath resources1;
             each r resources2
         end) cs resources
  end.

(** [collectFontRefs] fills the table [fonts] in place: it gives the
    table it leaves, together with how it ended.  Reading
    [child.$.FontUri] throws on a Glyphs element without attributes. *)
Fixpoint collectFontRefs (n : node) (zip : archive)
    (basePath : string) (fonts : gmap string (list byte)) {struct n}
    : result unit * gmap string (list byte) :=
  match n with
  | Node _ _ cs =>
      (fix each (l : list node) (fonts : gmap string (list byte))
         : result unit * gmap string (list byte) :=
         match l with
         | [] => (Ok tt, fonts)
         | child :: r =>
             if String.eqb (name child) "Glyphs" && bool_decide (attrs child = ∅)
             then (Throw TypeError, fonts)
             else
               let fonts1 :=
                 if String.eqb (name child) "Glyphs" then
                   match truthy (attrs child !! "FontUri") with
                   | Some uri =>
                       match fonts_get fonts uri with
                       | Some _ => fonts
                       | None =>
                           match readEntryBuf zip (resolvePath basePath uri) with
                           | Some buf =>
                               <[uri := deobfuscateOdttf buf (basename uri)]> fonts
                           | None => fonts
                           end
                       end
                   | None => fonts
                   end
                 else fonts in
               match collectFontRefs child zip basePath fonts1 with
               | (Ok _, fonts2) => each r fonts2
               | (Throw e, fonts2) => (Throw e, fonts2)
               end
         end) cs fonts
  end.

End Package.

(** ** The conversion: [convertDwfxToPdf] *)

(** The PDF being written: the page size given to [new PDFDocument] and
    the calls made on the document. *)
Record pdf := Pdf {
  size : float * float;
  content : list call
}.

(** What a conversion leaves behind: whether it returned or threw, and
    the PDF written so far once the document exists. *)
Record outcome := Outcome {
  returned : result unit;
  written : option pdf
}.

Section Conversion.
Context `{Runtime} `{Backend}.

(** [convertDwfxToPdf] up to the creation of the document: the first
    fixed page with its resources and fonts.  Reading
    [fixedPage.$.Width] throws on a page element without attributes. *)
Definition loadFirstPage (zip : archive)
    : result (node * gmap string brush * gmap string (list byte)) :=
  pages ← findPages zip;
  match pages with
  | [] => Throw NoPagesFound
  | page :: _ =>
      match readable (readEntry zip (fpagePath page)) with
      | None => Throw (CannotReadPage (fpagePath page))
      | Some fpageXml =>
          fixedPage ← parseXml fpageXml;
          if bool_decide (attrs fixedPage = ∅) then Throw TypeError
          else
            resources ← collectResources fixedPage zip (basePath page) ∅;
            match collectFontRefs fixedPage zip (basePath page) ∅ with
            | (Ok _, fonts) => Ok (fixedPage, resources, fonts)
            | (Throw e, _) => Throw e
            end
      end
  end.

(** The calls of [convertDwfxToPdf] on the new document. *)
Definition drawPage (fixedPage : node) (resources : gmap string brush)
    (fonts : gmap string (list byte)) : M unit :=
  call_ CSave;;
  call_ (CTransform (VNum XPS_TO_PDF) (VNum 0) (VNum 0)
           (VNum XPS_TO_PDF) (VNum 0) (VNum 0));;
  renderChildren fixedPage resources fonts;;
  call_ CRestore;;
  call_ CEnd.

Definition pageSize (fixedPage : node) : float * float :=
  let pageW := parseFloat_attr (attrs fixedPage !! "Width") in
  let pageH := parseFloat_attr (attrs fixedPage !! "Height") in
  ((pageW * XPS_TO_PDF)%float, (pageH * XPS_TO_PDF)%float).

(** One conversion in a process whose [registeredFonts] set is
    [registered0]; it returns the set it leaves to the next one. *)
Definition convertDwfxToPdf (zip : archive)
    (registered0 : gset string) : outcome * gset string :=
  match loadFirstPage zip with
  | Throw e => (Outcome (Throw e) None, registered0)
  | Ok (fixedPage, resources, fonts) =>
      let '(r, st) := drawPage fixedPage resources fonts (RState [] registered0) in
      (Outcome r (Some (Pdf (pageSize fixedPage) (doc st))), registeredFonts st)
  end.

End Conversion.

(** ** A concrete runtime and a concrete backend, for closed examples *)

(** *** Numerals *)

Definition digit_float (c : ascii) : float :=
  nth (N.to_nat (hex_val c)) [0; 1; 2; 3; 4; 5; 6; 7; 8; 9; 10; 11; 12; 13; 14; 15]%float 0%float.

(** The value of the first [n] digits of [s] in base [radix], continuing
    from [acc]; exact as long as it stays below 2^53. *)
Fixpoint digits_value (radix acc : float) (n : nat) (s : string) : float :=
  match n, s with
  | S n', String c r => digits_value radix (acc * radix + digit_float c)%float n' r
  | _, _ => acc
  end.

Fixpoint digits_nat (acc : nat) (s : string) : nat :=
  match s with
  | String c r =>
      if is_digit c then digits_nat (10 * acc + N.to_nat (hex_val c)) r else acc
  | EmptyString => acc
  end.

(** 10^[k]; exact for [k <= 22]. *)
Definition pow10 (k : nat) : float := Nat.iter k (λ x, x * 10)%float 1%float.

(** The number written by a decimal numeral [s] (sign, digits, fraction,
    exponent).  The digits are accumulated in binary64 and scaled by one
    multiplication or division by a power of ten: the result is the
    correctly rounded one when the digits make an integer below 2^53 and
    the power of ten is at most 10^22. *)
Definition decimal_value (s : string) : float :=
  let body := string_drop (sign_len s) s in
  let i := count_digits body in
  let after_int := string_drop i body in
  let has_dot := String.prefix "." after_int in
  let frac := if has_dot then string_drop 1 after_int else after_int in
  let f := if has_dot then count_digits frac else O in
  let rest := string_drop f frac in
  let m := digits_value 10 (digits_value 10 0 i body) f frac in
  let '(eneg, e) :=
    match rest with
    | String c r =>
        if is_exp c
        then (String.prefix "-" r, digits_nat 0 (string_drop (sign_len r) r))
        else (false, O)
    | EmptyString => (false, O)
    end in
  let v :=
    if PrimFloat.eqb m 0 then 0%float
    else if eneg then (m / pow10 (Nat.min 400 (e + f)))%float
    else if (f <=? e)%nat then (m * pow10 (Nat.min 400 (e - f)))%float
    else (m / pow10 (f - e))%float in
  if String.prefix "-" s then (- v)%float else v.

Definition trim_left (s : string) : string :=
  string_drop (count_while Ascii.is_space s) s.

Definition trim (s : string) : string :=
  String.rev (trim_left (String.rev (trim_left s))).

(** [parseFloat] on ASCII text: leading white space, then the longest
    decimal numeral or [Infinity]. *)
Definition js_parseFloat (s : string) : float :=
  let s := trim_left s in
  if String.prefix "Infinity" s || String.prefix "+Infinity" s then infinity
  else if String.prefix "-Infinity" s then neg_infinity
  else
    match number_len s with
    | O => nan
    | n => decimal_value (substring 0 n s)
    end.

Definition radix_value (radix : float) (p : ascii → bool) (s : string) : float :=
  if (0 <? String.length s)%nat && string_all p s
  then digits_value radix 0 (String.length s) s else nan.

(** [Number] on ASCII text: white space trimmed, the empty string is 0,
    a numeral must fill the whole string. *)
Definition js_Number (s : string) : float :=
  let s := trim s in
  if String.eqb s "" then 0%float
  else if String.eqb s "Infinity" || String.eqb s "+Infinity" then infinity
  else if String.eqb s "-Infinity" then neg_infinity
  else if String.prefix "0x" s || String.prefix "0X" s
  then radix_value 16 is_hex (string_drop 2 s)
  else if String.prefix "0o" s || String.prefix "0O" s
  then radix_value 8 (ascii_between "0" "7") (string_drop 2 s)
  else if String.prefix "0b" s || String.prefix "0B" s
  then radix_value 2 (ascii_between "0" "1") (string_drop 2 s)
  else if (0 <? number_len s)%nat && (number_len s =? String.length s)%nat
  then decimal_value s
  else nan.

Definition decimal_of_N (n : N) : string :=
  DecimalString.NilZero.string_of_uint (N.to_uint n).

Definition zeros (k : nat) : string := string_of_list_ascii (replicate k "0"%char).

Fixpoint strip_zeros (s : string) : string :=
  match s with
  | String c r => if Ascii.eqb c "0" then strip_zeros r else s
  | EmptyString => EmptyString
  end.

(** The fraction [r / 2^k] (with [r < 2^k]) in decimal: the digits of
    [r * 5^k], padded to [k] places, without trailing zeros. *)
Definition fraction_digits (r : N) (k : nat) : string :=
  let d := decimal_of_N (r * 5 ^ N.of_nat k) in
  String.rev (strip_zeros (String.rev (zeros (k - String.length d) ++ d))).

(** A number as a string: [NaN], [Infinity], and the decimal expansion
    of a finite number, which is finite and written in full.  JS writes
    the shortest digit string that reads back as the same number, and
    uses an exponent from 1e21 on and below 1e-6; for integers below
    1e21 in magnitude the two agree. *)
Definition js_numberToString (x : float) : string :=
  match Prim2SF x with
  | SpecFloat.S754_nan => "NaN"
  | SpecFloat.S754_infinity false => "Infinity"
  | SpecFloat.S754_infinity true => "-Infinity"
  | SpecFloat.S754_zero _ => "0"
  | SpecFloat.S754_finite neg m e =>
      let body :=
        match e with
        | Z0 => decimal_of_N (Npos m)
        | Zpos p => decimal_of_N (Npos m * 2 ^ Npos p)
        | Zneg p =>
            let q := (Npos m / 2 ^ Npos p)%N in
            let r := (Npos m mod 2 ^ Npos p)%N in
            if (r =? 0)%N then decimal_of_N q
            else decimal_of_N q ++ "." ++ fraction_digits r (Pos.to_nat p)
        end in
      if neg then "-" ++ body else body
  end.

(** *** Node's [path.posix] *)

Definition is_slash (c : ascii) : bool := Ascii.eqb c "/".

(** [s] without its trailing slashes. *)
Definition drop_trailing_slashes (s : string) : string :=
  String.rev (string_drop (count_while is_slash (String.rev s)) (String.rev s)).

(** [path.basename(p)]: the part after the last slash, trailing slashes
    apart. *)
Definition node_basename (p : string) : string :=
  let q := String.rev (drop_trailing_slashes p) in
  String.rev (substring 0 (count_while (λ c, negb (is_slash c)) q) q).

(** [path.posix.dirname(p)] *)
Definition node_dirname (p : string) : string :=
  match p with
  | EmptyString => "."
  | String c0 tl =>
      let hasRoot := is_slash c0 in
      (* the scan from the right over [tl], that is the indices >= 1 *)
      let q := String.rev tl in
      let q1 := string_drop (count_while is_slash q) q in
      let q2 := string_drop (count_while (λ c, negb (is_slash c)) q1) q1 in
      match q1, q2 with
      | EmptyString, _ | _, EmptyString => if hasRoot then "/" else "."
      | _, String _ before =>
          if hasRoot && String.eqb before "" then "//"
          else String c0 (String.rev before)
      end
  end.

(** The segments of a path between slashes. *)
Fixpoint segments_from (cur : string) (s : string) : list string :=
  match s with
  | EmptyString => [String.rev cur]
  | String c r =>
      if is_slash c then String.rev cur :: segments_from EmptyString r
      else segments_from (String c cur) r
  end.

(** [normalizeString]: [.] and empty segments go, [..] pops a segment;
    [stack] is the result so far, last segment first. *)
Fixpoint normalize_segments (allowAboveRoot : bool) (stack : list string)
    (segs : list string) : list string :=
  match segs with
  | [] => reverse stack
  | seg :: r =>
      if String.eqb seg "" || String.eqb seg "." then
        normalize_segments allowAboveRoot stack r
      else if String.eqb seg ".." then
        match stack with
        | top :: below =>
            if String.eqb top ".."
            then normalize_segments allowAboveRoot (seg :: stack) r
            else normalize_segments allowAboveRoot below r
        | [] =>
            if allowAboveRoot
            then normalize_segments allowAboveRoot [seg] r
            else normalize_segments allowAboveRoot [] r
        end
      else normalize_segments allowAboveRoot (seg :: stack) r
  end.

Fixpoint join_segments (l : list string) : string :=
  match l with
  | [] => ""
  | [s] => s
  | s :: r => s ++ "/" ++ join_segments r
  end.

(** [path.posix.normalize(p)] *)
Definition node_normalize (p : string) : string :=
  match p with
  | EmptyString => "."
  | String c0 _ =>
      let isAbsolute := is_slash c0 in
      let trailing := String.prefix "/" (String.rev p) in
      let q := join_segments
                 (normalize_segments (negb isAbsolute) [] (segments_from "" p)) in
      if String.eqb q "" then
        if isAbsolute then "/" else if trailing then "./" else "."
      else
        let q := if trailing then q ++ "/" else q in
        if isAbsolute then "/" ++ q else q
  end.

(** [path.posix.join(a, b)] *)
Definition node_join (a b : string) : string :=
  if String.eqb a "" then node_normalize b
  else if String.eqb b "" then node_normalize a
  else node_normalize (a ++ "/" ++ b).

#[global] Instance js_runtime : Runtime := {|
  parseFloat := js_parseFloat;
  Number := js_Number;
  numberToString := js_numberToString;
  posix_join := node_join;
  posix_dirname := node_dirname;
  basename := node_basename
|}.

(** *** PDFKit *)

(** PDFKit's [number(n)] accepts [n] when [n > -1e21 && n < 1e21] and
    throws otherwise; NaN and [undefined] fail both comparisons. *)
Definition supported_number `{Runtime} (v : value) : bool :=
  let n := toNumber v in
  PrimFloat.ltb (-1e21) n && PrimFloat.ltb n 1e21.

Definition standard_fonts : list string :=
  [ "Courier"; "Courier-Bold"; "Courier-Oblique"; "Courier-BoldOblique";
    "Helvetica"; "Helvetica-Bold"; "Helvetica-Oblique"; "Helvetica-BoldOblique";
    "Times-Roman"; "Times-Bold"; "Times-Italic"; "Times-BoldItalic";
    "Symbol"; "ZapfDingbats" ].

(** [name] was given to [registerFont] on this document, with a
    buffer. *)
Definition font_registered (name : string) (log : list call) : bool :=
  existsb (λ c, match c with
                | CRegisterFont id (SrcBuffer _) => String.eqb id name
                | _ => false
                end) log.

(** The checks of PDFKit that decide the examples: numeric operands of
    the path and matrix operators must be supported numbers, and [font]
    needs a standard face or a name registered on this very document
    (any other name is opened as a file, which does not exist).  Every
    other call is taken to succeed. *)
Definition pdfkit_accepts `{Runtime} (c : call) (log : list call) : bool :=
  match c with
  | CTransform a b c d e f =>
      forallb supported_number [a; b; c; d; e; f]
  | CMoveTo x y | CLineTo x y => forallb supported_number [x; y]
  | CBezierCurveTo x1 y1 x2 y2 x y =>
      forallb supported_number [x1; y1; x2; y2; x; y]
  | CQuadraticCurveTo qx qy x y => forallb supported_number [qx; qy; x; y]
  | CLineWidth w | CMiterLimit w => supported_number (VNum w)
  | CText _ x y _ => forallb supported_number [VNum x; VNum y]
  | CFont name =>
      existsb (String.eqb name) standard_fonts || font_registered name log
  | _ => true
  end.

#[global] Instance pdfkit : Backend := {|
  pdf_accepts := pdfkit_accepts
|}.

(** ** Notions used to state the properties *)

(** The calls that build a path. *)
Definition path_op (c : call) : bool :=
  match c with
  | CMoveTo _ _ | CLineTo _ _ | CBezierCurveTo _ _ _ _ _ _
  | CQuadraticCurveTo _ _ _ _ | CArcCurves _ _ _ _ _ _ _ _ _ | CClosePath => true
  | _ => false
  end.

(** [body] keeps the property [P] of interpreter states; it establishes
    [P] as soon as [P] holds once its first operand is read. *)
Definition keeps (P : istate → Prop) (body : istate → istate) : Prop :=
  ∀ s, P s → P (body s).

(** At most [n] tokens are left to read. *)
Definition at_most (n : nat) (s : istate) : Prop := (length (toks s) ≤ n)%nat.

Definition starts `{Runtime} (P : istate → Prop) (body : istate → istate) : Prop :=
  ∀ s, P (num s).2 → P (body s).

(** The depth of the graphics-state stack after the calls of [log], as
    a count of [save]s minus [restore]s. *)
Fixpoint depth (log : list call) : Z :=
  match log with
  | [] => 0
  | CSave :: r => 1 + depth r
  | CRestore :: r => -1 + depth r
  | _ :: r => depth r
  end.

(** The calls [cs] are all accepted, one after the other, by a document
    with history [log]. *)
Fixpoint accepted `{Backend} (cs : list call) (log : list call) : bool :=
  match cs with
  | [] => true
  | c :: r => pdf_accepts c log && accepted r (log ++ [c])
  end.

(** The content drawn inside the outermost frame, read from a point
    where [d] inner frames are open: the final depth, or [None] when a
    [restore] would close the outermost frame, a [transform] is applied
    directly in the outermost frame, a page is added or the document is
    ended. *)
Fixpoint track (d : nat) (l : list call) : option nat :=
  match l with
  | [] => Some d
  | CSave :: r => track (S d) r
  | CRestore :: r => match d with S d' => track d' r | O => None end
  | CTransform _ _ _ _ _ _ :: r => if (0 <? d)%nat then track d r else None
  | CAddPage :: _ | CEnd :: _ => None
  | _ :: r => track d r
  end.

(** The same reading up to the end of the document: the [restore] that
    closes the outermost frame may only be followed by [end]. *)
Fixpoint framed (d : nat) (l : list call) : bool :=
  match l with
  | [] => true
  | CSave :: r => framed (S d) r
  | CRestore :: r =>
      match d with
      | S d' => framed d' r
      | O => match r with [] | [CEnd] => true | _ => false end
      end
  | CTransform _ _ _ _ _ _ :: r => (0 <? d)%nat && framed d r
  | CAddPage :: _ | CEnd :: _ => false
  | _ :: r => framed d r
  end.

(** [doc.transform(XPS_TO_PDF, 0, 0, XPS_TO_PDF, 0, 0)] *)
Definition page_scale : call :=
  CTransform (VNum XPS_TO_PDF) (VNum 0) (VNum 0)
    (VNum XPS_TO_PDF) (VNum 0) (VNum 0).

(** The document opens its outermost frame, applies the scale 72/96
    there before anything else, and applies every other transform inside
    an inner frame; no page is added. *)
Definition scaled_once (log : list call) : Prop :=
  ∃ rest, log = CSave :: page_scale :: rest ∧ framed 0 rest = true.

(** [m] throws nothing but PDFKit's errors and the [TypeError] of an
    element without attributes. *)
Definition throws_pdf {A : Type} (m : M A) : Prop :=
  ∀ st e st', m st = (Throw e, st') → e = TypeError ∨ ∃ c, e = PdfError c.

(** [m] only appends calls to the document; read as content from depth
    [d] they end at depth [d1] when [m] returns and at some depth when
    it throws. *)
Definition tracks {A : Type} (d : nat) (m : M A) (d1 : nat) : Prop :=
  throws_pdf m ∧
  ∀ st, ∃ delta,
    doc (m st).2 = (doc st ++ delta)%list ∧
    match (m st).1 with
    | Ok _ => track d delta = Some d1
    | Throw _ => ∃ d', track d delta = Some d'
    end.

(** [m] only appends calls that stay at depth [d], also when it
    throws. *)
Definition steady {A : Type} (d : nat) (m : M A) : Prop :=
  throws_pdf m ∧
  ∀ st, ∃ delta, doc (m st).2 = (doc st ++ delta)%list ∧ track d delta = Some d.



(** The font buffer loaded for the [FontUri] of a Glyphs element. *)
Definition loaded_font (n : node) (fonts : gmap string (list byte))
    : option (string * font_src) :=
  truthy (attrs n !! "FontUri") ≫= λ u, (λ src, (u, src)) <$> fonts_get fonts u.

(** ** [vecAngle] *)

Module ArcGeometry.

Section Binary64.
Variable Math_acos : float → float.

Local Open Scope float_scope.

(** [Math.min(a, b)] and [Math.max(a, b)]: NaN when an operand is NaN,
    and [-0] below [+0]. *)
Definition Math_min (a b : float) : float :=
  if is_nan a || is_nan b then nan
  else if a <? b then a
  else if b <? a then b
  else if get_sign a then a else b.

Definition Math_max (a b : float) : float :=
  if is_nan a || is_nan b then nan
  else if a <? b then b
  else if b <? a then a
  else if get_sign a then b else a.

(** [len || 1]: 0, -0 and NaN are falsy. *)
Definition or_one64 (len : float) : float :=
  if is_nan len || is_zero len then 1 else len.

Definition vecAngle64 (ux uy vx vy : float) : float :=
  let sign := if ux * vy - uy * vx <? 0 then -1 else 1 in
  let dot := ux * vx + uy * vy in
  let len := PrimFloat.sqrt ((ux * ux + uy * uy) * (vx * vx + vy * vy)) in
  sign * Math_acos (Math_max (-1) (Math_min 1 (dot / or_one64 len))).

End Binary64.

End ArcGeometry.

(** ** Example inputs *)

Definition attributes (l : list (string * string)) : gmap string string :=
  list_to_map l.

(** [<Canvas RenderTransform='1,0,0,1,0'/>]: a matrix of five numbers. *)
Definition canvas_short_matrix : node :=
  Node "Canvas" (attributes [("RenderTransform", "1,0,0,1,0")]) [].

(** [<Canvas Clip='M 0,0 L 10'/>]: a line with one coordinate. *)
Definition canvas_short_clip : node :=
  Node "Canvas" (attributes [("Clip", "M 0,0 L 10")]) [].

(** [<Path Fill='#FF0000' Data='M 0,0 L 10'/>]: the same path data on a
    Path. *)
Definition path_short_data : node :=
  Node "Path" (attributes [("Fill", "#FF0000"); ("Data", "M 0,0 L 10")]) [].






(** [<Glyphs UnicodeString='Hi' OriginX='50' OriginY='100'/>] *)
Definition glyphs_plain : node :=
  Node "Glyphs"
    (attributes [("UnicodeString", "Hi"); ("OriginX", "50"); ("OriginY", "100")]) [].

(** A package of one page that holds one text run in an embedded font. *)
Definition fdseq_part : part :=
  Part (list_byte_of_string
          "<FixedDocumentSequence><DocumentReference Source='/Documents/1/FixedDocument.fdoc'/></FixedDocumentSequence>")
    (Some (Node "FixedDocumentSequence" ∅
             [Node "DocumentReference"
                (attributes [("Source", "/Documents/1/FixedDocument.fdoc")]) []])).

Definition fdoc_part : part :=
  Part (list_byte_of_string
          "<FixedDocument><PageContent Source='/Documents/1/Pages/1.fpage'/></FixedDocument>")
    (Some (Node "FixedDocument" ∅
             [Node "PageContent"
                (attributes [("Source", "/Documents/1/Pages/1.fpage")]) []])).

Definition fpage_part : part :=
  Part (list_byte_of_string
          "<FixedPage Width='960' Height='720'><Glyphs FontUri='/Fonts/a.ttf' UnicodeString='Hi'/></FixedPage>")
    (Some (Node "FixedPage" (attributes [("Width", "960"); ("Height", "720")])
             [Node "Glyphs"
                (attributes [("FontUri", "/Fonts/a.ttf"); ("UnicodeString", "Hi")])
                []])).

(** The font part; only the version tag of a TrueType file is written
    out, the backend model does not look into font files. *)
Definition font_bytes : list byte := [x00; x01; x00; x00]%byte.

Definition font_part : part := Part font_bytes None.

(** The archive with the entries [entries]: [getEntry] normalises the
    name it is given before it looks it up. *)
Definition archive_of (entries : list (string * part)) : archive :=
  λ name, (list_to_map entries : gmap string part) !! node_normalize name.

Definition one_page_package : archive :=
  archive_of
    [ ("FixedDocumentSequence.fdseq", fdseq_part);
      ("Documents/1/FixedDocument.fdoc", fdoc_part);
      ("Documents/1/Pages/1.fpage", fpage_part);
      ("Fonts/a.ttf", font_part) ].

(** The PDF its conversion writes in a fresh process, and the one it
    writes once the font identifier is in [registeredFonts]. *)
Definition one_page_font_id : string := "f_2f466f6e74732f612e74".

Definition one_page_pdf : pdf :=
  Pdf (720, 540)%float
    [ CSave;
      CTransform (VNum 0.75) (VNum 0) (VNum 0) (VNum 0.75) (VNum 0) (VNum 0);
      CSave;
      CRegisterFont one_page_font_id (SrcBuffer font_bytes);
      CFont one_page_font_id; CFontSize 12; CFillColor "#000000";
      CText "Hi" 0 (0 - 12 * 0x1.999999999999ap-1)%float false;
      CRestore;
      CRestore; CEnd ].

Definition one_page_pdf_without_text : pdf :=
  Pdf (720, 540)%float
    [ CSave;
      CTransform (VNum 0.75) (VNum 0) (VNum 0) (VNum 0.75) (VNum 0) (VNum 0);
      CSave;
      CRestore;
      CRestore; CEnd ].

(** The same package with a page that holds the Canvas of five matrix
    entries. *)
Definition fpage_short_matrix_part : part :=
  Part (list_byte_of_string
          "<FixedPage Width='960' Height='720'><Canvas RenderTransform='1,0,0,1,0'/></FixedPage>")
    (Some (Node "FixedPage" (attributes [("Width", "960"); ("Height", "720")])
             [canvas_short_matrix])).

Definition short_matrix_package : archive :=
  archive_of
    [ ("FixedDocumentSequence.fdseq", fdseq_part);
      ("Documents/1/FixedDocument.fdoc", fdoc_part);
      ("Documents/1/Pages/1.fpage", fpage_short_matrix_part) ].

(** A package whose document reference points at a missing part. *)
Definition dangling_package : archive :=
  archive_of [ ("FixedDocumentSequence.fdseq", fdseq_part) ].

(** ** Further notions, for the properties beyond the specification's *)

(** The operands of a run of points, as tokens. *)
Fixpoint operands (pts : list (float * float)) : list token :=
  match pts with
  | [] => []
  | (x, y) :: r => TNum x :: TNum y :: operands r
  end.

Definition lineTo_point (p : float * float) : call :=
  CLineTo (VNum p.1) (VNum p.2).

(** A command token is a letter with a chance of a [case]. *)
Definition well_formed_token (t : token) : Prop :=
  match t with
  | TCmd c => is_cmd c = true
  | TNum _ => True
  end.

(** The comparison of two binary64 numbers, [None] when one is NaN. *)
Definition cmp (a b : float) : option comparison :=
  SpecFloat.SFcompare (Prim2SF a) (Prim2SF b).

(** Whether an element below [n] is named [tag]. *)
Fixpoint mentions (tag : string) (n : node) : bool :=
  match n with
  | Node _ _ cs =>
      (fix any (l : list node) : bool :=
         match l with
         | [] => false
         | c :: r => String.eqb (name c) tag || mentions tag c || any r
         end) cs
  end.

(** A font table [fonts'] extends [fonts] from the package: what was
    loaded stays as it was, and every new entry is the part its URI
    resolves to, passed through [deobfuscateOdttf] under the name of
    the URI. *)
Definition extends_fonts `{Runtime} (zip : archive) (basePath : string)
    (fonts fonts' : gmap string (list byte)) : Prop :=
  (∀ uri b, fonts !! uri = Some b → fonts' !! uri = Some b) ∧
  (∀ uri b, fonts' !! uri = Some b →
     fonts !! uri = Some b ∨
     ∃ buf, readEntryBuf zip (resolvePath basePath uri) = Some buf ∧
            b = deobfuscateOdttf buf (basename uri)).


(** A page of two levels: a Canvas that holds a Path and a text run,
    followed by another text run. *)
Definition page_two_levels : node :=
  Node "FixedPage" (attributes [("Width", "960"); ("Height", "720")])
    [ Node "Canvas" (attributes [("RenderTransform", "1,0,0,1,0,0")])
        [path_short_data; glyphs_plain];
      glyphs_plain ].

(** The one-page package with that page, which names no font. *)
Definition two_levels_package : archive :=
  archive_of
    [ ("FixedDocumentSequence.fdseq", fdseq_part);
      ("Documents/1/FixedDocument.fdoc", fdoc_part);
      ("Documents/1/Pages/1.fpage",
       Part (list_byte_of_string
               "<FixedPage Width='960' Height='720'><Canvas RenderTransform='1,0,0,1,0,0'><Path Fill='#FF0000' Data='M 0,0 L 10'/><Glyphs UnicodeString='Hi' OriginX='50' OriginY='100'/></Canvas><Glyphs UnicodeString='Hi' OriginX='50' OriginY='100'/></FixedPage>")
         (Some page_two_levels)) ].

Definition bad_dictionary_package : archive :=
  archive_of
    [ ("Resources/brushes.xaml", Part (list_byte_of_string "<ResourceDictionary") None) ].

(** What [findPages] makes of a page: its base path is the directory of
    its part. *)
Definition page_ok `{Runtime} (p : page_ref) : Prop :=
  basePath p = posix_dirname (fpagePath p).

(** The elements of the tree [n], itself included, in document order. *)
Fixpoint elements (n : node) : list node :=
  match n with
  | Node _ _ cs =>
      n :: (fix each (l : list node) : list node :=
              match l with
              | [] => []
              | c :: r => (elements c ++ each r)%list
              end) cs
  end.

(** No font is found under the [FontUri] of [n]: [fonts[uri]] is
    [undefined]. *)
Definition no_font_found (fonts : gmap string (list byte)) (n : node) : bool :=
  match loaded_font n fonts with
  | None => true
  | Some _ => false
  end.

Section Scripts.
Context `{Runtime} `{Backend}.

(** The programs the renderer is made of: calls on the document, the
    read of the attribute object and the choice of a font face for an
    element among those that satisfy [Q], sequencing and
    [try]/[catch]. *)
Inductive script (Q : node → Prop) (fonts : gmap string (list byte))
    : ∀ A : Type, M A → Prop :=
| script_ret {A : Type} (a : A) : script Q fonts A (mret a)
| script_bind {A B : Type} (m : M A) (f : A → M B) :
    script Q fonts A m → (∀ a, script Q fonts B (f a)) →
    script Q fonts B (m ≫= f)
| script_call (c : call) : script Q fonts unit (call_ c)
| script_try {A : Type} (m h : M A) :
    script Q fonts A m → script Q fonts A h → script Q fonts A (try_catch m h)
| script_dollar (n : node) : Q n → script Q fonts unit (dollar n)
| script_font (n : node) :
    Q n → script Q fonts string (chooseFont (truthy (attrs n !! "FontUri")) fonts).

(** From [st] to [st'] the document has only been added to, the set
    [registeredFonts] has only grown, and each identifier that is new in
    it is that of a URI under which [fonts] holds something, which one
    of the added calls registered. *)
Definition registers (fonts : gmap string (list byte)) (st st' : rstate) : Prop :=
  ∃ added,
    doc st' = (doc st ++ added)%list ∧
    registeredFonts st ⊆ registeredFonts st' ∧
    ∀ id, id ∈ registeredFonts st' →
      id ∈ registeredFonts st ∨
      ∃ uri src, fonts_get fonts uri = Some src ∧ id = fontIdOf uri ∧
                 CRegisterFont id src ∈ added.

(** [m] neither reads nor changes [registeredFonts]. *)
Definition ignores_registry {A : Type} (m : M A) : Prop :=
  ∀ log r1 r2,
    (m (RState log r1)).1 = (m (RState log r2)).1 ∧
    doc (m (RState log r1)).2 = doc (m (RState log r2)).2 ∧
    registeredFonts (m (RState log r1)).2 = r1.

End Scripts.

(** [m] returns, whatever the state it starts from. *)
Definition returns {A : Type} (m : M A) : Prop :=
  ∀ st, ∃ a st', m st = (Ok a, st').

(** The calls that set a stroke parameter, with the names PDFKit knows
    for line caps and line joins. *)
Definition stroke_setting (c : call) : bool :=
  match c with
  | CStrokeColor _ | CLineWidth _ | CMiterLimit _ | CDash _ _ | CUndash => true
  | CLineCap s => bool_decide (s ∈ ["butt"; "round"; "square"])
  | CLineJoin s => bool_decide (s ∈ ["miter"; "round"; "bevel"])
  | _ => false
  end.

(** [m] adds at most [n] calls to the document, all of them satisfying
    [P], and exactly [n] when it returns. *)
Definition emits {A : Type} (P : call → bool) (n : nat) (m : M A) : Prop :=
  ∀ st, ∃ added,
    doc (m st).2 = (doc st ++ added)%list ∧
    Forall (λ c, P c = true) added ∧
    (length added ≤ n)%nat ∧
    (∀ a, (m st).1 = Ok a → length added = n).

(** The specification's [clamp(x, lo, hi)], with the built-ins of the
    code. *)
Definition clamp64 (x lo hi : float) : float :=
  ArcGeometry.Math_max lo (ArcGeometry.Math_min hi x).

(** The number is a zero; it is a zero or a finite number. *)
Definition sf_zero (x : SpecFloat.spec_float) : bool :=
  match x with
  | SpecFloat.S754_zero _ => true
  | _ => false
  end.

Definition sf_finite (x : SpecFloat.spec_float) : bool :=
  match x with
  | SpecFloat.S754_zero _ | SpecFloat.S754_finite _ _ _ => true
  | _ => false
  end.

(** The whole of [ws] is a run of [\s] characters. *)
Definition js_spaces (ws : string) : bool :=
  Nat.eqb (spaces_len ws) (String.length ws).


(* ================================================================== *)
(** * Theorems *)
(* ================================================================== *)

(** ** ODTTF deobfuscation *)

Lemma xorb_cancel_r (a k : bool) : xorb (xorb a k) k = a.
Proof. destruct a, k; reflexivity. Qed.

Lemma byte_xor_involutive (a k : byte) : byte_xor (byte_xor a k) k = a.
Proof.
  unfold byte_xor. rewrite Byte.to_bits_of_bits.
  rewrite <- (Byte.of_bits_to_bits a) at 2. f_equal.
  destruct (Byte.to_bits a) as (a0 & a1 & a2 & a3 & a4 & a5 & a6 & a7).
  destruct (Byte.to_bits k) as (k0 & k1 & k2 & k3 & k4 & k5 & k6 & k7).
  cbn. rewrite !xorb_cancel_r. reflexivity.
Qed.

Lemma xor_loop_length fuel : ∀ i key out,
  length (xor_loop fuel i key out) = length out.
Proof.
  induction fuel as [|fuel IH]; intros i key out; simpl; [done|].
  destruct ((i <? 32)%nat && (i <? length out)%nat); [|done].
  rewrite IH. apply length_insert.
Qed.

(** The loop entered at [i] with [fuel] iterations left rewrites exactly
    the indices [i <= j < i + fuel] below 32. *)
Lemma xor_loop_lookup key fuel : ∀ i out j,
  xor_loop fuel i key out !! j =
  (λ b, if (i <=? j)%nat && (j <? i + fuel)%nat && (j <? 32)%nat
        then byte_xor b (key !!! (j mod 16)%nat) else b) <$> out !! j.
Proof.
  induction fuel as [|fuel IH]; intros i out j;
    cbn -[Nat.leb Nat.ltb Nat.modulo Nat.add].
  - replace ((i <=? j)%nat && (j <? i + 0)%nat) with false.
    + by destruct (out !! j).
    + symmetry. apply andb_false_iff.
      destruct (Nat.leb_spec i j); [right; apply Nat.ltb_ge; lia | by left].
  - destruct (Nat.ltb_spec i 32) as [Hi32|Hi32];
      destruct (Nat.ltb_spec i (length out)) as [Hlen|Hlen];
      cbn -[Nat.leb Nat.ltb Nat.modulo Nat.add].
    + rewrite IH. destruct (decide (i = j)) as [->|Hne].
      * rewrite list_lookup_insert_eq by done.
        destruct (lookup_lt_is_Some_2 out j Hlen) as [b Hb].
        rewrite Hb, (list_lookup_total_correct _ _ _ Hb).
        cbn -[Nat.leb Nat.ltb Nat.modulo Nat.add].
        replace (S j <=? j)%nat with false
          by (symmetry; apply Nat.leb_gt; lia).
        replace (j <=? j)%nat with true by (symmetry; apply Nat.leb_le; lia).
        replace (j <? j + S fuel)%nat with true
          by (symmetry; apply Nat.ltb_lt; lia).
        replace (j <? 32)%nat with true by (symmetry; apply Nat.ltb_lt; lia).
        done.
      * rewrite list_lookup_insert_ne by done.
        replace ((S i <=? j)%nat && (j <? S i + fuel)%nat)
          with ((i <=? j)%nat && (j <? i + S fuel)%nat); [done|].
        destruct (Nat.leb_spec i j), (Nat.leb_spec (S i) j),
          (Nat.ltb_spec j (i + S fuel)), (Nat.ltb_spec j (S i + fuel));
          try done; lia.
    + destruct (out !! j) as [b|] eqn:Hb; [|done].
      apply lookup_lt_Some in Hb.
      replace (i <=? j)%nat with false; [done|].
      symmetry. apply Nat.leb_gt. lia.
    + destruct (out !! j) as [b|]; [|done].
      cbn -[Nat.leb Nat.ltb Nat.modulo Nat.add].
      destruct (Nat.leb_spec i j); [|done].
      replace (j <? 32)%nat with false
        by (symmetry; apply Nat.ltb_ge; lia).
      by rewrite andb_false_r.
    + destruct (out !! j) as [b|]; [|done].
      cbn -[Nat.leb Nat.ltb Nat.modulo Nat.add].
      destruct (Nat.leb_spec i j); [|done].
      replace (j <? 32)%nat with false
        by (symmetry; apply Nat.ltb_ge; lia).
      by rewrite andb_false_r.
Qed.

Lemma take_hex_Some n : ∀ s g rest,
  take_hex n s = Some (g, rest) → s = g ++ rest ∧ hex_group n g.
Proof.
  induction n as [|n IH]; intros s g rest; simpl.
  - intros [= <- <-]. by repeat split.
  - destruct s as [|c r]; [done|].
    destruct (is_hex c) eqn:Hc; [|done].
    destruct (take_hex n r) as [[g' rest']|] eqn:Hr; simpl; [|done].
    intros [= <- <-]. destruct (IH _ _ _ Hr) as (-> & Hlen & Hall).
    repeat split; simpl; [by rewrite Hlen | by rewrite Hc, Hall].
Qed.

Lemma take_hex_complete n : ∀ g rest,
  hex_group n g → take_hex n (g ++ rest) = Some (g, rest).
Proof.
  induction n as [|n IH]; intros g rest [Hlen Hall].
  - destruct g; [done | discriminate].
  - destruct g as [|c g]; [discriminate|]. simpl in *.
    apply andb_prop in Hall as [Hc Hall]. rewrite Hc.
    rewrite (IH g rest); [done|]. split; [lia | done].
Qed.

Lemma take_dash_Some s r : take_dash s = Some r → s = "-" ++ r.
Proof.
  destruct s as [|c s]; simpl; [done|].
  destruct (Ascii.eqb_spec c "-") as [->|]; [|done]. by intros [= ->].
Qed.

Lemma append_cons (x : ascii) (a b : string) :
  String x a ++ b = String x (a ++ b).
Proof. reflexivity. Qed.

Lemma string_app_assoc (a b c : string) : (a ++ b) ++ c = a ++ b ++ c.
Proof.
  induction a as [|x a IH]; [done|]. rewrite !append_cons. by rewrite IH.
Qed.

Lemma uuid_at_Some s m :
  uuid_at s = Some m → is_uuid m ∧ ∃ post, s = uuid_text m ++ post.
Proof.
  unfold uuid_at. intros H.
  destruct (take_hex 8 s) as [[a s1]|] eqn:H1; cbn [mbind option_bind] in H; [|done].
  destruct (take_dash s1) as [s1'|] eqn:D1; cbn [mbind option_bind] in H; [|done].
  destruct (take_hex 4 s1') as [[b s2]|] eqn:H2; cbn [mbind option_bind] in H; [|done].
  destruct (take_dash s2) as [s2'|] eqn:D2; cbn [mbind option_bind] in H; [|done].
  destruct (take_hex 4 s2') as [[c s3]|] eqn:H3; cbn [mbind option_bind] in H; [|done].
  destruct (take_dash s3) as [s3'|] eqn:D3; cbn [mbind option_bind] in H; [|done].
  destruct (take_hex 4 s3') as [[d s4]|] eqn:H4; cbn [mbind option_bind] in H; [|done].
  destruct (take_dash s4) as [s4'|] eqn:D4; cbn [mbind option_bind] in H; [|done].
  destruct (take_hex 12 s4') as [[e s5]|] eqn:H5; cbn [mbind option_bind] in H; [|done].
  injection H as <-.
  apply take_hex_Some in H1 as [-> G1], H2 as [-> G2], H3 as [-> G3],
    H4 as [-> G4], H5 as [-> G5].
  apply take_dash_Some in D1 as ->, D2 as ->, D3 as ->, D4 as ->.
  split; [exact (conj G1 (conj G2 (conj G3 (conj G4 G5))))|].
  exists s5. unfold uuid_text.
  cbn [g1 g2 g3 g4 g5]. by rewrite !string_app_assoc.
Qed.

Lemma take_dash_complete r : take_dash ("-" ++ r) = Some r.
Proof. reflexivity. Qed.

Lemma uuid_at_complete m post :
  is_uuid m → uuid_at (uuid_text m ++ post) = Some m.
Proof.
  destruct m as [a b c d e]. intros (G1 & G2 & G3 & G4 & G5).
  cbn [g1 g2 g3 g4 g5] in *.
  unfold uuid_at, uuid_text. cbn [g1 g2 g3 g4 g5].
  rewrite !string_app_assoc.
  rewrite (take_hex_complete 8 a _ G1). cbn [mbind option_bind].
  rewrite take_dash_complete. cbn [mbind option_bind].
  rewrite (take_hex_complete 4 b _ G2). cbn [mbind option_bind].
  rewrite take_dash_complete. cbn [mbind option_bind].
  rewrite (take_hex_complete 4 c _ G3). cbn [mbind option_bind].
  rewrite take_dash_complete. cbn [mbind option_bind].
  rewrite (take_hex_complete 4 d _ G4). cbn [mbind option_bind].
  rewrite take_dash_complete. cbn [mbind option_bind].
  by rewrite (take_hex_complete 12 e _ G5).
Qed.

Lemma uuid_search_Some s : ∀ m,
  uuid_search s = Some m →
  ∃ pre post, is_uuid m ∧ s = pre ++ uuid_text m ++ post ∧
    ∀ pre' m' post', is_uuid m' → s = pre' ++ uuid_text m' ++ post' →
      (String.length pre ≤ String.length pre')%nat.
Proof.
  induction s as [|c s IH]; intros m.
  - done.
  - cbn [uuid_search]. destruct (uuid_at (String c s)) as [m0|] eqn:H0.
    + intros [= ->]. apply uuid_at_Some in H0 as [Hm [post Hp]].
      exists "", post. split; [done|]. split; [done|].
      intros; cbn; lia.
    + intros Hs. destruct (IH _ Hs) as (pre & post & Hm & -> & Hleft).
      exists (String c pre), post. split; [done|]. split; [done|].
      intros pre' m' post' Hm' Heq. destruct pre' as [|c' pre'].
      * change ("" ++ uuid_text m' ++ post') with (uuid_text m' ++ post') in Heq.
        rewrite Heq, (uuid_at_complete m' post' Hm') in H0. discriminate.
      * rewrite append_cons in Heq. injection Heq as -> Heq. cbn.
        apply le_n_S. by eapply Hleft.
Qed.

Lemma uuid_search_complete s : contains_uuid s → is_Some (uuid_search s).
Proof.
  intros (pre & m & post & Hm & ->).
  induction pre as [|c pre IH].
  - change ("" ++ uuid_text m ++ post) with (uuid_text m ++ post).
    destruct (uuid_text m ++ post) eqn:E; cbn [uuid_search];
      rewrite <- ?E, (uuid_at_complete m post Hm); eauto.
  - rewrite append_cons. cbn [uuid_search]. destruct (uuid_at _); eauto.
Qed.

Lemma substring_pair (s : string) (off : nat) (hi lo : ascii) :
  String.get off s = Some hi → String.get (S off) s = Some lo →
  substring off 2 s = String hi (String lo EmptyString).
Proof.
  revert off. induction s as [|c s IH]; intros off; [done|].
  destruct off as [|off]; simpl.
  - intros [= ->]. destruct s as [|c' s]; simpl; [done|].
    intros [= ->]. by destruct s.
  - apply IH.
Qed.

Lemma get_hex (s : string) : ∀ i c,
  string_all is_hex s = true → String.get i s = Some c → is_hex c = true.
Proof.
  induction s as [|x s IH]; intros i c; simpl; [done|].
  intros [Hx Hs]%andb_prop. destruct i as [|i]; [by intros [= <-] | eauto].
Qed.

Lemma get_is_Some (s : string) : ∀ i,
  (i < String.length s)%nat → is_Some (String.get i s).
Proof.
  induction s as [|x s IH]; intros i; simpl; [lia|].
  destruct i; [eauto | intros; apply IH; lia].
Qed.

(** On a pair of hexadecimal digits [parseInt(_, 16)] is
    [16 * high + low]. *)
Lemma h_hex_pair n (s : string) (off : nat) :
  hex_group n s → (S off < n)%nat → h s off = hex_pair s off.
Proof.
  intros [Hlen Hall] Hoff. unfold h, hex_pair.
  destruct (get_is_Some s off) as [hi Hhi]; [lia|].
  destruct (get_is_Some s (S off)) as [lo Hlo]; [lia|].
  rewrite Hhi, Hlo, (substring_pair _ _ _ _ Hhi Hlo).
  unfold parseInt16. simpl.
  rewrite (get_hex _ _ _ Hall Hhi), (get_hex _ _ _ Hall Hlo). simpl.
  f_equal; lia.
Qed.

Lemma odttf_key_spec (m : uuid_groups) : is_uuid m → odttf_key m = spec_key m.
Proof.
  intros (G1 & G2 & G3 & G4 & G5). unfold odttf_key, spec_key. simpl.
  rewrite !(h_hex_pair 8 (g1 m)), !(h_hex_pair 4 (g2 m)),
    !(h_hex_pair 4 (g3 m)), !(h_hex_pair 4 (g4 m)),
    !(h_hex_pair 12 (g5 m)) by (done || lia).
  done.
Qed.

Lemma deobfuscateOdttf_lookup buffer fileName m i :
  uuid_search fileName = Some m →
  deobfuscateOdttf buffer fileName !! i =
  (λ b, if (i <? 32)%nat
        then byte_xor b (odttf_key m !!! (i mod 16)%nat) else b) <$> buffer !! i.
Proof.
  intros Hm. unfold deobfuscateOdttf. rewrite Hm, xor_loop_lookup.
  destruct (buffer !! i) as [b|]; [|done].
  cbn -[Nat.ltb Nat.modulo]. by destruct (i <? 32)%nat.
Qed.

(** C3: when the file name contains a UUID
    [xxxxxxxx-xxxx-xxxx-xxxx-xxxxxxxxxxxx] (and exactly then the pattern
    search succeeds, on its leftmost occurrence), the key is the one the
    specification's table reads from the UUID groups, byte [i] of the
    result is byte [i] of the buffer XORed with [key[i mod 16]] for
    [i < 32] and byte [i] unchanged for [i >= 32], and the length is kept;
    when the name contains no UUID the buffer is returned unchanged. *)
Theorem deobfuscateOdttf_spec (buffer : list byte) (fileName : string) :
  (contains_uuid fileName ↔ is_Some (uuid_search fileName)) ∧
  match uuid_search fileName with
  | None => deobfuscateOdttf buffer fileName = buffer
  | Some m =>
      (∃ pre post, is_uuid m ∧ fileName = pre ++ uuid_text m ++ post ∧
         ∀ pre' m' post', is_uuid m' →
           fileName = pre' ++ uuid_text m' ++ post' →
           (String.length pre ≤ String.length pre')%nat) ∧
      odttf_key m = spec_key m ∧
      length (spec_key m) = 16%nat ∧
      length (deobfuscateOdttf buffer fileName) = length buffer ∧
      ∀ i : nat,
        deobfuscateOdttf buffer fileName !! i =
        (λ b, if (i <? 32)%nat
              then byte_xor b (spec_key m !!! (i mod 16)%nat)
              else b) <$> buffer !! i
  end.
Proof.
  split.
  - split; [apply uuid_search_complete|].
    intros [m Hm]. destruct (uuid_search_Some _ _ Hm) as (pre & post & H1 & H2 & _).
    by exists pre, m, post.
  - destruct (uuid_search fileName) as [m|] eqn:Hm.
    + destruct (uuid_search_Some _ _ Hm) as (pre & post & Hu & Heq & Hleft).
      split; [by exists pre, post|].
      split; [by apply odttf_key_spec|].
      split; [done|].
      split.
      * unfold deobfuscateOdttf. rewrite Hm. apply xor_loop_length.
      * intros i. rewrite <- (odttf_key_spec m Hu).
        by apply deobfuscateOdttf_lookup.
    + unfold deobfuscateOdttf. by rewrite Hm.
Qed.

(** C7: deobfuscating twice with the same file name gives the original
    buffer back. *)
Theorem deobfuscateOdttf_involutive (buffer : list byte) (fileName : string) :
  deobfuscateOdttf (deobfuscateOdttf buffer fileName) fileName = buffer.
Proof.
  destruct (uuid_search fileName) as [m|] eqn:Hm.
  - apply list_eq. intros i.
    rewrite !(deobfuscateOdttf_lookup _ _ m i Hm).
    destruct (buffer !! i) as [b|]; [|done].
    cbn -[Nat.ltb Nat.modulo]. destruct (i <? 32)%nat; [|done].
    by rewrite byte_xor_involutive.
  - unfold deobfuscateOdttf. by rewrite Hm.
Qed.

(** ** The path-data interpreter *)

Section InterpreterInvariants.
Context {RT : Runtime}.

(** A property of the interpreter state kept by its elementary steps is
    kept by the whole interpreter. *)
Variable P : istate → Prop.
Hypothesis P_num : ∀ s, P s → P (num s).2.
Hypothesis P_emit : ∀ c s, path_op c = true → P s → P (emit c s).
Hypothesis P_set_cx : ∀ v s, P s → P (set_cx v s).
Hypothesis P_set_cy : ∀ v s, P s → P (set_cy v s).
Hypothesis P_mark_start : ∀ s, P s → P (mark_start s).

Local Ltac first_num :=
  match goal with
  | Hs : P (num ?s).2 |- context [num ?s] =>
      destruct (num s) as [? ?]; cbn [snd] in Hs
  end.

Local Ltac take_num :=
  match goal with
  | Hs : P ?s |- context [num ?s] =>
      let H := fresh "Hn" in
      pose proof (P_num s Hs) as H;
      destruct (num s) as [? ?]; cbn [snd] in H
  end.

Local Ltac keep :=
  repeat first
    [ take_num
    | apply P_emit; [reflexivity|]
    | apply P_set_cx
    | apply P_set_cy
    | apply P_mark_start
    | assumption ].

Lemma read_abs_starts : starts P read_abs.
Proof.
  intros s Hs. unfold read_abs. first_num.
  pose proof (P_set_cx v _ Hs) as Hc. take_num. keep.
Qed.

Lemma read_rel_starts : starts P read_rel.
Proof.
  intros s Hs. unfold read_rel. first_num.
  pose proof (P_set_cx (js_add (cx i) v) _ Hs) as Hc. take_num. keep.
Qed.

Lemma starts_keeps body : starts P body → keeps P body.
Proof. intros Hb s Hs. apply Hb, P_num, Hs. Qed.

Lemma emitArc_keeps x1 y1 rx ry rot la sw x2 y2 :
  keeps P (emitArc x1 y1 rx ry rot la sw x2 y2).
Proof. intros s Hs. unfold emitArc. destruct (_ || _); keep. Qed.

Lemma bodies_start :
  starts P body_L ∧ starts P body_l ∧ starts P body_H ∧ starts P body_h ∧
  starts P body_V ∧ starts P body_v ∧ starts P body_C ∧ starts P body_c ∧
  starts P body_Q ∧ starts P body_q ∧ starts P body_A ∧ starts P body_a.
Proof.
  repeat split; intros s Hs.
  - unfold body_L, line_here. apply P_emit; [done|]. by apply read_abs_starts.
  - unfold body_l, line_here. apply P_emit; [done|]. by apply read_rel_starts.
  - unfold body_H, line_here. first_num. keep.
  - unfold body_h, line_here. first_num. keep.
  - unfold body_V, line_here. first_num. keep.
  - unfold body_v, line_here. first_num. keep.
  - unfold body_C. first_num. do 3 take_num. apply P_emit; [done|].
    by apply starts_keeps; [apply read_abs_starts|].
  - unfold body_c. first_num. do 3 take_num. apply P_emit; [done|].
    by apply starts_keeps; [apply read_rel_starts|].
  - unfold body_Q. first_num. take_num. apply P_emit; [done|].
    by apply starts_keeps; [apply read_abs_starts|].
  - unfold body_q. first_num. take_num. apply P_emit; [done|].
    by apply starts_keeps; [apply read_rel_starts|].
  - unfold body_A. first_num. do 6 take_num. keep. by apply emitArc_keeps.
  - unfold body_a. first_num. do 6 take_num. keep. by apply emitArc_keeps.
Qed.

Lemma whileNum_keeps body fuel : keeps P body → keeps P (whileNum fuel body).
Proof.
  intros Hb. induction fuel as [|fuel IH]; intros s Hs; cbn [whileNum]; [done|].
  destruct (isNum s); [|done]. apply IH, Hb, Hs.
Qed.

Lemma exec_cmd_keeps cmd : keeps P (exec_cmd cmd).
Proof.
  destruct bodies_start as (HL & Hl & HH & Hh & HV & Hv & HC & Hc & HQ & Hq & HA & Ha).
  intros s Hs. unfold exec_cmd, repeat_body. destruct cmd as [|x|c]; [done..|].
  repeat (match goal with |- context [if ?b then _ else _] => destruct b end);
    try done; try (by apply whileNum_keeps; [apply starts_keeps|]).
  - apply whileNum_keeps; [by apply starts_keeps|].
    apply P_mark_start, P_emit; [done|].
    by apply starts_keeps; [apply read_abs_starts|].
  - apply whileNum_keeps; [by apply starts_keeps|].
    apply P_mark_start, P_emit; [done|].
    by apply starts_keeps; [apply read_rel_starts|].
  - keep.
Qed.

Lemma draw_loop_keeps fuel : keeps P (draw_loop fuel).
Proof.
  induction fuel as [|fuel IH]; intros s Hs; cbn [draw_loop]; [done|].
  destruct (toks s) eqn:Ht; [done|].
  pose proof (P_num s Hs) as Hn. destruct (num s) as [cmd s1]. cbn [snd] in Hn.
  by apply IH, exec_cmd_keeps.
Qed.

End InterpreterInvariants.

Section Interpreter.
Context {RT : Runtime}.

(** *** The interpreter only builds paths *)

Lemma pathCalls_path_ops (d : string) : Forall (λ c, path_op c = true) (pathCalls d).
Proof.
  unfold pathCalls, interpret, run_tokens.
  apply (draw_loop_keeps (λ s, Forall (λ c, path_op c = true) (out s))).
  - intros s Hs. unfold num. by destruct (toks s).
  - intros c s Hc Hs. cbn. apply Forall_app. split; [done|]. by constructor.
  - done.
  - done.
  - done.
  - constructor.
Qed.

(** *** The loops end because the tokens run out *)

Lemma at_most_num n s : at_most n s → at_most n (num s).2.
Proof.
  unfold at_most, num. intros Hs.
  destruct (toks s) eqn:E; cbn; [by rewrite E | cbn in Hs; lia].
Qed.

Lemma isNum_num n s : isNum s = true → at_most (S n) s → at_most n (num s).2.
Proof.
  unfold at_most, isNum, num. intros Hn Hs.
  destruct (toks s) as [|[] r] eqn:E; try done. cbn in *. lia.
Qed.

Lemma whileNum_exhausts body :
  (∀ n, starts (at_most n) body) →
  ∀ fuel s, at_most fuel s →
    isNum (whileNum fuel body s) = false ∧ at_most fuel (whileNum fuel body s).
Proof.
  intros Hb. induction fuel as [|fuel IH]; intros s Hs; cbn [whileNum].
  - split; [|done]. unfold at_most, isNum in *. destruct (toks s); [done|].
    cbn in Hs. lia.
  - destruct (isNum s) eqn:Hn; [|done].
    destruct (IH (body s)) as [H1 H2]; [by apply Hb, isNum_num|].
    split; [done|]. unfold at_most in *. lia.
Qed.

Lemma draw_loop_exhausts fuel : ∀ s,
  at_most fuel s → toks (draw_loop fuel s) = [].
Proof.
  induction fuel as [|fuel IH]; intros s Hs; cbn [draw_loop].
  - unfold at_most in Hs. destruct (toks s); [done|]. cbn in Hs. lia.
  - destruct (toks s) as [|t r] eqn:Ht; [done|].
    assert (at_most fuel (num s).2) as Hn.
    { unfold at_most, num in *. rewrite Ht in *. cbn in *. lia. }
    destruct (num s) as [cmd s1]. cbn [snd] in Hn.
    apply IH. revert Hn. apply (exec_cmd_keeps (at_most fuel)); try done.
    apply at_most_num.
Qed.

(** The fuel given by [run_tokens] is never what stops the loop. *)
Lemma run_tokens_exhausts t s : toks (run_tokens t s) = [].
Proof. apply draw_loop_exhausts. by unfold at_most. Qed.

(** Nor is the fuel given by [repeat_body]: the loop stops at a token
    that is not a number. *)
Lemma repeat_body_exhausts :
  Forall (λ body, ∀ s, isNum (repeat_body body s) = false)
    [body_L; body_l; body_H; body_h; body_V; body_v;
     body_C; body_c; body_Q; body_q; body_A; body_a].
Proof.
  assert (∀ n, starts (at_most n) body_L ∧ starts (at_most n) body_l ∧
    starts (at_most n) body_H ∧ starts (at_most n) body_h ∧
    starts (at_most n) body_V ∧ starts (at_most n) body_v ∧
    starts (at_most n) body_C ∧ starts (at_most n) body_c ∧
    starts (at_most n) body_Q ∧ starts (at_most n) body_q ∧
    starts (at_most n) body_A ∧ starts (at_most n) body_a) as Hall.
  { intros n. apply bodies_start; try done. apply at_most_num. }
  repeat constructor; intros s; unfold repeat_body;
    apply whileNum_exhausts; try (by unfold at_most); intros n;
    destruct (Hall n) as (?&?&?&?&?&?&?&?&?&?&?&?); done.
Qed.

(** *** Absolute and relative lines *)

(** C8, as amended: when the double-precision sums [a + (c - a)] and
    [b + (d - b)] give back [c] and [d], the path data [M a b L c d] and
    [M a b l (c-a) (d-b)], interpreted from the same state, make the
    same calls and leave the interpreter in the same state. *)
Theorem relative_line_equivalent (s : istate) (a b c d : float) :
  (a + (c - a))%float = c →
  (b + (d - b))%float = d →
  run_tokens [TCmd "M"; TNum a; TNum b; TCmd "l"; TNum (c - a); TNum (d - b)] s =
  run_tokens [TCmd "M"; TNum a; TNum b; TCmd "L"; TNum c; TNum d] s.
Proof.
  intros Hx Hy. unfold run_tokens. cbn.
  unfold body_l, body_L, read_rel, read_abs, line_here. cbn.
  by rewrite Hx, Hy.
Qed.

(** Without that condition the relative form draws its line to the sums
    as rounded. *)
Lemma relative_line_rounded (s : istate) (a b c d : float) :
  run_tokens [TCmd "M"; TNum a; TNum b; TCmd "l"; TNum (c - a); TNum (d - b)] s =
  run_tokens [TCmd "M"; TNum a; TNum b;
              TCmd "L"; TNum (a + (c - a)); TNum (b + (d - b))] s.
Proof. reflexivity. Qed.

End Interpreter.

Lemma relative_line_equivalent_witness :
  run_tokens [TCmd "M"; TNum 10; TNum 10; TCmd "l"; TNum (110 - 10); TNum (10 - 10)]
    start_state =
  run_tokens [TCmd "M"; TNum 10; TNum 10; TCmd "L"; TNum 110; TNum 10] start_state.
Proof.
  apply (relative_line_equivalent start_state 10 10 110 10); reflexivity.
Defined.

(** C8 fails as stated: with [a = 1e16] and [c = 1] the difference
    [c - a] rounds to [-1e16], so [M 1e16 0 l -9999999999999999 0] draws
    its line to [(0, 0)] where [M 1e16 0 L 1 0] draws it to [(1, 0)]. *)
Lemma relative_line_counterexample :
  tokenizePath "M 1e16 0 L 1 0" =
    [TCmd "M"; TNum 1e16; TNum 0; TCmd "L"; TNum 1; TNum 0] ∧
  tokenizePath "M 1e16 0 l -9999999999999999 0" =
    [TCmd "M"; TNum 1e16; TNum 0; TCmd "l"; TNum (1 - 1e16); TNum (0 - 0)] ∧
  pathCalls "M 1e16 0 L 1 0" =
    [CMoveTo (VNum 1e16) (VNum 0); CLineTo (VNum 1) (VNum 0)] ∧
  pathCalls "M 1e16 0 l -9999999999999999 0" =
    [CMoveTo (VNum 1e16) (VNum 0); CLineTo (VNum 0) (VNum 0)] ∧
  run_tokens [TCmd "M"; TNum 1e16; TNum 0;
              TCmd "l"; TNum (1 - 1e16); TNum (0 - 0)] start_state ≠
  run_tokens [TCmd "M"; TNum 1e16; TNum 0;
              TCmd "L"; TNum 1; TNum 0] start_state.
Proof.
  split; [vm_compute; reflexivity|]. split; [vm_compute; reflexivity|].
  split; [vm_compute; reflexivity|]. split; [vm_compute; reflexivity|].
  vm_compute. intros [=].
Qed.

(** ** Rendering *)

Section RenderingTheorems.
Context {RT : Runtime} {BE : Backend}.

Lemma bind_run {A B : Type} (m : M A) (f : A → M B) (st : rstate) :
  (m ≫= f) st =
  match m st with
  | (Ok a, st') => f a st'
  | (Throw e, st') => (Throw e, st')
  end.
Proof. reflexivity. Qed.

Lemma call_accepted (c : call) (st : rstate) :
  pdf_accepts c (doc st) = true →
  call_ c st = (Ok tt, RState (doc st ++ [c]) (registeredFonts st)).
Proof. intros Hc. unfold call_. by rewrite Hc. Qed.

Lemma call_rejected (c : call) (st : rstate) :
  pdf_accepts c (doc st) = false → call_ c st = (Throw (PdfError c), st).
Proof. intros Hc. unfold call_. by rewrite Hc. Qed.

(** A run of accepted calls is appended to the document. *)
Lemma replay_accepted (cs : list call) : ∀ st,
  accepted cs (doc st) = true →
  replay cs st = (Ok tt, RState (doc st ++ cs) (registeredFonts st)).
Proof.
  induction cs as [|c cs IH]; intros [log regs]; cbn [accepted replay doc].
  - intros _. by rewrite app_nil_r.
  - intros [Hc Hcs]%andb_prop. rewrite bind_run, call_accepted by done.
    cbn [doc registeredFonts]. rewrite IH by done. cbn [doc registeredFonts].
    by rewrite <- app_assoc.
Qed.


(** *** Paths *)

Lemma dollar_ok (n : node) (st : rstate) :
  attrs n ≠ ∅ → dollar n st = (Ok tt, st).
Proof. intros Ha. unfold dollar. by rewrite bool_decide_eq_false_2. Qed.

Lemma dollar_throws (n : node) (st : rstate) :
  attrs n = ∅ → dollar n st = (Throw TypeError, st).
Proof. intros Ha. unfold dollar. by rewrite bool_decide_eq_true_2. Qed.


(** *** Glyphs *)







End RenderingTheorems.





(** ** Frames and the page scale *)

Lemma track_app (a b : list call) : ∀ d,
  track d (a ++ b) = track d a ≫= λ d', track d' b.
Proof.
  induction a as [|c a IH]; intros d; [done|].
  destruct c; cbn [track app]; try apply IH; try done.
  - destruct d; [done | apply IH].
  - destruct (0 <? d)%nat; [apply IH | done].
Qed.

Lemma framed_app (a b : list call) : ∀ d d',
  track d a = Some d' → framed d (a ++ b) = framed d' b.
Proof.
  induction a as [|c a IH]; intros d d'; [by intros [= ->]|].
  destruct c; cbn [track framed app]; try apply IH; try done.
  - destruct d; [done | apply IH].
  - destruct (0 <? d)%nat; [apply IH | done].
Qed.

Lemma framed_no_addPage (l : list call) : ∀ d,
  framed d l = true → CAddPage ∉ l.
Proof.
  induction l as [|c l IH]; intros d Hf; [by apply not_elem_of_nil|].
  apply not_elem_of_cons.
  destruct c; cbn [framed] in Hf; try discriminate Hf;
    try (split; [done | exact (IH _ Hf)]).
  - split; [done|]. destruct d as [|d']; [|exact (IH _ Hf)].
    destruct l as [|c' l']; [apply not_elem_of_nil|].
    destruct c'; try discriminate Hf. destruct l'; [|discriminate Hf].
    apply not_elem_of_cons. split; [done | apply not_elem_of_nil].
  - apply andb_prop in Hf as [_ Hf]. split; [done | exact (IH _ Hf)].
Qed.

Section Frames.
Context {RT : Runtime} {BE : Backend}.

(** *** Rules for [throws_pdf], [steady] and [tracks] *)

Lemma throws_pdf_ret {A} (a : A) : throws_pdf (mret a : M A).
Proof. intros st e st'. by intros [=]. Qed.

Lemma throws_pdf_bind {A B} (m : M A) (f : A → M B) :
  throws_pdf m → (∀ a, throws_pdf (f a)) → throws_pdf (m ≫= f).
Proof.
  intros Hm Hf st e st'. rewrite bind_run.
  destruct (m st) as [[a|e0] s1] eqn:E.
  - apply Hf.
  - intros [= <- <-]. by eapply Hm.
Qed.

Lemma throws_pdf_call c : throws_pdf (call_ c).
Proof.
  intros st e st'. unfold call_. destruct (pdf_accepts c (doc st)); [done|].
  intros [= <- <-]. right. by eexists.
Qed.

Lemma steady_tracks {A} d (m : M A) : steady d m → tracks d m d.
Proof.
  intros [Ht Hs]. split; [done|]. intros st.
  destruct (Hs st) as (delta & Hd & Htr). exists delta. split; [done|].
  destruct ((m st).1); eauto.
Qed.

Lemma steady_ret {A} d (a : A) : steady d (mret a : M A).
Proof.
  split; [apply throws_pdf_ret|]. intros st. exists []. by rewrite app_nil_r.
Qed.

Lemma tracks_ret {A} d (a : A) : tracks d (mret a : M A) d.
Proof. apply steady_tracks, steady_ret. Qed.

Lemma steady_bind {A B} d (m : M A) (f : A → M B) :
  steady d m → (∀ a, steady d (f a)) → steady d (m ≫= f).
Proof.
  intros [Htm Hm] Hf. split.
  { apply throws_pdf_bind; [done|]. intros a. apply Hf. }
  intros st. rewrite bind_run. destruct (Hm st) as (d1 & Hd1 & Ht1).
  destruct (m st) as [[a|e] s1]; cbn [fst snd] in *.
  - destruct (Hf a) as [_ Hfa]. destruct (Hfa s1) as (d2 & Hd2 & Ht2).
    exists (d1 ++ d2)%list. rewrite Hd2, Hd1, <- app_assoc. split; [done|].
    by rewrite track_app, Ht1.
  - by exists d1.
Qed.

Lemma tracks_bind {A B} d d1 d2 (m : M A) (f : A → M B) :
  tracks d m d1 → (∀ a, tracks d1 (f a) d2) → tracks d (m ≫= f) d2.
Proof.
  intros [Htm Hm] Hf. split.
  { apply throws_pdf_bind; [done|]. intros a. apply Hf. }
  intros st. rewrite bind_run. destruct (Hm st) as (l1 & Hl1 & Ht1).
  destruct (m st) as [[a|e] s1]; cbn [fst snd] in *.
  - destruct (Hf a) as [_ Hfa]. destruct (Hfa s1) as (l2 & Hl2 & Ht2).
    exists (l1 ++ l2)%list. rewrite Hl2, Hl1, <- app_assoc. split; [done|].
    rewrite track_app, Ht1. cbn [mbind option_bind].
    destruct ((f a s1).1); [done|]. destruct Ht2 as [d' Hd']. by exists d'.
  - by exists l1.
Qed.

(** A call moves the depth as [track] reads it. *)
Lemma tracks_call c d d1 :
  track d [c] = Some d1 → tracks d (call_ c) d1.
Proof.
  intros Hc. split; [apply throws_pdf_call|]. intros st. unfold call_.
  destruct (pdf_accepts c (doc st)); cbn [fst snd doc].
  - by exists [c].
  - exists []. rewrite app_nil_r. eauto.
Qed.

Lemma steady_call c d :
  track d [c] = Some d → steady d (call_ c).
Proof.
  intros Hc. split; [apply throws_pdf_call|]. intros st. unfold call_.
  destruct (pdf_accepts c (doc st)); cbn [fst snd doc].
  - by exists [c].
  - exists []. by rewrite app_nil_r.
Qed.

Lemma steady_try_catch {A} d (m h : M A) :
  steady d m → steady d h → steady d (try_catch m h).
Proof.
  intros [Htm Hm] [Hth Hh]. split.
  - intros st e st'. unfold try_catch.
    destruct (m st) as [[a|e0] s1]; [done|]. apply Hth.
  - intros st. unfold try_catch. destruct (Hm st) as (l1 & Hl1 & Ht1).
    destruct (m st) as [[a|e] s1]; cbn [fst snd] in *.
    + by exists l1.
    + destruct (Hh s1) as (l2 & Hl2 & Ht2). exists (l1 ++ l2)%list.
      rewrite Hl2, Hl1, <- app_assoc. split; [done|].
      by rewrite track_app, Ht1.
Qed.

Lemma steady_try d (m : M unit) : steady d m → steady d (try_ m).
Proof. intros Hm. apply steady_try_catch; [done | apply steady_ret]. Qed.

Lemma steady_replay d (cs : list call) :
  Forall (λ c, path_op c = true) cs → steady d (replay cs).
Proof.
  induction 1 as [|c cs Hc _ IH]; cbn [replay]; [apply steady_ret|].
  apply steady_bind; [|done]. apply steady_call. by destruct c.
Qed.

Lemma steady_drawPathData d (data : string) : steady d (drawPathData data).
Proof. apply steady_replay, pathCalls_path_ops. Qed.

Lemma steady_registered d id : steady d (registered id).
Proof.
  split; [by intros st e st' [=]|]. intros st. exists []. by rewrite app_nil_r.
Qed.

Lemma steady_registeredFonts_add d id : steady d (registeredFonts_add id).
Proof.
  split; [by intros st e st' [=]|]. intros st. exists []. by rewrite app_nil_r.
Qed.

Lemma steady_dollar d n : steady d (dollar n).
Proof.
  split.
  - intros st e st'. unfold dollar. destruct (bool_decide _); [|done].
    intros [= <- <-]. by left.
  - intros st. unfold dollar. exists []. rewrite app_nil_r.
    by destruct (bool_decide _).
Qed.

(** *** The rendering functions *)

Local Ltac steady_calls :=
  repeat first
    [ apply steady_ret
    | apply steady_dollar
    | apply steady_drawPathData
    | apply steady_call; reflexivity
    | apply steady_try
    | apply steady_bind; [|intros ?] ].

Lemma steady_applyStrokeStyle d n thickness :
  steady d (applyStrokeStyle n thickness).
Proof.
  unfold applyStrokeStyle. steady_calls.
  destruct (truthy (attrs n !! "StrokeDashArray")) as [dashStr|];
    [destruct (negb _)|]; steady_calls.
Qed.

Lemma tracks_renderImageFill d data key resources stroke n thickness :
  tracks d (renderImageFill data key resources stroke n thickness) d.
Proof.
  unfold renderImageFill.
  destruct (resources !! key) as [res|]; [|apply tracks_ret].
  destruct (imageBuffer res) as [img|]; [|apply tracks_ret].
  eapply tracks_bind; [apply tracks_call; reflexivity | intros _].
  eapply tracks_bind.
  { apply steady_tracks, steady_try. steady_calls.
    destruct (truthy (transform res)); steady_calls. }
  intros _.
  eapply tracks_bind; [apply tracks_call; reflexivity | intros _].
  destruct stroke; [|apply tracks_ret].
  eapply tracks_bind; [apply tracks_call; reflexivity | intros _].
  eapply tracks_bind; [apply steady_tracks, steady_applyStrokeStyle | intros _].
  eapply tracks_bind; [apply steady_tracks; steady_calls | intros _].
  apply tracks_call; reflexivity.
Qed.

Lemma tracks_renderPath d n resources : tracks d (renderPath n resources) d.
Proof.
  unfold renderPath.
  eapply tracks_bind; [apply steady_tracks, steady_dollar | intros _].
  destruct (truthy (attrs n !! "Data")) as [data|]; [|apply tracks_ret].
  assert (∀ fill stroke,
    tracks d
      (let thickness := parseFloat (or_else (attrs n !! "StrokeThickness") "1") in
       match fill ≫= staticResource with
       | Some key => renderImageFill data key resources stroke n thickness
       | None =>
           call_ CSave;;
           match stroke with
           | Some _ => applyStrokeStyle n thickness
           | None => mret tt
           end;;
           try_ (
             drawPathData data;;
             match fill, stroke with
             | Some f, Some s => call_ (CFillAndStroke f s)
             | Some f, None => call_ (CFill f)
             | None, _ => call_ CStroke
             end);;
           call_ CRestore
       end) d) as Hdraw.
  { intros fill stroke. cbv zeta.
    destruct (fill ≫= staticResource); [apply tracks_renderImageFill|].
    eapply tracks_bind; [apply tracks_call; reflexivity | intros _].
    eapply tracks_bind.
    { apply steady_tracks. destruct stroke;
        [apply steady_applyStrokeStyle | apply steady_ret]. }
    intros _. eapply tracks_bind.
    { apply steady_tracks, steady_try. steady_calls.
      destruct fill, stroke; steady_calls. }
    intros _. apply tracks_call; reflexivity. }
  destruct (truthy (attrs n !! "Fill")) as [f|],
    (truthy (attrs n !! "Stroke")) as [s|];
    try apply tracks_ret; apply Hdraw.
Qed.

Lemma steady_chooseFont d uri fonts : steady d (chooseFont uri fonts).
Proof.
  unfold chooseFont.
  destruct (uri ≫= _) as [[u buf]|]; [|apply steady_ret].
  apply steady_bind; [apply steady_registered|]. intros known.
  destruct (negb known); [|apply steady_ret].
  apply steady_try_catch; [|apply steady_ret].
  apply steady_bind; [apply steady_call; reflexivity|]. intros _.
  apply steady_bind; [apply steady_registeredFonts_add|]. intros _.
  apply steady_ret.
Qed.

Lemma tracks_renderGlyphs d n fonts : tracks d (renderGlyphs n fonts) d.
Proof.
  unfold renderGlyphs.
  eapply tracks_bind; [apply steady_tracks, steady_dollar | intros _].
  destruct (truthy (attrs n !! "UnicodeString")) as [text|]; [|apply tracks_ret].
  cbv zeta.
  eapply tracks_bind; [apply tracks_call; reflexivity | intros _].
  eapply tracks_bind; [apply steady_tracks, steady_chooseFont | intros face].
  eapply tracks_bind; [apply steady_tracks; steady_calls | intros _].
  apply tracks_call; reflexivity.
Qed.

Lemma tracks_renderCanvas d kids n :
  tracks (S d) kids (S d) → tracks d (renderCanvas kids n) d.
Proof.
  intros Hkids. unfold renderCanvas.
  eapply tracks_bind; [apply tracks_call; reflexivity | intros _].
  eapply tracks_bind; [apply steady_tracks, steady_dollar | intros _].
  eapply tracks_bind.
  { apply steady_tracks.
    destruct (truthy (attrs n !! "RenderTransform")); steady_calls. }
  intros _. eapply tracks_bind.
  { apply steady_tracks.
    destruct (truthy (attrs n !! "Clip")); steady_calls. }
  intros _. eapply tracks_bind; [exact Hkids | intros _].
  apply tracks_call; reflexivity.
Qed.

Lemma node_induction (P : node → Prop) :
  (∀ nm a cs, Forall P cs → P (Node nm a cs)) → ∀ n, P n.
Proof.
  intros HP. fix IH 1. intros [nm a cs]. apply HP.
  induction cs as [|c cs IHcs]; constructor; [apply IH | exact IHcs].
Qed.

Lemma tracks_renderEach resources fonts (l : list node) :
  Forall (λ n, ∀ d, tracks d (renderElement resources fonts n) d) l →
  ∀ d, tracks d (renderEach resources fonts l) d.
Proof.
  induction 1 as [|c l Hc _ IH]; intros d; cbn [renderEach];
    [apply tracks_ret|].
  eapply tracks_bind; [apply Hc | intros _; apply IH].
Qed.

Lemma renderElement_unfold resources fonts (n : node) :
  renderElement resources fonts n =
  if String.eqb (name n) "Canvas"
  then renderCanvas (renderChildren n resources fonts) n
  else if String.eqb (name n) "Path" then renderPath n resources
  else if String.eqb (name n) "Glyphs" then renderGlyphs n fonts
  else if String.eqb (name n) "Canvas.Resources"
          || String.eqb (name n) "ResourceDictionary" then mret tt
  else renderChildren n resources fonts.
Proof.
  destruct n as [nm a cs]. unfold renderChildren. cbn [renderElement name getChildren].
  assert ((fix each (l : list node) : M unit :=
             match l with
             | [] => mret tt
             | c :: r => renderElement resources fonts c;; each r
             end) cs = renderEach resources fonts cs) as ->; [|done].
  induction cs as [|c cs IH]; cbn [renderEach]; [done | by rewrite IH].
Qed.

Lemma tracks_renderElement resources fonts (n : node) :
  ∀ d, tracks d (renderElement resources fonts n) d.
Proof.
  induction n as [nm a cs IH] using node_induction. intros d.
  rewrite renderElement_unfold. cbn [name].
  pose proof (tracks_renderEach resources fonts cs IH) as Hkids.
  destruct (String.eqb nm "Canvas").
  { apply tracks_renderCanvas, Hkids. }
  destruct (String.eqb nm "Path"); [apply tracks_renderPath|].
  destruct (String.eqb nm "Glyphs"); [apply tracks_renderGlyphs|].
  destruct (_ || _); [apply tracks_ret | apply Hkids].
Qed.

Lemma tracks_renderChildren n resources fonts d :
  tracks d (renderChildren n resources fonts) d.
Proof.
  apply tracks_renderEach, Forall_forall. intros c _.
  apply tracks_renderElement.
Qed.

End Frames.

(** ** The conversion *)

Section ConversionTheorems.
Context {RT : Runtime} {BE : Backend}.

Lemma track_framed d l d' : track d l = Some d' → framed d l = true.
Proof.
  intros Ht. rewrite <- (app_nil_r l). by rewrite (framed_app l [] d d').
Qed.

(** The document [drawPage] leaves behind, whether it returns or
    throws, when PDFKit accepts the opening [save] and the scale. *)
Lemma drawPage_scaled_once fixedPage resources fonts registered0 r st :
  pdf_accepts CSave [] = true →
  pdf_accepts page_scale [CSave] = true →
  drawPage fixedPage resources fonts (RState [] registered0) = (r, st) →
  scaled_once (doc st).
Proof.
  intros Hsave Hscale. unfold drawPage, scaled_once. rewrite bind_run.
  rewrite call_accepted by done. cbn [doc registeredFonts app].
  rewrite bind_run. fold page_scale.
  rewrite call_accepted by done. cbn [doc registeredFonts app].
  set (st1 := RState [CSave; page_scale] registered0).
  destruct (tracks_renderChildren fixedPage resources fonts 0) as [_ Hk].
  destruct (Hk st1) as (delta & Hdoc & Htrack).
  rewrite bind_run.
  destruct (renderChildren fixedPage resources fonts st1) as [[[]|e] st2];
    cbn [fst snd] in *.
  - rewrite bind_run.
    destruct (pdf_accepts CRestore (doc st2)) eqn:Hrestore.
    2:{ rewrite call_rejected by done. intros [= <- <-].
        exists delta. rewrite Hdoc. split; [done | by eapply track_framed]. }
    rewrite call_accepted by done. cbn [doc registeredFonts].
    destruct (pdf_accepts CEnd (doc st2 ++ [CRestore])) eqn:Hend.
    + rewrite call_accepted by done. cbn [doc registeredFonts].
      intros [= <- <-]. cbn [doc].
      exists (delta ++ [CRestore; CEnd])%list. rewrite Hdoc.
      split; [by rewrite <- !app_assoc | by rewrite (framed_app _ _ 0 0)].
    + rewrite call_rejected by done.
      intros [= <- <-]. cbn [doc].
      exists (delta ++ [CRestore])%list. rewrite Hdoc.
      split; [by rewrite <- !app_assoc | by rewrite (framed_app _ _ 0 0)].
  - destruct Htrack as [d' Hd']. intros [= <- <-].
    exists delta. rewrite Hdoc. split; [done | by eapply track_framed].
Qed.

(** C2: whenever a conversion gets as far as creating the PDF, the page
    has the size [(Width * 72/96, Height * 72/96)] of the first fixed
    page and no page is ever added; and, PDFKit accepting the opening
    [save] and the scale, the document opens its outermost frame,
    applies the scale 72/96 there before anything else, and applies
    every other transform inside an inner frame. *)
Theorem page_scaled_once (zip : archive) (registered0 : gset string)
    (p : pdf) :
  pdf_accepts CSave [] = true →
  pdf_accepts page_scale [CSave] = true →
  written (convertDwfxToPdf zip registered0).1 = Some p →
  ∃ fixedPage resources fonts,
    loadFirstPage zip = Ok (fixedPage, resources, fonts) ∧
    size p =
      ((parseFloat_attr (attrs fixedPage !! "Width") * (72 / 96))%float,
       (parseFloat_attr (attrs fixedPage !! "Height") * (72 / 96))%float) ∧
    XPS_TO_PDF = (72 / 96)%float ∧
    scaled_once (content p) ∧
    CAddPage ∉ content p.
Proof.
  intros Hsave Hscale. unfold convertDwfxToPdf.
  destruct (loadFirstPage zip) as [[[fixedPage resources] fonts]|e] eqn:Hload;
    [|done].
  destruct (drawPage fixedPage resources fonts _) as [r st] eqn:Hrun.
  apply drawPage_scaled_once in Hrun as Hs; [|done..]. cbn [fst snd] in *.
  intros [= <-]. exists fixedPage, resources, fonts. cbn [size content].
  repeat split; [done|].
  destruct Hs as (rest & -> & Hf).
  apply not_elem_of_cons. split; [done|].
  apply not_elem_of_cons. split; [done | by eapply framed_no_addPage].
Qed.

(** *** Save and restore *)

Lemma depth_app (a b : list call) : depth (a ++ b) = (depth a + depth b)%Z.
Proof.
  induction a as [|c a IH]; [done|].
  destruct c; cbn [depth app]; rewrite ?IH; lia.
Qed.

Lemma track_depth (l : list call) : ∀ d d',
  track d l = Some d' → depth l = (Z.of_nat d' - Z.of_nat d)%Z.
Proof.
  induction l as [|c l IH]; intros d d'; [intros [= ->]; cbn; lia|].
  destruct c; cbn [track depth]; try (by apply IH); try done.
  - intros Ht. rewrite (IH _ _ Ht). lia.
  - destruct d as [|d0]; [done|]. intros Ht. rewrite (IH _ _ Ht). lia.
  - destruct (0 <? d)%nat; [apply IH | done].
Qed.

(** When an element is rendered without an exception reaching its
    caller, every save has been matched by a restore. *)
Lemma renderElement_balanced_on_return resources fonts n st st' :
  renderElement resources fonts n st = (Ok tt, st') →
  depth (doc st') = depth (doc st).
Proof.
  intros Hrun. destruct (tracks_renderElement resources fonts n 0) as [_ Ht].
  destruct (Ht st) as (delta & Hdoc & Htrack). rewrite Hrun in *.
  cbn [fst snd] in *. rewrite Hdoc, depth_app, (track_depth _ _ _ Htrack). lia.
Qed.

(** *** Navigation and its errors *)

Lemma pageContents_errors (l : list node) : ∀ pages e,
  pageContents l pages = Throw e → e = TypeError.
Proof.
  induction l as [|pc l IH]; intros pages e; cbn [pageContents]; [done|].
  destruct (negb _); [apply IH|].
  destruct (attrs pc !! "Source"); [apply IH | by intros [= <-]].
Qed.

Lemma parseXml_errors t e : parseXml t = Throw e → e = XmlError.
Proof. unfold parseXml. destruct (xml t); [done | by intros [= <-]]. Qed.

Lemma documentReferences_errors zip (l : list node) : ∀ pages e,
  documentReferences zip l pages = Throw e → e = TypeError ∨ e = XmlError.
Proof.
  induction l as [|child l IH]; intros pages e; cbn [documentReferences]; [done|].
  destruct (negb _); [apply IH|].
  destruct (attrs child !! "Source") as [source|]; [|by intros [= <-]; left].
  destruct (readable _) as [docXml|]; [|apply IH].
  destruct (parseXml docXml) as [docRoot|e1] eqn:Hx; cbn [mbind result_bind].
  - destruct (pageContents _ pages) as [pages'|e2] eqn:Hp; cbn [mbind result_bind].
    + apply IH.
    + intros [= <-]. left. by eapply pageContents_errors.
  - intros [= <-]. right. by eapply parseXml_errors.
Qed.

Lemma findPages_errors zip e :
  findPages zip = Throw e →
  e = NoFixedDocumentSequence ∧
    readable (readEntry zip "FixedDocumentSequence.fdseq") = None
  ∨ (e = TypeError ∨ e = XmlError) ∧
    is_Some (readable (readEntry zip "FixedDocumentSequence.fdseq")).
Proof.
  unfold findPages.
  destruct (readable _) as [fdseqXml|]; [|by intros [= <-]; left].
  intros Hf. right. split; [|by eexists].
  destruct (parseXml fdseqXml) as [root|e1] eqn:Hx; cbn [mbind result_bind] in Hf.
  - by eapply documentReferences_errors.
  - injection Hf as <-. right. by eapply parseXml_errors.
Qed.

Lemma loadBrush_errors (n : node) zip basePath resources e :
  loadBrush n basePath zip resources = Throw e → e = TypeError.
Proof.
  unfold loadBrush. destruct (negb _); [done|].
  destruct (bool_decide _); [by intros [= <-]|].
  by repeat case_match.
Qed.

Lemma loadBrushes_errors (l : list node) zip basePath : ∀ resources e,
  loadBrushes l basePath zip resources = Throw e → e = TypeError.
Proof.
  induction l as [|res l IH]; intros resources e; cbn [loadBrushes]; [done|].
  destruct (loadBrush res basePath zip resources) as [r1|e1] eqn:Hb;
    cbn [mbind result_bind]; [apply IH|].
  intros [= <-]. by eapply loadBrush_errors.
Qed.

Lemma parseResourceDict_errors t zip basePath resources e :
  parseResourceDict t basePath zip resources = Throw e →
  e = XmlError ∨ e = TypeError.
Proof.
  unfold parseResourceDict.
  destruct (parseXml t) as [root|e1] eqn:Hx; cbn [mbind result_bind].
  - intros Hb. right. by eapply loadBrushes_errors.
  - intros [= <-]. left. by eapply parseXml_errors.
Qed.

Lemma resourceDictionaries_errors (l : list node) zip basePath : ∀ resources e,
  resourceDictionaries l zip basePath resources = Throw e →
  e = XmlError ∨ e = TypeError.
Proof.
  induction l as [|rd l IH]; intros resources e;
    cbn [resourceDictionaries]; [done|].
  destruct (negb _); [apply IH|].
  destruct (bool_decide _); [by intros [= <-]; right|].
  assert (∀ r1, (loadBrushes (getChildren rd) basePath zip r1
                   ≫= resourceDictionaries l zip basePath) = Throw e →
                e = XmlError ∨ e = TypeError) as Hrest.
  { intros r1.
    destruct (loadBrushes _ basePath zip r1) as [r2|e2] eqn:Hb;
      cbn [mbind result_bind]; [apply IH|].
    intros [= <-]. right. by eapply loadBrushes_errors. }
  destruct (truthy (attrs rd !! "Source")) as [src|]; cbn [mbind result_bind];
    [|apply Hrest].
  destruct (readable _) as [rdXml|]; cbn [mbind result_bind]; [|apply Hrest].
  destruct (parseResourceDict rdXml basePath zip resources) as [r1|e1] eqn:Hp;
    cbn [mbind result_bind]; [apply Hrest|].
  intros [= <-]. by eapply parseResourceDict_errors.
Qed.

Lemma collectResources_errors (n : node) zip basePath : ∀ resources e,
  collectResources n zip basePath resources = Throw e →
  e = XmlError ∨ e = TypeError.
Proof.
  induction n as [nm a cs IH] using node_induction. cbn [collectResources].
  induction IH as [|child cs Hchild _ IHcs]; intros resources e; [done|].
  destruct (String.eqb (name child) "Canvas.Resources");
    cbn [mbind result_bind].
  - destruct (resourceDictionaries _ zip basePath resources) as [r1|e1] eqn:Hr;
      cbn [mbind result_bind].
    + destruct (collectResources child zip basePath r1) as [r2|e2] eqn:Hc;
        cbn [mbind result_bind]; [apply IHcs|].
      intros [= <-]. by eapply Hchild.
    + intros [= <-]. by eapply resourceDictionaries_errors.
  - destruct (collectResources child zip basePath resources) as [r2|e2] eqn:Hc;
      cbn [mbind result_bind]; [apply IHcs|].
    intros [= <-]. by eapply Hchild.
Qed.

Lemma collectFontRefs_errors (n : node) zip basePath : ∀ fonts e,
  (collectFontRefs n zip basePath fonts).1 = Throw e → e = TypeError.
Proof.
  induction n as [nm a cs IH] using node_induction. cbn [collectFontRefs].
  induction IH as [|child cs Hchild _ IHcs]; intros fonts e; [done|].
  destruct (_ && _); [by intros [= <-]|].
  match goal with
  | |- context [collectFontRefs child zip basePath ?f] =>
      specialize (Hchild f);
      destruct (collectFontRefs child zip basePath f) as [[[]|e2] fonts2]
  end; [apply IHcs|].
  cbn [fst] in *. intros [= <-]. by apply Hchild.
Qed.

Lemma loadFirstPage_NoPages zip e :
  loadFirstPage zip = Throw e → kind_of e = NoPages → findPages zip = Ok [].
Proof.
  unfold loadFirstPage.
  destruct (findPages zip) as [pages|e1] eqn:Hf; cbn [mbind result_bind].
  - destruct pages as [|page pages]; [done|].
    destruct (readable _) as [fpageXml|]; [|by intros [= <-]].
    destruct (parseXml fpageXml) as [fixedPage|e2] eqn:Hx;
      cbn [mbind result_bind].
    + destruct (bool_decide _); [by intros [= <-]|].
      destruct (collectResources _ _ _ _) as [resources|e3] eqn:Hc;
        cbn [mbind result_bind].
      * destruct (collectFontRefs _ _ _ _) as [[[]|e4] fonts] eqn:Hfonts;
          [done|].
        intros [= <-].
        by rewrite (collectFontRefs_errors _ _ _ _ e4 (f_equal fst Hfonts)).
      * intros [= <-].
        by destruct (collectResources_errors _ _ _ _ _ Hc) as [-> | ->].
    + intros [= <-]. by rewrite (parseXml_errors _ _ Hx).
  - intros [= <-].
    destruct (findPages_errors _ _ Hf) as [[-> _]|[[-> | ->] _]]; done.
Qed.

Lemma throws_pdf_drawPage fixedPage resources fonts :
  throws_pdf (drawPage fixedPage resources fonts).
Proof.
  unfold drawPage.
  repeat (apply throws_pdf_bind; [|intros _]); try apply throws_pdf_call.
  apply tracks_renderChildren with (d := 0%nat).
Qed.

(** C6: [findPages] fails with PackageInvalid exactly when
    [FixedDocumentSequence.fdseq] cannot be read (it is missing or
    empty); a DocumentReference whose [Source] part cannot be read is
    passed over without failing; and the conversion fails with NoPages
    exactly when [findPages] returns no page reference. *)
Theorem navigation_errors (zip : archive) (registered0 : gset string) :
  ((∃ e, findPages zip = Throw e ∧ kind_of e = PackageInvalid) ↔
   readable (readEntry zip "FixedDocumentSequence.fdseq") = None) ∧
  (∀ child rest pages source,
     name child = "DocumentReference" →
     attrs child !! "Source" = Some source →
     readable (readEntry zip (strip_prefix "/" source)) = None →
     documentReferences zip (child :: rest) pages =
     documentReferences zip rest pages) ∧
  ((∃ e, returned (convertDwfxToPdf zip registered0).1 = Throw e ∧
         kind_of e = NoPages) ↔
   findPages zip = Ok []).
Proof.
  split; [|split].
  - split.
    + intros (e & Hf & Hk).
      destruct (findPages_errors _ _ Hf) as [[_ Hr]|[[-> | ->] _]]; done.
    + intros Hr. exists NoFixedDocumentSequence. unfold findPages.
      by rewrite Hr.
  - intros child rest pages source Hname Hsrc Hr.
    cbn [documentReferences]. by rewrite Hname, Hsrc, Hr.
  - split.
    + intros (e & Hret & Hk). unfold convertDwfxToPdf in Hret.
      destruct (loadFirstPage zip) as [[[fixedPage resources] fonts]|e1] eqn:Hl.
      * pose proof (throws_pdf_drawPage fixedPage resources fonts) as Hpdf.
        destruct (drawPage fixedPage resources fonts _) as [r st] eqn:Hd.
        cbn [fst returned] in Hret. subst r.
        by destruct (Hpdf _ _ _ Hd) as [-> | [c ->]].
      * cbn [fst returned] in Hret. injection Hret as ->.
        by eapply loadFirstPage_NoPages.
    + intros Hf. exists NoPagesFound. unfold convertDwfxToPdf, loadFirstPage.
      by rewrite Hf.
Qed.

End ConversionTheorems.

Lemma page_scaled_once_witness :
  ∃ fixedPage resources fonts,
    loadFirstPage one_page_package = Ok (fixedPage, resources, fonts) ∧
    size one_page_pdf =
      ((parseFloat_attr (attrs fixedPage !! "Width") * (72 / 96))%float,
       (parseFloat_attr (attrs fixedPage !! "Height") * (72 / 96))%float) ∧
    XPS_TO_PDF = (72 / 96)%float ∧
    scaled_once (content one_page_pdf) ∧
    CAddPage ∉ content one_page_pdf.
Proof.
  apply (page_scaled_once one_page_package ∅ one_page_pdf);
    vm_compute; reflexivity.
Defined.

(** *** Canvas *)

(** C1 fails on the code: [renderCanvas] restores only when nothing
    throws.  A [RenderTransform] of five numbers makes [doc.transform]
    throw on its sixth operand, and a [Clip] whose line has one
    coordinate makes [doc.lineTo] throw; either way [renderCanvas] is
    left after its [save] and before its [restore], one frame deeper
    than it was entered, and the conversion of a page that holds such a
    Canvas ends with two frames open.  The same path data on a Path is
    caught by [renderPath], which restores. *)
Theorem renderCanvas_skips_restore_on_throw :
  renderElement ∅ ∅ canvas_short_matrix (RState [] ∅) =
    (Throw (PdfError (CTransform (VNum 1) (VNum 0) (VNum 0) (VNum 1) (VNum 0) VUndef)),
     RState [CSave] ∅) ∧
  renderElement ∅ ∅ canvas_short_clip (RState [] ∅) =
    (Throw (PdfError (CLineTo (VNum 10) VUndef)),
     RState [CSave; CMoveTo (VNum 0) (VNum 0)] ∅) ∧
  depth [CSave] = 1%Z ∧
  depth [CSave; CMoveTo (VNum 0) (VNum 0)] = 1%Z ∧
  (convertDwfxToPdf short_matrix_package ∅).1 =
    Outcome
      (Throw (PdfError (CTransform (VNum 1) (VNum 0) (VNum 0) (VNum 1) (VNum 0) VUndef)))
      (Some (Pdf (720, 540)%float
               [CSave;
                CTransform (VNum 0.75) (VNum 0) (VNum 0) (VNum 0.75) (VNum 0) (VNum 0);
                CSave])) ∧
  renderElement ∅ ∅ path_short_data (RState [] ∅) =
    (Ok tt, RState [CSave; CMoveTo (VNum 0) (VNum 0); CRestore] ∅) ∧
  depth [CSave; CMoveTo (VNum 0) (VNum 0); CRestore] = 0%Z.
Proof. repeat split; vm_compute; reflexivity. Qed.

(** *** The registered-fonts set *)

(** C4 fails on the code: [registeredFonts] is a module-level set that
    outlives a conversion.  Converting the same one-page package twice
    in one process draws its text run the first time and loses it the
    second time: the font identifier is then found in the set, the font
    is not registered on the new document, [doc.font] throws and the
    run is skipped. *)
Theorem registeredFonts_outlives_conversion :
  convertDwfxToPdf one_page_package ∅ =
    (Outcome (Ok tt) (Some one_page_pdf), {[one_page_font_id]}) ∧
  convertDwfxToPdf one_page_package {[one_page_font_id]} =
    (Outcome (Ok tt) (Some one_page_pdf_without_text), {[one_page_font_id]}) ∧
  one_page_pdf ≠ one_page_pdf_without_text.
Proof.
  split; [vm_compute; reflexivity|].
  split; [vm_compute; reflexivity|].
  intros [=].
Qed.

(** * Further properties of the code *)

(** ** The tokenizer and the interpreter *)

Section InterpreterProperties.
Context {RT : Runtime}.

Lemma tokenize_from_spec (s : string) : ∀ skip,
  Forall well_formed_token (tokenize_from skip s) ∧
  (length (tokenize_from skip s) ≤ String.length s)%nat.
Proof.
  induction s as [|c r IH]; intros skip; cbn [tokenize_from String.length length].
  - split; [constructor | lia].
  - destruct skip as [|k].
    + destruct (is_cmd c) eqn:Hc.
      * destruct (IH 0%nat) as [H1 H2]. split; [by constructor | cbn; lia].
      * destruct (number_len (String c r)) as [|k].
        -- destruct (IH 0%nat) as [H1 H2]. split; [done | lia].
        -- destruct (IH k) as [H1 H2]. split; [by constructor | cbn; lia].
    + destruct (IH k) as [H1 H2]. split; [done | lia].
Qed.

(** X1: every command token [tokenizePath] returns is an ASCII letter
    other than [e] and [E], and a path string never gives more tokens
    than it has characters. *)
Theorem tokenizePath_tokens (d : string) :
  Forall well_formed_token (tokenizePath d) ∧
  (length (tokenizePath d) ≤ String.length d)%nat ∧
  (TCmd "e" ∉ tokenizePath d) ∧ (TCmd "E" ∉ tokenizePath d).
Proof.
  destruct (tokenize_from_spec d 0) as [Hwf Hlen].
  split; [done|]. split; [done|].
  split; intros Hin; eapply Forall_forall in Hin; eauto; discriminate Hin.
Qed.

Lemma replay_appends (cs : list call) {BE : Backend} : ∀ st,
  ∃ done_, (replay cs st).2 =
    RState (doc st ++ done_) (registeredFonts st) ∧ done_ `prefix_of` cs.
Proof.
  induction cs as [|c cs IH]; intros st; cbn [replay].
  - exists []. destruct st. by rewrite app_nil_r.
  - rewrite bind_run. unfold call_ at 1.
    destruct (pdf_accepts c (doc st)).
    + destruct (IH (RState (doc st ++ [c]) (registeredFonts st)))
        as (rest & Hrest & Hpre).
      exists (c :: rest). rewrite Hrest. cbn [doc registeredFonts].
      rewrite <- app_assoc. split; [done | by apply prefix_cons].
    + exists []. destruct st. rewrite app_nil_r. split; [done|].
      apply prefix_nil.
Qed.

(** X2: [drawPathData] only builds a path: whatever the path string and
    whether or not it throws, the calls it adds to the document are
    [moveTo], [lineTo], curve and [closePath] calls, never a save,
    restore, transform, clip or paint, and [registeredFonts] is left
    alone. *)
Theorem drawPathData_only_builds_paths {BE : Backend} (d : string)
    (st : rstate) :
  ∃ added,
    (drawPathData d st).2 = RState (doc st ++ added) (registeredFonts st) ∧
    Forall (λ c, path_op c = true) added.
Proof.
  destruct (replay_appends (pathCalls d) st) as (added & Hst & Hpre).
  exists added. split; [done|].
  destruct Hpre as [rest Hrest]. pose proof (pathCalls_path_ops d) as Hall.
  rewrite Hrest in Hall. by apply Forall_app in Hall as [Hall _].
Qed.

(** *** Implicit repetition after [M] *)

Lemma draw_loop_done fuel s : toks s = [] → draw_loop fuel s = s.
Proof. intros Ht. destruct fuel; cbn [draw_loop]; [done | by rewrite Ht]. Qed.

Lemma body_L_point x y r c1 c2 s1 s2 o :
  body_L (IState (TNum x :: TNum y :: r) c1 c2 s1 s2 o) =
  IState r (VNum x) (VNum y) s1 s2 (o ++ [CLineTo (VNum x) (VNum y)]).
Proof. reflexivity. Qed.

Lemma whileNum_points (pts : list (float * float)) : ∀ fuel c1 c2 s1 s2 o,
  (length pts ≤ fuel)%nat →
  whileNum fuel body_L (IState (operands pts) c1 c2 s1 s2 o) =
  IState []
    (default c1 ((λ p, VNum p.1) <$> last pts))
    (default c2 ((λ p, VNum p.2) <$> last pts))
    s1 s2 (o ++ (lineTo_point <$> pts)).
Proof.
  induction pts as [|[x y] pts IH]; intros fuel c1 c2 s1 s2 o Hfuel.
  - destruct fuel; cbn; by rewrite app_nil_r.
  - destruct fuel as [|fuel]; [cbn in Hfuel; lia|].
    cbn [operands whileNum isNum toks]. rewrite body_L_point.
    rewrite IH by (cbn in Hfuel; lia). cbn [fmap list_fmap].
    rewrite <- app_assoc. cbn [app]. f_equal.
    + rewrite last_cons. by destruct (last pts).
    + rewrite last_cons. by destruct (last pts).
Qed.

Lemma operands_length pts : length (operands pts) = (2 * length pts)%nat.
Proof. induction pts as [|[x y] pts IH]; cbn [operands length]; lia. Qed.

Lemma draw_loop_step fuel t r c1 c2 s1 s2 o :
  draw_loop (S fuel) (IState (t :: r) c1 c2 s1 s2 o) =
  draw_loop fuel (exec_cmd (token_value t) (IState r c1 c2 s1 s2 o)).
Proof. reflexivity. Qed.

Lemma exec_M_points x y pts c1 c2 s1 s2 o :
  exec_cmd (VStr "M") (IState (TNum x :: TNum y :: operands pts) c1 c2 s1 s2 o) =
  IState []
    (VNum (default (x, y) (last pts)).1) (VNum (default (x, y) (last pts)).2)
    (VNum x) (VNum y)
    (o ++ CMoveTo (VNum x) (VNum y) :: (lineTo_point <$> pts)).
Proof.
  unfold exec_cmd. cbn [String.eqb Ascii.eqb Bool.eqb].
  unfold read_abs, mark_start, repeat_body.
  cbn [num toks token_value set_cx set_cy emit cx cy sx sy out].
  rewrite whileNum_points by (rewrite operands_length; lia).
  rewrite <- app_assoc. cbn [app]. by destruct (last pts) as [[]|].
Qed.

(** X3: after [M x y], every further pair of numbers is an implicit
    [lineTo]: the path data [M x y x1 y1 ... xn yn] makes one [moveTo]
    and [n] [lineTo] calls in order, reads every token, and ends with
    the current point on the last pair and the subpath start on
    [(x, y)]. *)
Theorem moveTo_then_points (s : istate) (x y : float)
    (pts : list (float * float)) :
  run_tokens (TCmd "M" :: TNum x :: TNum y :: operands pts) s =
  IState []
    (VNum (default (x, y) (last pts)).1) (VNum (default (x, y) (last pts)).2)
    (VNum x) (VNum y)
    (out s ++ CMoveTo (VNum x) (VNum y) :: (lineTo_point <$> pts)).
Proof.
  unfold run_tokens. cbn [length]. rewrite draw_loop_step.
  cbn [token_value]. rewrite exec_M_points. by apply draw_loop_done.
Qed.

(** *** The fuel of the loops *)

Lemma draw_loop_more fuel : ∀ s fuel',
  at_most fuel s → (fuel ≤ fuel')%nat → draw_loop fuel' s = draw_loop fuel s.
Proof.
  induction fuel as [|fuel IH]; intros s fuel' Hs Hle.
  - unfold at_most in Hs. rewrite !draw_loop_done; [done| |];
      destruct (toks s); cbn in Hs; (done || lia).
  - destruct (toks s) as [|t r] eqn:Ht; [by rewrite !draw_loop_done|].
    destruct fuel' as [|fuel']; [lia|]. cbn [draw_loop]. rewrite Ht.
    assert (at_most fuel (num s).2) as Hn.
    { unfold at_most, num in *. rewrite Ht in *. cbn in *. lia. }
    destruct (num s) as [cmd s1]. cbn [snd] in Hn.
    apply IH; [|lia]. revert Hn.
    apply (exec_cmd_keeps (at_most fuel)); try done. apply at_most_num.
Qed.

(** X4: the loop of [drawPathData] comes to an end on every token
    array, with every token read: each turn takes at least one token,
    so going on for more turns than there are tokens changes nothing. *)
Theorem draw_loop_terminates (t : list token) (s : istate) (turns : nat)
    (Hturns : (length t ≤ turns)%nat) :
  draw_loop turns (IState t (cx s) (cy s) (sx s) (sy s) (out s)) =
    run_tokens t s ∧
  toks (run_tokens t s) = [].
Proof.
  split; [|apply run_tokens_exhausts].
  unfold run_tokens. apply draw_loop_more; [by unfold at_most | done].
Qed.

End InterpreterProperties.

Lemma draw_loop_terminates_witness :
  (length [TCmd "M"; TNum 0; TNum 0; TCmd "L"; TNum 10; TNum 0; TCmd "Z"] ≤ 100)%nat ∧
  draw_loop 100
    (IState [TCmd "M"; TNum 0; TNum 0; TCmd "L"; TNum 10; TNum 0; TCmd "Z"]
       (VNum 0) (VNum 0) (VNum 0) (VNum 0) []) =
    run_tokens [TCmd "M"; TNum 0; TNum 0; TCmd "L"; TNum 10; TNum 0; TCmd "Z"]
      start_state ∧
  toks (run_tokens [TCmd "M"; TNum 0; TNum 0; TCmd "L"; TNum 10; TNum 0; TCmd "Z"]
          start_state) = [].
Proof.
  split; [cbn; lia|].
  apply (draw_loop_terminates _ start_state 100). cbn; lia.
Defined.

(** ** [vecAngle] in binary64 *)

Section Binary64Clamp.
Import ArcGeometry.
Local Open Scope float_scope.

Lemma SFcompare_swap a b :
  SpecFloat.SFcompare b a = option_map CompOpp (SpecFloat.SFcompare a b).
Proof.
  destruct a as [s1| s1| |s1 m1 e1], b as [s2|s2| |s2 m2 e2];
    try destruct s1; try destruct s2; try reflexivity; cbn;
    rewrite (Z.compare_antisym e2 e1);
    destruct (e2 ?= e1)%Z; cbn; try reflexivity;
    pose proof (Pos.compare_cont_antisym m2 m1 Eq) as Hp; cbn in Hp;
    rewrite <- Hp; by destruct (Pos.compare_cont Eq m2 m1).
Qed.

Lemma ltb_cmp a b : (a <? b) = true ↔ cmp a b = Some Lt.
Proof.
  rewrite FloatAxioms.ltb_spec. unfold SpecFloat.SFltb, cmp.
  destruct (SpecFloat.SFcompare _ _) as [[]|]; split; congruence.
Qed.

Lemma leb_cmp a b : (a <=? b) = true ↔ cmp a b = Some Lt ∨ cmp a b = Some Eq.
Proof.
  rewrite FloatAxioms.leb_spec. unfold SpecFloat.SFleb, cmp.
  destruct (SpecFloat.SFcompare _ _) as [[]|]; split; (congruence || tauto || idtac).
  all: intros [|]; congruence.
Qed.

Lemma cmp_None a b : cmp a b = None → is_nan a = true ∨ is_nan b = true.
Proof.
  unfold cmp, is_nan. rewrite !FloatAxioms.eqb_spec. unfold SpecFloat.SFeqb.
  destruct (Prim2SF a) as [| | |[] ? ?], (Prim2SF b) as [| | |[] ? ?]; cbn;
    try discriminate; auto.
Qed.

Lemma between_cmp a b :
  is_nan a = false → is_nan b = false →
  (a <? b) = false → (b <? a) = false → cmp a b = Some Eq.
Proof.
  intros Ha Hb Hab Hba.
  destruct (cmp a b) as [[]|] eqn:Hc; [done| | |].
  - apply ltb_cmp in Hc. congruence.
  - assert (cmp b a = Some Lt) as Hc'.
    { unfold cmp in *. rewrite SFcompare_swap, Hc. done. }
    apply ltb_cmp in Hc'. congruence.
  - apply cmp_None in Hc as [|]; congruence.
Qed.

Lemma leb_not_nan a b : (a <=? b) = true → is_nan a = false.
Proof.
  rewrite FloatAxioms.leb_spec. unfold is_nan.
  rewrite FloatAxioms.eqb_spec. unfold SpecFloat.SFleb, SpecFloat.SFeqb.
  destruct (Prim2SF a) as [s|s| |s m e]; cbn; try done.
  - by destruct s.
  - intros _. rewrite Z.compare_refl, Pos.compare_cont_refl. by destruct s.
Qed.

Lemma clamp_bounds (m : float) :
  is_nan m = false → (m <=? 1) = true →
  (-1 <=? Math_max (-1) m) = true ∧ (Math_max (-1) m <=? 1) = true.
Proof.
  intros Hm Hle. unfold Math_max. rewrite Hm.
  change (is_nan (-1)) with false. cbn [orb].
  change (get_sign (-1)) with true. cbv iota.
  destruct (-1 <? m) eqn:H1.
  - split; [|done]. apply leb_cmp. left. by apply ltb_cmp.
  - destruct (m <? -1) eqn:H2; [done|].
    split; [|done]. apply leb_cmp. right. by apply between_cmp.
Qed.

(** X7: in binary64 the clamp of [vecAngle] does its work: the argument
    handed to [Math.acos] is NaN exactly when the quotient is, and
    otherwise lies between -1 and 1. *)
Theorem acos_argument_clamped (x : float) :
  is_nan (Math_max (-1) (Math_min 1 x)) = is_nan x ∧
  (is_nan x = true ∨
   ((-1 <=? Math_max (-1) (Math_min 1 x)) = true ∧
    (Math_max (-1) (Math_min 1 x) <=? 1) = true)).
Proof.
  destruct (is_nan x) eqn:Hx.
  - split; [|by left]. unfold Math_min. rewrite Hx, orb_true_r. reflexivity.
  - assert ((-1 <=? Math_max (-1) (Math_min 1 x)) = true ∧
            (Math_max (-1) (Math_min 1 x) <=? 1) = true) as Hb.
    { unfold Math_min. rewrite Hx. change (is_nan 1) with false. cbn [orb].
      change (get_sign 1) with false. cbv iota.
      destruct (1 <? x) eqn:H1; [by apply clamp_bounds|].
      destruct (x <? 1) eqn:H2; apply clamp_bounds; try done.
      + apply leb_cmp. left. by apply ltb_cmp.
      + apply leb_cmp. right. unfold cmp. rewrite SFcompare_swap.
        fold (cmp 1 x). by rewrite between_cmp. }
    split; [|by right]. by eapply leb_not_nan, Hb.
Qed.

End Binary64Clamp.

Section Binary64VecAngle.
Import ArcGeometry.
Local Open Scope float_scope.

Lemma is_zero_sf (x : float) : is_zero x = sf_zero (Prim2SF x).
Proof.
  unfold is_zero. rewrite FloatAxioms.eqb_spec.
  change (Prim2SF PrimFloat.zero) with (SpecFloat.S754_zero false).
  by destruct (Prim2SF x) as [s|[]| |[] m e].
Qed.

Lemma is_nan_sf (x : float) :
  is_nan x = match Prim2SF x with SpecFloat.S754_nan => true | _ => false end.
Proof.
  unfold is_nan. rewrite FloatAxioms.eqb_spec. unfold SpecFloat.SFeqb.
  destruct (Prim2SF x) as [s|[]| |[] m e]; cbn; try done;
    by rewrite Z.compare_refl, Pos.compare_cont_refl.
Qed.

Lemma is_finite_sf (x : float) : is_finite x = true → sf_finite (Prim2SF x) = true.
Proof.
  unfold is_finite, is_infinity. rewrite is_nan_sf, FloatAxioms.eqb_spec, abs_spec.
  change (Prim2SF PrimFloat.infinity) with (SpecFloat.S754_infinity false).
  by destruct (Prim2SF x) as [s|[]| |[] m e].
Qed.

Lemma mul_zero_finite (x y : float) :
  sf_zero (Prim2SF x) = true → sf_finite (Prim2SF y) = true →
  sf_zero (Prim2SF (x * y)) = true.
Proof.
  rewrite mul_spec. by destruct (Prim2SF x), (Prim2SF y).
Qed.

Lemma mul_zero_any (x y : float) :
  sf_zero (Prim2SF x) = true →
  is_nan (x * y) || is_zero (x * y) = true.
Proof.
  rewrite is_nan_sf, is_zero_sf, mul_spec. by destruct (Prim2SF x), (Prim2SF y).
Qed.

Lemma add_zero (x y : float) :
  sf_zero (Prim2SF x) = true → sf_zero (Prim2SF y) = true →
  sf_zero (Prim2SF (x + y)) = true.
Proof.
  rewrite add_spec. by destruct (Prim2SF x) as [[]| | |], (Prim2SF y) as [[]| | |].
Qed.

Lemma sub_zero (x y : float) :
  sf_zero (Prim2SF x) = true → sf_zero (Prim2SF y) = true →
  sf_zero (Prim2SF (x - y)) = true.
Proof.
  rewrite sub_spec. by destruct (Prim2SF x) as [[]| | |], (Prim2SF y) as [[]| | |].
Qed.

Lemma sqrt_zero_or_nan (x : float) :
  is_nan x || is_zero x = true →
  is_nan (PrimFloat.sqrt x) || is_zero (PrimFloat.sqrt x) = true.
Proof.
  rewrite !is_nan_sf, !is_zero_sf, sqrt_spec.
  by destruct (Prim2SF x) as [s|[]| |[] m e].
Qed.

Lemma div_zero_one (x : float) :
  sf_zero (Prim2SF x) = true → sf_zero (Prim2SF (x / 1)) = true.
Proof.
  rewrite div_spec.
  change (Prim2SF 1) with (SpecFloat.S754_finite false 4503599627370496 (-52)).
  by destruct (Prim2SF x).
Qed.

Lemma zero_not_negative (x : float) :
  sf_zero (Prim2SF x) = true → (x <? 0) = false.
Proof.
  rewrite FloatAxioms.ltb_spec.
  change (Prim2SF 0) with (SpecFloat.S754_zero false).
  by destruct (Prim2SF x).
Qed.

Lemma zero_between (x : float) :
  sf_zero (Prim2SF x) = true →
  is_nan x = false ∧ (x <? -1) = false ∧ (1 <? x) = false.
Proof.
  rewrite is_nan_sf, !FloatAxioms.ltb_spec.
  change (Prim2SF 1) with (SpecFloat.S754_finite false 4503599627370496 (-52)).
  change (Prim2SF (-1)) with (SpecFloat.S754_finite true 4503599627370496 (-52)).
  by destruct (Prim2SF x).
Qed.

(** Below -1 is not above 1. *)
Lemma below_not_above (q : float) : (q <? -1) = true → (1 <? q) = false.
Proof.
  rewrite !FloatAxioms.ltb_spec.
  change (Prim2SF 1) with (SpecFloat.S754_finite false 4503599627370496 (-52)).
  change (Prim2SF (-1)) with (SpecFloat.S754_finite true 4503599627370496 (-52)).
  by destruct (Prim2SF q) as [s|[]| |[] m e].
Qed.

Lemma clamp64_cases (q : float) :
  clamp64 q (-1) 1 =
  if is_nan q then nan
  else if q <? -1 then -1
  else if 1 <? q then 1
  else q.
Proof.
  unfold clamp64, Math_min. change (is_nan 1) with false. cbn [orb].
  change (get_sign 1) with false. cbv iota.
  destruct (is_nan q) eqn:Hq; [reflexivity|].
  assert (∀ m, m = q → Math_max (-1) m =
            if q <? -1 then -1 else q) as Hmax.
  { intros m ->. unfold Math_max. rewrite Hq.
    change (is_nan (-1)) with false. cbn [orb].
    change (get_sign (-1)) with true. cbv iota.
    destruct (q <? -1) eqn:Hlow.
    - assert ((-1 <? q) = false) as ->; [|done].
      destruct (-1 <? q) eqn:Hup; [|done].
      apply ltb_cmp in Hlow, Hup. unfold cmp in *.
      rewrite SFcompare_swap, Hlow in Hup. done.
    - by destruct (-1 <? q). }
  destruct (q <? -1) eqn:Hlow.
  - rewrite (below_not_above q Hlow).
    destruct (q <? 1); by rewrite (Hmax q eq_refl).
  - destruct (1 <? q) eqn:Hup; [reflexivity|].
    destruct (q <? 1); by rewrite (Hmax q eq_refl).
Qed.

(** C5, as amended, in binary64: [vecAngle(u, v)] is
    [s * Math.acos(c)], where [s] is -1 when the computed
    [ux*vy - uy*vx] is below 0 and 1 otherwise, and [c] is the computed
    quotient of [u.v] by [len || 1] clamped to [-1, 1]: NaN when the
    quotient is NaN, -1 below -1, 1 above 1 and the quotient itself in
    between.  When [u] is a zero vector and [v] is finite the divisor is
    1, [c] is a zero and the result is [+ Math.acos(0)], that is
    [PI/2]. *)
Theorem vecAngle_spec (Math_acos : float → float) (ux uy vx vy : float) :
  let cross := ux * vy - uy * vx in
  let dot := ux * vx + uy * vy in
  let len := PrimFloat.sqrt ((ux * ux + uy * uy) * (vx * vx + vy * vy)) in
  let q := dot / (if is_nan len || is_zero len then 1 else len) in
  vecAngle64 Math_acos ux uy vx vy =
    (if cross <? 0 then -1 else 1) * Math_acos (clamp64 q (-1) 1) ∧
  clamp64 q (-1) 1 =
    (if is_nan q then nan
     else if q <? -1 then -1
     else if 1 <? q then 1
     else q) ∧
  (is_zero ux && is_zero uy && is_finite vx && is_finite vy = true →
   is_zero (clamp64 q (-1) 1) = true ∧
   vecAngle64 Math_acos ux uy vx vy = 1 * Math_acos (clamp64 q (-1) 1)).
Proof.
  cbv zeta. split; [reflexivity|]. split; [apply clamp64_cases|].
  intros Hz. apply andb_prop in Hz as [Hz Hvy]. apply andb_prop in Hz as [Hz Hvx].
  apply andb_prop in Hz as [Hux Huy].
  rewrite is_zero_sf in Hux, Huy. apply is_finite_sf in Hvx, Hvy.
  assert (is_nan (PrimFloat.sqrt ((ux * ux + uy * uy) * (vx * vx + vy * vy)))
          || is_zero (PrimFloat.sqrt ((ux * ux + uy * uy) * (vx * vx + vy * vy)))
          = true) as ->.
  { apply sqrt_zero_or_nan, mul_zero_any, add_zero;
      apply mul_zero_finite; try done; by destruct (Prim2SF ux), (Prim2SF uy). }
  assert (sf_zero (Prim2SF ((ux * vx + uy * vy) / 1)) = true) as Hq.
  { apply div_zero_one, add_zero; by apply mul_zero_finite. }
  destruct (zero_between _ Hq) as (Hn & Hlo & Hup).
  assert (clamp64 ((ux * vx + uy * vy) / 1) (-1) 1 = (ux * vx + uy * vy) / 1)
    as Hc.
  { by rewrite clamp64_cases, Hn, Hlo, Hup. }
  split; [by rewrite Hc, is_zero_sf|].
  unfold vecAngle64, or_one64.
  assert (is_nan (PrimFloat.sqrt ((ux * ux + uy * uy) * (vx * vx + vy * vy)))
          || is_zero (PrimFloat.sqrt ((ux * ux + uy * uy) * (vx * vx + vy * vy)))
          = true) as ->.
  { apply sqrt_zero_or_nan, mul_zero_any, add_zero;
      apply mul_zero_finite; try done; by destruct (Prim2SF ux), (Prim2SF uy). }
  rewrite zero_not_negative; [done|].
  apply sub_zero; by apply mul_zero_finite.
Qed.

End Binary64VecAngle.

(** C5 fails as stated: for [u = (0, 0)] and [v = (1, 0)] the product
    of the norms is 0 and [vecAngle] returns [Math.acos(0)], the double
    nearest [PI/2], not 0. *)
Lemma vecAngle_zero_vector :
  (PrimFloat.sqrt ((0 * 0 + 0 * 0) * (1 * 1 + 0 * 0)) = 0)%float ∧
  ∀ Math_acos : float → float,
    Math_acos 0%float = 0x1.921fb54442d18p+0%float →
    ArcGeometry.vecAngle64 Math_acos 0 0 1 0 = 0x1.921fb54442d18p+0%float ∧
    ArcGeometry.vecAngle64 Math_acos 0 0 1 0 ≠ 0%float.
Proof.
  split; [reflexivity|]. intros Math_acos Hacos.
  assert (ArcGeometry.vecAngle64 Math_acos 0 0 1 0 = 0x1.921fb54442d18p+0%float)
    as Hv.
  { change (ArcGeometry.vecAngle64 Math_acos 0 0 1 0)
      with (1 * Math_acos 0)%float. rewrite Hacos. reflexivity. }
  split; [done|]. rewrite Hv. intros Heq.
  apply (f_equal (λ x, PrimFloat.eqb x 0)) in Heq. vm_compute in Heq.
  discriminate Heq.
Qed.

(** ** The package *)

Section PackageProperties.
Context {RT : Runtime}.

(** X8: [readEntry] and [readEntryBuf] take a part name with or without
    a leading [/] or [./]: for all three spellings they ask the archive
    for the same name, the one without the separator. *)
Theorem readEntry_leading_separator (zip : archive) (p : string)
    (Hslash : String.prefix "/" p = false)
    (Hdot : String.prefix "./" p = false) :
  readEntry zip p = zip p ∧
  readEntry zip ("/" ++ p) = zip p ∧
  readEntry zip ("./" ++ p) = zip p ∧
  readEntryBuf zip p = data <$> zip p ∧
  readEntryBuf zip ("/" ++ p) = data <$> zip p ∧
  readEntryBuf zip ("./" ++ p) = data <$> zip p.
Proof.
  assert (clean_path p = p) as H0.
  { unfold clean_path, strip_prefix. by rewrite Hdot, Hslash. }
  assert (String.prefix "" p = true) as He by (by destruct p).
  assert (clean_path ("/" ++ p) = p) as H1.
  { change ("/" ++ p) with (String "/" p).
    unfold clean_path, strip_prefix. cbn. by rewrite He. }
  assert (clean_path ("./" ++ p) = p) as H2.
  { change ("./" ++ p) with (String "." (String "/" p)).
    unfold clean_path, strip_prefix. cbn. by rewrite He, Hslash. }
  unfold readEntry, readEntryBuf. by rewrite H0, H1, H2.
Qed.

Lemma pageContents_app (l1 l2 : list node) : ∀ pages,
  pageContents (l1 ++ l2) pages =
  pages1 ← pageContents l1 pages; pageContents l2 pages1.
Proof.
  induction l1 as [|pc l1 IH]; intros pages; cbn [app pageContents]; [done|].
  destruct (negb _); [apply IH|].
  destruct (attrs pc !! "Source"); [apply IH | done].
Qed.

Lemma documentReferences_app zip (l1 l2 : list node) : ∀ pages,
  documentReferences zip (l1 ++ l2) pages =
  pages1 ← documentReferences zip l1 pages; documentReferences zip l2 pages1.
Proof.
  induction l1 as [|c l1 IH]; intros pages; cbn [app documentReferences]; [done|].
  destruct (negb _); [apply IH|].
  destruct (attrs c !! "Source"); [|done].
  destruct (readable _) as [docXml|]; [|apply IH].
  destruct (parseXml docXml) as [docRoot|]; cbn [mbind result_bind]; [|done].
  destruct (pageContents _ pages) as [pages'|]; cbn [mbind result_bind];
    [apply IH | done].
Qed.

(** X9: [findPages] walks the package in document order: the walk over
    the children [l1 ++ l2] of a FixedDocumentSequence, or of a
    FixedDocument, is the walk over [l1] followed by the walk over [l2]
    from the pages found so far, and an error met in [l1] ends it. *)
Theorem findPages_document_order zip (l1 l2 : list node)
    (pages : list page_ref) :
  documentReferences zip (l1 ++ l2) pages =
    (pages1 ← documentReferences zip l1 pages;
     documentReferences zip l2 pages1) ∧
  pageContents (l1 ++ l2) pages =
    (pages1 ← pageContents l1 pages; pageContents l2 pages1).
Proof. split; [apply documentReferences_app | apply pageContents_app]. Qed.

Lemma pageContents_pages (l : list node) : ∀ pages pages',
  pageContents l pages = Ok pages' →
  ∃ more, pages' = (pages ++ more)%list ∧ Forall page_ok more ∧
          (length more ≤ length l)%nat.
Proof.
  induction l as [|pc l IH]; intros pages pages'; cbn [pageContents].
  - intros [= <-]. exists []. by rewrite app_nil_r.
  - destruct (negb _).
    { intros (more & -> & Hok & Hlen)%IH. exists more. cbn. auto with lia. }
    destruct (attrs pc !! "Source") as [source|]; [|done].
    intros (more & -> & Hok & Hlen)%IH. eexists (_ :: more).
    rewrite <- app_assoc. split; [done|].
    split; [by constructor | cbn; lia].
Qed.

Lemma documentReferences_pages zip (l : list node) : ∀ pages pages',
  documentReferences zip l pages = Ok pages' →
  ∃ more, pages' = (pages ++ more)%list ∧ Forall page_ok more.
Proof.
  induction l as [|c l IH]; intros pages pages'; cbn [documentReferences].
  - intros [= <-]. exists []. by rewrite app_nil_r.
  - destruct (negb _); [apply IH|].
    destruct (attrs c !! "Source"); [|done].
    destruct (readable _) as [docXml|]; [|apply IH].
    destruct (parseXml docXml) as [docRoot|]; cbn [mbind result_bind]; [|done].
    destruct (pageContents _ pages) as [pages1|] eqn:Hp;
      cbn [mbind result_bind]; [|done].
    apply pageContents_pages in Hp as (m1 & -> & Hok1 & _).
    intros (m2 & -> & Hok2)%IH. exists (m1 ++ m2)%list.
    rewrite app_assoc. split; [done | by apply Forall_app].
Qed.

(** X10: every page [findPages] returns has the directory of its own
    part as base path: [basePath] is [path.posix.dirname(fpagePath)]. *)
Theorem findPages_basePath zip (pages : list page_ref)
    (Hfound : findPages zip = Ok pages) :
  Forall (λ p, basePath p = posix_dirname (fpagePath p)) pages.
Proof.
  unfold findPages in Hfound.
  destruct (readable _) as [fdseqXml|]; [|done].
  destruct (parseXml fdseqXml) as [root|]; cbn [mbind result_bind] in Hfound;
    [|done].
  by apply documentReferences_pages in Hfound as (more & -> & Hok).
Qed.

End PackageProperties.

Lemma readEntry_leading_separator_witness :
  readEntry one_page_package "Fonts/a.ttf" = Some font_part ∧
  readEntry one_page_package "/Fonts/a.ttf" = Some font_part ∧
  readEntry one_page_package "./Fonts/a.ttf" = Some font_part.
Proof.
  destruct (readEntry_leading_separator one_page_package "Fonts/a.ttf")
    as (H0 & H1 & H2 & _); [reflexivity | reflexivity |].
  rewrite H0. change ("/" ++ "Fonts/a.ttf") with "/Fonts/a.ttf" in H1.
  change ("./" ++ "Fonts/a.ttf") with "./Fonts/a.ttf" in H2.
  rewrite H1, H2. split; [|split]; vm_compute; reflexivity.
Defined.

Lemma findPages_basePath_witness :
  findPages one_page_package =
    Ok [PageRef "Documents/1/Pages/1.fpage" "Documents/1/Pages"] ∧
  Forall (λ p, basePath p = posix_dirname (fpagePath p))
    [PageRef "Documents/1/Pages/1.fpage" "Documents/1/Pages"].
Proof.
  assert (findPages one_page_package =
            Ok [PageRef "Documents/1/Pages/1.fpage" "Documents/1/Pages"]) as Hf
    by (vm_compute; reflexivity).
  split; [exact Hf | exact (findPages_basePath _ _ Hf)].
Defined.

(** *** Fonts and resources of a page *)

Section PageResources.
Context {RT : Runtime}.

Lemma extends_fonts_refl zip basePath fonts :
  extends_fonts zip basePath fonts fonts.
Proof. split; [done | by left]. Qed.

Lemma extends_fonts_trans zip basePath f1 f2 f3 :
  extends_fonts zip basePath f1 f2 → extends_fonts zip basePath f2 f3 →
  extends_fonts zip basePath f1 f3.
Proof.
  intros [Hk1 Hn1] [Hk2 Hn2]. split; [by auto|].
  intros uri b [Hb|Hb]%Hn2; [by apply Hn1 | by right].
Qed.

Lemma extends_fonts_load zip basePath fonts uri buf :
  fonts !! uri = None →
  readEntryBuf zip (resolvePath basePath uri) = Some buf →
  extends_fonts zip basePath fonts
    (<[uri := deobfuscateOdttf buf (basename uri)]> fonts).
Proof.
  intros Hnew Hbuf. split.
  - intros u b Hu. rewrite lookup_insert_ne; [done | congruence].
  - intros u b Hu. destruct (decide (uri = u)) as [<-|Hne].
    + rewrite lookup_insert_eq in Hu. injection Hu as <-. right. by exists buf.
    + rewrite lookup_insert_ne in Hu by done. by left.
Qed.

Lemma fonts_get_None fonts uri : fonts_get fonts uri = None → fonts !! uri = None.
Proof. unfold fonts_get. by destruct (fonts !! uri). Qed.

(** X11: [collectFontRefs] only adds to the font table, and the first
    load of a URI stands: an entry already in the table is never
    replaced, and every entry that is new is the part the URI resolves
    to, passed through [deobfuscateOdttf] under the base name of the
    URI. *)
Theorem collectFontRefs_extends (n : node) zip basePath :
  ∀ fonts,
    extends_fonts zip basePath fonts (collectFontRefs n zip basePath fonts).2.
Proof.
  induction n as [nm a cs IH] using node_induction. cbn [collectFontRefs].
  induction IH as [|child cs Hchild _ IHcs]; intros fonts;
    [apply extends_fonts_refl|].
  destruct (_ && _); [apply extends_fonts_refl|].
  match goal with
  | |- context [collectFontRefs child zip basePath ?f] =>
      assert (extends_fonts zip basePath fonts f) as Hstep;
      [|specialize (Hchild f);
        destruct (collectFontRefs child zip basePath f) as [[[]|e] fonts2]]
  end.
  - destruct (String.eqb (name child) "Glyphs"); [|apply extends_fonts_refl].
    destruct (truthy (attrs child !! "FontUri")) as [uri|];
      [|apply extends_fonts_refl].
    destruct (fonts_get fonts uri) eqn:Hu; [apply extends_fonts_refl|].
    apply fonts_get_None in Hu.
    destruct (readEntryBuf zip (resolvePath basePath uri)) as [buf|] eqn:Hb;
      [by apply extends_fonts_load | apply extends_fonts_refl].
  - eapply extends_fonts_trans; [|apply IHcs].
    by eapply extends_fonts_trans.
  - by eapply extends_fonts_trans.
Qed.

Lemma elements_self (n : node) : n ∈ elements n.
Proof. destruct n. cbn [elements]. apply list_elem_of_here. Qed.

Lemma elements_child (n c m : node) :
  c ∈ getChildren n → m ∈ elements c → m ∈ elements n.
Proof.
  destruct n as [nm a cs]. cbn [getChildren elements]. intros Hc Hm.
  apply list_elem_of_further.
  induction cs as [|c0 cs IH]; [by apply elem_of_nil in Hc|].
  apply elem_of_app. apply elem_of_cons in Hc as [<-|Hc]; [by left|].
  right. by apply IH.
Qed.






(** X13: a page without a [Canvas.Resources] element anywhere below it
    has no resources to load: [collectResources] returns the table it
    was given, whatever the archive holds. *)
Theorem collectResources_without_resources (n : node) zip basePath resources
    (Hnone : mentions "Canvas.Resources" n = false) :
  collectResources n zip basePath resources = Ok resources.
Proof.
  revert resources Hnone.
  induction n as [nm a cs IH] using node_induction.
  cbn [collectResources mentions].
  induction IH as [|child cs Hchild _ IHcs]; intros resources Hnone; [done|].
  apply orb_false_iff in Hnone as [[Hname Hbelow]%orb_false_iff Hrest].
  rewrite Hname. cbn [mbind result_bind].
  rewrite (Hchild _ Hbelow). cbn [mbind result_bind]. by apply IHcs.
Qed.

End PageResources.


Lemma collectResources_without_resources_witness :
  mentions "Canvas.Resources" page_two_levels = false ∧
  collectResources page_two_levels bad_dictionary_package "Documents/1/Pages"
    {["img" := Brush (Some font_bytes) None None None]} =
  Ok {["img" := Brush (Some font_bytes) None None None]}.
Proof.
  split; [reflexivity|].
  apply collectResources_without_resources. reflexivity.
Defined.

(** ** The renderer as a script *)

Section ScriptProperties.
Context {RT : Runtime} {BE : Backend}.

Lemma script_mono (Q Q' : node → Prop) fonts {A} (m : M A) :
  (∀ n, Q n → Q' n) → script Q fonts A m → script Q' fonts A m.
Proof.
  intros HQ. induction 1; try (by constructor); constructor; auto.
Qed.

Ltac script_known := fail.

Ltac script_steps :=
  repeat first
    [ script_known
    | apply script_ret
    | apply script_call
    | by apply script_dollar
    | by apply script_font
    | apply script_try
    | apply script_bind; [|intros ?] ].

Lemma script_replay Q fonts (cs : list call) : script Q fonts unit (replay cs).
Proof. induction cs as [|c cs IH]; cbn [replay]; script_steps. exact IH. Qed.

Lemma script_drawPathData Q fonts d : script Q fonts unit (drawPathData d).
Proof. apply script_replay. Qed.

Ltac script_known ::= apply script_drawPathData.

Lemma script_applyStrokeStyle (Q : node → Prop) fonts n thickness :
  Q n → script Q fonts unit (applyStrokeStyle n thickness).
Proof.
  intros Hn. unfold applyStrokeStyle. script_steps.
  destruct (truthy (attrs n !! "StrokeDashArray")) as [dashStr|];
    [destruct (negb _)|]; script_steps.
Qed.

Ltac script_known ::=
  first [apply script_drawPathData | by apply script_applyStrokeStyle].

Lemma script_renderImageFill (Q : node → Prop) fonts data key resources stroke
    n thickness :
  Q n → script Q fonts unit (renderImageFill data key resources stroke n thickness).
Proof.
  intros Hn. unfold renderImageFill, try_.
  destruct (resources !! key) as [res|]; [|script_steps].
  destruct (imageBuffer res) as [img|]; script_steps.
  - destruct (truthy (transform res)); script_steps.
  - destruct stroke; script_steps.
Qed.

Lemma script_renderPath (Q : node → Prop) fonts n resources :
  Q n → script Q fonts unit (renderPath n resources).
Proof.
  intros Hn. unfold renderPath, try_.
  apply script_bind; [by apply script_dollar | intros _].
  destruct (truthy (attrs n !! "Data")) as [data|]; [|script_steps].
  assert (∀ fill stroke,
    script Q fonts unit
      (let thickness := parseFloat (or_else (attrs n !! "StrokeThickness") "1") in
       match fill ≫= staticResource with
       | Some key => renderImageFill data key resources stroke n thickness
       | None =>
           call_ CSave;;
           match stroke with
           | Some _ => applyStrokeStyle n thickness
           | None => mret tt
           end;;
           try_catch (
             drawPathData data;;
             match fill, stroke with
             | Some f, Some s => call_ (CFillAndStroke f s)
             | Some f, None => call_ (CFill f)
             | None, _ => call_ CStroke
             end) (mret tt);;
           call_ CRestore
       end)) as Hdraw.
  { intros fill stroke. cbv zeta.
    destruct (fill ≫= staticResource); [by apply script_renderImageFill|].
    script_steps.
    - destruct stroke; script_steps.
    - destruct fill, stroke; script_steps. }
  destruct (truthy (attrs n !! "Fill")) as [f|],
    (truthy (attrs n !! "Stroke")) as [s|];
    try apply script_ret; apply Hdraw.
Qed.

Lemma script_renderGlyphs (Q : node → Prop) fonts n :
  Q n → script Q fonts unit (renderGlyphs n fonts).
Proof.
  intros Hn. unfold renderGlyphs, try_.
  apply script_bind; [by apply script_dollar | intros _].
  destruct (truthy (attrs n !! "UnicodeString")) as [text|]; script_steps.
Qed.

Lemma script_renderCanvas (Q : node → Prop) fonts kids n :
  Q n → script Q fonts unit kids → script Q fonts unit (renderCanvas kids n).
Proof.
  intros Hn Hkids. unfold renderCanvas. script_steps; [| |exact Hkids].
  - destruct (truthy (attrs n !! "RenderTransform")); script_steps.
  - destruct (truthy (attrs n !! "Clip")); script_steps.
Qed.

Lemma script_renderEach (Q : node → Prop) resources fonts (l : list node) :
  Forall (λ n, script Q fonts unit (renderElement resources fonts n)) l →
  script Q fonts unit (renderEach resources fonts l).
Proof.
  induction 1 as [|c l Hc _ IH]; cbn [renderEach]; script_steps; done.
Qed.

Lemma script_renderElement resources fonts (n : node) :
  script (λ m, m ∈ elements n) fonts unit (renderElement resources fonts n).
Proof.
  induction n as [nm a cs IH] using node_induction.
  rewrite renderElement_unfold. cbn [name].
  assert (script (λ m, m ∈ elements (Node nm a cs)) fonts unit
            (renderEach resources fonts cs)) as Hkids.
  { apply script_renderEach. apply Forall_forall. intros c Hc.
    eapply script_mono; [|by eapply Forall_forall in IH].
    intros m Hm. by eapply elements_child. }
  pose proof (elements_self (Node nm a cs)) as Hself.
  destruct (String.eqb nm "Canvas"); [by apply script_renderCanvas|].
  destruct (String.eqb nm "Path"); [by apply script_renderPath|].
  destruct (String.eqb nm "Glyphs"); [by apply script_renderGlyphs|].
  destruct (_ || _); [apply script_ret | apply Hkids].
Qed.

Lemma script_renderChildren n resources fonts :
  script (λ m, m ∈ elements n) fonts unit (renderChildren n resources fonts).
Proof.
  apply script_renderEach, Forall_forall. intros c Hc.
  eapply script_mono; [|apply script_renderElement].
  intros m Hm. by eapply elements_child.
Qed.

Lemma script_drawPage fixedPage resources fonts :
  script (λ m, m ∈ elements fixedPage) fonts unit
    (drawPage fixedPage resources fonts).
Proof. unfold drawPage. script_steps. apply script_renderChildren. Qed.

End ScriptProperties.

(** ** What the renderer throws, and what it does to [registeredFonts] *)

Section RendererProperties.
Context {RT : Runtime} {BE : Backend}.

Lemma loaded_lookup (uri : option string) (fonts : gmap string (list byte)) u src :
  (uri ≫= λ u, (λ src, (u, src)) <$> fonts_get fonts u) = Some (u, src) →
  fonts_get fonts u = Some src.
Proof.
  destruct uri as [u0|]; [|done]. cbn.
  destruct (fonts_get fonts u0) as [b|] eqn:Hu; [|done]. cbn.
  by intros [= <- <-].
Qed.

(** X14: [chooseFont] never throws, and the face it returns is
    Helvetica or an identifier that is in [registeredFonts] by then. *)
Theorem chooseFont_face (uri : option string)
    (fonts : gmap string (list byte)) (st : rstate) :
  ∃ face st',
    chooseFont uri fonts st = (Ok face, st') ∧
    (face = "Helvetica" ∨ face ∈ registeredFonts st').
Proof.
  unfold chooseFont.
  destruct (uri ≫= _) as [[u buf]|]; [|by eexists _, _; split; [|left]].
  rewrite bind_run. unfold registered at 1.
  destruct (bool_decide (fontIdOf u ∈ registeredFonts st)) eqn:Hk; cbn [negb].
  - apply bool_decide_eq_true in Hk. by eexists _, _; split; [|right].
  - unfold try_catch. rewrite !bind_run. unfold call_ at 1.
    destruct (pdf_accepts _ _).
    + eexists _, _. split; [reflexivity|]. right. cbn. set_solver.
    + by eexists _, _; split; [|left].
Qed.

Lemma chooseFont_returns uri fonts : returns (chooseFont uri fonts).
Proof.
  intros st. unfold chooseFont.
  destruct (uri ≫= _) as [[u buf]|]; [|by eexists _, _].
  rewrite bind_run. unfold registered at 1.
  destruct (bool_decide _); cbn [negb]; [by eexists _, _|].
  unfold try_catch. rewrite !bind_run. unfold call_ at 1.
  destruct (pdf_accepts _ _); by eexists _, _.
Qed.

Lemma script_throws Q fonts {A} (m : M A) :
  script Q fonts A m →
  ∀ st e st', m st = (Throw e, st') →
    (∃ c, e = PdfError c) ∨ (e = TypeError ∧ ∃ n, Q n ∧ attrs n = ∅).
Proof.
  induction 1 as [A a|A B m f _ IHm _ IHf|c|A m h _ IHm _ IHh|n Hn|n Hn];
    intros st e st'.
  - by intros [=].
  - rewrite bind_run. destruct (m st) as [[a|e0] s1] eqn:E.
    + apply IHf.
    + intros [= <- <-]. by eapply IHm.
  - unfold call_. destruct (pdf_accepts c (doc st)) eqn:Hc; [done|].
    intros [= <- <-]. left. by exists c.
  - unfold try_catch. destruct (m st) as [[a|e0] s1] eqn:E; [done|].
    apply IHh.
  - unfold dollar. destruct (bool_decide (attrs n = ∅)) eqn:Ha; [|done].
    intros [= <- <-]. right. split; [done|]. exists n.
    by apply bool_decide_eq_true in Ha.
  - intros Hrun.
    destruct (chooseFont_returns (truthy (attrs n !! "FontUri")) fonts st)
      as (f & s1 & Hf).
    congruence.
Qed.

(** X15: [renderElement] throws in two ways only: with the error of
    PDFKit for a call it rejected, or with a [TypeError], and then an
    element of the tree it was given has no attributes. *)
Theorem renderElement_throws resources fonts (n : node)
    (st st' : rstate) (e : error)
    (Hthrown : renderElement resources fonts n st = (Throw e, st')) :
  (∃ c, e = PdfError c) ∨
  (e = TypeError ∧ ∃ m, m ∈ elements n ∧ attrs m = ∅).
Proof.
  by eapply script_throws; [apply script_renderElement|].
Qed.

(** *** [registeredFonts] *)

Lemma registers_refl fonts st : registers fonts st st.
Proof.
  exists []. rewrite app_nil_r. split; [done|]. split; [done|]. by left.
Qed.

Lemma registers_trans fonts s1 s2 s3 :
  registers fonts s1 s2 → registers fonts s2 s3 → registers fonts s1 s3.
Proof.
  intros (a1 & Hd1 & Hs1 & Hn1) (a2 & Hd2 & Hs2 & Hn2).
  exists (a1 ++ a2)%list. rewrite Hd2, Hd1, app_assoc.
  split; [done|]. split; [set_solver|].
  intros id [Hid|(u & buf & Hu & -> & Hin)]%Hn2.
  - destruct (Hn1 _ Hid) as [?|(u & buf & Hu & -> & Hin)]; [by left|].
    right. exists u, buf. split; [done|]. split; [done|].
    apply elem_of_app. by left.
  - right. exists u, buf. split; [done|]. split; [done|].
    apply elem_of_app. by right.
Qed.

Lemma registers_call fonts c st : registers fonts st (call_ c st).2.
Proof.
  unfold call_. destruct (pdf_accepts c (doc st)); [|apply registers_refl].
  exists [c]. split; [done|]. split; [done|]. by left.
Qed.

Lemma registers_chooseFont fonts uri st :
  registers fonts st (chooseFont uri fonts st).2.
Proof.
  unfold chooseFont.
  destruct (uri ≫= _) as [[u src]|] eqn:Hl; [|apply registers_refl].
  apply loaded_lookup in Hl.
  rewrite bind_run. unfold registered at 1.
  destruct (bool_decide (fontIdOf u ∈ registeredFonts st)); cbn [negb];
    [apply registers_refl|].
  unfold try_catch. rewrite !bind_run. unfold call_ at 1.
  destruct (pdf_accepts _ _); [|apply registers_refl].
  exists [CRegisterFont (fontIdOf u) src]. cbn.
  split; [done|]. split; [set_solver|].
  intros id [->%elem_of_singleton|Hid]%elem_of_union; [|by left].
  right. exists u, src. split; [done|]. split; [done|].
  by apply list_elem_of_singleton.
Qed.

Lemma script_registers Q fonts {A} (m : M A) :
  script Q fonts A m → ∀ st, registers fonts st (m st).2.
Proof.
  induction 1 as [A a|A B m f _ IHm _ IHf|c|A m h _ IHm _ IHh|n Hn|n Hn];
    intros st.
  - apply registers_refl.
  - rewrite bind_run. specialize (IHm st).
    destruct (m st) as [[a|e0] s1] eqn:E; [|done].
    eapply registers_trans; [exact IHm | apply IHf].
  - apply registers_call.
  - unfold try_catch. specialize (IHm st).
    destruct (m st) as [[a|e0] s1] eqn:E; [done|].
    eapply registers_trans; [exact IHm | apply IHh].
  - unfold dollar. destruct (bool_decide _); apply registers_refl.
  - apply registers_chooseFont.
Qed.

(** *** Without fonts *)

Lemma ignores_registry_script (Q : node → Prop) fonts {A} (m : M A) :
  (∀ n, Q n → no_font_found fonts n = true) →
  script Q fonts A m → ignores_registry m.
Proof.
  intros HQ.
  induction 1 as [A a|A B m f _ IHm _ IHf|c|A m h _ IHm _ IHh|n Hn|n Hn];
    intros log r1 r2.
  - done.
  - rewrite !bind_run.
    destruct (IHm log r1 r2) as (Hr & Hd & Hs1).
    destruct (IHm log r2 r1) as (_ & _ & Hs2).
    destruct (m (RState log r1)) as [x1 [d1 g1]],
      (m (RState log r2)) as [x2 [d2 g2]].
    cbn in Hr, Hd, Hs1, Hs2. subst.
    destruct x2 as [a|e0]; [apply IHf | done].
  - unfold call_. cbn [doc]. by destruct (pdf_accepts c log).
  - unfold try_catch.
    destruct (IHm log r1 r2) as (Hr & Hd & Hs1).
    destruct (IHm log r2 r1) as (_ & _ & Hs2).
    destruct (m (RState log r1)) as [x1 [d1 g1]],
      (m (RState log r2)) as [x2 [d2 g2]].
    cbn in Hr, Hd, Hs1, Hs2. subst.
    destruct x2 as [a|e0]; [done | apply IHh].
  - unfold dollar. by destruct (bool_decide _).
  - specialize (HQ n Hn). unfold no_font_found, loaded_font in HQ.
    unfold chooseFont. by destruct (truthy (attrs n !! "FontUri") ≫= _).
Qed.

End RendererProperties.

Lemma renderElement_throws_witness :
  (∃ c,
     PdfError (CTransform (VNum 1) (VNum 0) (VNum 0) (VNum 1) (VNum 0) VUndef) =
       PdfError c) ∨
  (PdfError (CTransform (VNum 1) (VNum 0) (VNum 0) (VNum 1) (VNum 0) VUndef) =
     TypeError ∧
   ∃ m, m ∈ elements canvas_short_matrix ∧ attrs m = ∅).
Proof.
  apply (renderElement_throws ∅ ∅ canvas_short_matrix (RState [] ∅)
           (RState [CSave] ∅)).
  vm_compute; reflexivity.
Defined.

(** ** Frames, and whole conversions *)

Section FrameProperties.
Context {RT : Runtime} {BE : Backend}.

Lemma track_prefix_depth (l : list call) d d' :
  track d l = Some d' →
  ∀ p, p `prefix_of` l → (- Z.of_nat d ≤ depth p)%Z.
Proof.
  intros Ht p [q ->]. rewrite track_app in Ht.
  destruct (track d p) as [d1|] eqn:Hp; [|done].
  rewrite (track_depth _ _ _ Hp). lia.
Qed.

Lemma track_no_end (l : list call) : ∀ d d',
  track d l = Some d' → (CEnd ∉ l) ∧ (CAddPage ∉ l).
Proof.
  induction l as [|c l IH]; intros d d' Ht.
  { split; apply not_elem_of_nil. }
  assert (∀ d1, track d1 l = Some d' → c ≠ CEnd → c ≠ CAddPage →
            (CEnd ∉ c :: l) ∧ (CAddPage ∉ c :: l)) as Hstep.
  { intros d1 [H1 H2]%IH Hc1 Hc2.
    split; apply not_elem_of_cons; split; done. }
  destruct c; cbn [track] in Ht; try discriminate Ht;
    try (by eapply Hstep).
  - destruct d as [|d0]; [done | by eapply Hstep].
  - destruct (0 <? d)%nat; [by eapply Hstep | done].
Qed.

(** X16: [renderElement] only adds calls to the document, and at no
    point has it restored more graphics states than it has saved; it
    never ends the document or adds a page; and when it returns it has
    restored every state it saved. *)
Theorem renderElement_frames resources fonts (n : node) (st : rstate) :
  ∃ added,
    doc (renderElement resources fonts n st).2 = (doc st ++ added)%list ∧
    (∀ p, p `prefix_of` added → (0 ≤ depth p)%Z) ∧
    (CEnd ∉ added) ∧ (CAddPage ∉ added) ∧
    ((renderElement resources fonts n st).1 = Ok tt → depth added = 0%Z).
Proof.
  destruct (tracks_renderElement resources fonts n 0) as [_ Ht].
  destruct (Ht st) as (added & Hdoc & Htrack). exists added.
  assert (∃ d', track 0 added = Some d') as [d' Hd'].
  { destruct (renderElement resources fonts n st).1; [by eexists | done]. }
  split; [done|]. split.
  { intros p Hp. by apply (track_prefix_depth _ _ _ Hd'). }
  destruct (track_no_end _ _ _ Hd') as [He Ha].
  split; [done|]. split; [done|].
  intros Hok. rewrite Hok in Htrack. by rewrite (track_depth _ _ _ Htrack).
Qed.

Lemma drawPage_returns_complete fixedPage resources fonts registered0 st :
  drawPage fixedPage resources fonts (RState [] registered0) = (Ok tt, st) →
  ∃ body,
    doc st = (CSave :: page_scale :: body ++ [CRestore; CEnd])%list ∧
    track 0 body = Some 0%nat.
Proof.
  unfold drawPage. rewrite bind_run. unfold call_ at 1.
  destruct (pdf_accepts CSave _); [|done]. cbn [doc registeredFonts app].
  rewrite bind_run. fold page_scale. unfold call_ at 1.
  destruct (pdf_accepts page_scale _); [|done]. cbn [doc registeredFonts app].
  set (st1 := RState [CSave; page_scale] registered0).
  destruct (tracks_renderChildren fixedPage resources fonts 0) as [_ Hk].
  destruct (Hk st1) as (body & Hdoc & Htrack).
  rewrite bind_run.
  destruct (renderChildren fixedPage resources fonts st1) as [[[]|e] st2];
    [|done]. cbn [fst snd] in *.
  rewrite bind_run. unfold call_ at 1.
  destruct (pdf_accepts CRestore _); [|done]. cbn [doc registeredFonts].
  unfold call_. cbn [doc registeredFonts].
  destruct (pdf_accepts CEnd _); [|done].
  intros [= <-]. exists body. cbn [doc]. rewrite Hdoc. subst st1. cbn [doc app].
  rewrite <- !app_assoc. done.
Qed.

(** X17: a conversion that returns has written a whole page: the
    opening [save] and the scale 72/96, then the content of the page
    with every [save] matched by its [restore], then the closing
    [restore] and [end]. *)
Theorem conversion_returns_complete (zip : archive)
    (registered0 : gset string)
    (Hreturned : returned (convertDwfxToPdf zip registered0).1 = Ok tt) :
  ∃ p body,
    written (convertDwfxToPdf zip registered0).1 = Some p ∧
    content p = (CSave :: page_scale :: body ++ [CRestore; CEnd])%list ∧
    depth body = 0%Z ∧ (CEnd ∉ body).
Proof.
  revert Hreturned. unfold convertDwfxToPdf.
  destruct (loadFirstPage zip) as [[[fixedPage resources] fonts]|e]; [|done].
  destruct (drawPage fixedPage resources fonts _) as [r st] eqn:Hrun.
  cbn [fst snd returned written]. intros ->.
  apply drawPage_returns_complete in Hrun as (body & Hdoc & Htrack).
  eexists _, body. split; [reflexivity|]. cbn [content].
  split; [done|]. split; [by rewrite (track_depth _ _ _ Htrack)|].
  by destruct (track_no_end _ _ _ Htrack).
Qed.

(** X18: a conversion only adds to [registeredFonts], and each
    identifier it adds is the identifier of a font of the page that it
    registered on the document it wrote. *)
Theorem conversion_registers (zip : archive)
    (registered0 : gset string) :
  registered0 ⊆ (convertDwfxToPdf zip registered0).2 ∧
  ∀ id, id ∈ (convertDwfxToPdf zip registered0).2 →
    id ∈ registered0 ∨
    ∃ p buf, written (convertDwfxToPdf zip registered0).1 = Some p ∧
             CRegisterFont id buf ∈ content p.
Proof.
  unfold convertDwfxToPdf.
  destruct (loadFirstPage zip) as [[[fixedPage resources] fonts]|e];
    [|by split; [|left]].
  pose proof (script_registers _ fonts _
                (script_drawPage fixedPage resources fonts)
                (RState [] registered0)) as (added & Hdoc & Hsub & Hnew).
  destruct (drawPage fixedPage resources fonts _) as [r st].
  cbn [fst snd doc registeredFonts written content app] in *.
  split; [done|].
  intros id [Hid|(u & buf & _ & _ & Hin)]%Hnew; [by left|].
  right. eexists _, buf. split; [reflexivity|]. cbn [content]. by rewrite Hdoc.
Qed.

(** X19: when no element of the first page finds a font under its
    [FontUri], the conversion does not depend on [registeredFonts] and
    leaves it as it is: whatever earlier conversions of the process
    registered, the outcome and the PDF are the same. *)
Theorem conversion_without_fonts (zip : archive)
    (r1 r2 : gset string)
    (Hnone : match loadFirstPage zip with
             | Ok (page, _, fonts) =>
                 forallb (no_font_found fonts) (elements page) = true
             | Throw _ => True
             end) :
  (convertDwfxToPdf zip r1).1 = (convertDwfxToPdf zip r2).1 ∧
  (convertDwfxToPdf zip r1).2 = r1.
Proof.
  unfold convertDwfxToPdf.
  destruct (loadFirstPage zip) as [[[fixedPage resources] fonts]|e]; [|done].
  assert (∀ n, n ∈ elements fixedPage → no_font_found fonts n = true) as Hq.
  { intros n Hn. rewrite forallb_forall in Hnone.
    apply Hnone, list_elem_of_In, Hn. }
  destruct (ignores_registry_script _ fonts _ Hq
              (script_drawPage fixedPage resources fonts)
              [] r1 r2) as (Hr & Hd & Hs).
  destruct (drawPage fixedPage resources fonts (RState [] r1)) as [x1 s1],
    (drawPage fixedPage resources fonts (RState [] r2)) as [x2 s2].
  cbn [fst snd] in *. by rewrite Hr, Hd.
Qed.

(** *** What the [try] blocks swallow *)

Lemma returns_ret {A} (a : A) : returns (mret a : M A).
Proof. intros st. by eexists _, _. Qed.

Lemma returns_bind {A B} (m : M A) (f : A → M B) :
  returns m → (∀ a, returns (f a)) → returns (m ≫= f).
Proof.
  intros Hm Hf st. rewrite bind_run.
  destruct (Hm st) as (a & s1 & ->). apply Hf.
Qed.

Lemma returns_try {A} (m h : M A) : returns h → returns (try_catch m h).
Proof.
  intros Hh st. unfold try_catch.
  destruct (m st) as [[a|e] s1]; [by eexists _, _ | apply Hh].
Qed.

Lemma returns_call c :
  (∀ log, pdf_accepts c log = true) → returns (call_ c).
Proof. intros Hc st. unfold call_. rewrite Hc. by eexists _, _. Qed.

Lemma returns_dollar n : attrs n ≠ ∅ → returns (dollar n).
Proof. intros Ha st. rewrite dollar_ok by done. by eexists _, _. Qed.

(** X20: [renderGlyphs] never throws on an element that has attributes,
    as long as PDFKit takes [save] and [restore]: a font that cannot be
    registered falls back to Helvetica, and a failure to set the font,
    the size or the colour, or to place the text, is swallowed. *)
Theorem renderGlyphs_returns (n : node) (fonts : gmap string (list byte))
    (st : rstate)
    (Hattrs : attrs n ≠ ∅)
    (Hsave : ∀ log, pdf_accepts CSave log = true)
    (Hrestore : ∀ log, pdf_accepts CRestore log = true) :
  ∃ st', renderGlyphs n fonts st = (Ok tt, st').
Proof.
  assert (returns (renderGlyphs n fonts)) as Hr.
  { unfold renderGlyphs, try_.
    apply returns_bind; [by apply returns_dollar | intros _].
    destruct (truthy (attrs n !! "UnicodeString")); [|apply returns_ret].
    cbv zeta.
    apply returns_bind; [by apply returns_call | intros _].
    apply returns_bind; [apply chooseFont_returns | intros face].
    apply returns_bind; [apply returns_try, returns_ret | intros _].
    by apply returns_call. }
  destruct (Hr st) as ([] & st' & Hrun). by exists st'.
Qed.

(** X21: a Path that has attributes, but no [Stroke], never throws as
    long as PDFKit takes [save] and [restore]: path data PDFKit
    rejects, a fill, a clip or an image it rejects are all swallowed,
    for a colour fill and for an image fill alike. *)
Theorem renderPath_without_stroke_returns (n : node)
    (resources : gmap string brush) (st : rstate)
    (Hattrs : attrs n ≠ ∅)
    (Hsave : ∀ log, pdf_accepts CSave log = true)
    (Hrestore : ∀ log, pdf_accepts CRestore log = true)
    (Hstroke : truthy (attrs n !! "Stroke") = None) :
  ∃ st', renderPath n resources st = (Ok tt, st').
Proof.
  assert (returns (renderPath n resources)) as Hr.
  { unfold renderPath, renderImageFill, try_. rewrite Hstroke.
    apply returns_bind; [by apply returns_dollar | intros _].
    destruct (truthy (attrs n !! "Data")) as [data|]; [|apply returns_ret].
    destruct (truthy (attrs n !! "Fill")) as [fill|]; [|apply returns_ret].
    cbv zeta. cbn [mbind option_bind].
    destruct (staticResource fill) as [key|].
    - destruct (resources !! key) as [res|]; [|apply returns_ret].
      destruct (imageBuffer res); [|apply returns_ret].
      apply returns_bind; [by apply returns_call | intros _].
      apply returns_bind; [apply returns_try, returns_ret | intros _].
      apply returns_bind; [by apply returns_call | intros _].
      apply returns_ret.
    - apply returns_bind; [by apply returns_call | intros _].
      apply returns_bind; [apply returns_ret | intros _].
      apply returns_bind; [apply returns_try, returns_ret | intros _].
      by apply returns_call. }
  destruct (Hr st) as ([] & st' & Hrun). by exists st'.
Qed.

End FrameProperties.

Lemma conversion_returns_complete_witness :
  ∃ p body,
    written (convertDwfxToPdf one_page_package ∅).1 = Some p ∧
    content p = (CSave :: page_scale :: body ++ [CRestore; CEnd])%list ∧
    depth body = 0%Z ∧ (CEnd ∉ body).
Proof.
  apply (conversion_returns_complete one_page_package ∅).
  vm_compute; reflexivity.
Defined.

Lemma conversion_without_fonts_witness :
  (convertDwfxToPdf two_levels_package ∅).1 =
    (convertDwfxToPdf two_levels_package {[one_page_font_id]}).1 ∧
  (convertDwfxToPdf two_levels_package ∅).2 = ∅.
Proof.
  apply (conversion_without_fonts two_levels_package ∅ {[one_page_font_id]}).
  vm_compute; reflexivity.
Defined.

Lemma renderGlyphs_returns_witness :
  ∃ st', renderGlyphs glyphs_plain ∅ (RState [] ∅) = (Ok tt, st').
Proof.
  apply (renderGlyphs_returns glyphs_plain ∅ (RState [] ∅));
    [|intros log; reflexivity..].
  intros Ha. apply (f_equal (λ a, a !! "UnicodeString")) in Ha.
  vm_compute in Ha. discriminate Ha.
Defined.

Lemma renderPath_without_stroke_returns_witness :
  ∃ st', renderPath path_short_data ∅ (RState [] ∅) = (Ok tt, st').
Proof.
  apply (renderPath_without_stroke_returns path_short_data ∅ (RState [] ∅));
    [|intros log; reflexivity | intros log; reflexivity | reflexivity].
  intros Ha. apply (f_equal (λ a, a !! "Fill")) in Ha.
  vm_compute in Ha. discriminate Ha.
Defined.

(** ** Strings: font identifiers and resource keys *)

Section StringProperties.
Context {RT : Runtime} {BE : Backend}.

Lemma hex_of_string_substring (n : nat) : ∀ s,
  substring 0 (2 * n) (hex_of_string s) = hex_of_string (substring 0 n s).
Proof.
  induction n as [|n IH]; intros s.
  - by destruct s.
  - replace (2 * S n)%nat with (S (S (2 * n))) by lia.
    destruct s as [|c r]; [done|].
    cbn [hex_of_string substring]. by rewrite IH.
Qed.

Lemma fontIdOf_prefix (u v : string) :
  substring 0 10 u = substring 0 10 v → fontIdOf u = fontIdOf v.
Proof.
  intros Huv. unfold fontIdOf. change 20%nat with (2 * 10)%nat.
  by rewrite !hex_of_string_substring, Huv.
Qed.

(** X22: the font identifier is made of the first ten bytes of the URI
    only.  Two fonts whose URIs agree on these bytes have the same
    identifier, and once the first is registered the second never is:
    [chooseFont] returns the shared identifier for it and makes no call
    on the document. *)
Theorem chooseFont_shared_prefix (fonts : gmap string (list byte))
    (u v : string) (buf : list byte) (st : rstate)
    (Hprefix : substring 0 10 u = substring 0 10 v)
    (Hloaded : fonts !! v = Some buf)
    (Hfirst : fontIdOf u ∈ registeredFonts st) :
  fontIdOf v = fontIdOf u ∧
  chooseFont (Some v) fonts st = (Ok (fontIdOf u), st).
Proof.
  pose proof (fontIdOf_prefix u v Hprefix) as Hid. split; [done|].
  unfold chooseFont, fonts_get. cbn [mbind option_bind]. rewrite Hloaded.
  cbn [fmap option_fmap option_map]. rewrite bind_run. unfold registered.
  rewrite <- Hid. by rewrite bool_decide_eq_true_2.
Qed.

(** *** [StaticResource] references *)

Lemma string_prefix_nil (s : string) : String.prefix "" s = true.
Proof. by destruct s. Qed.

Lemma string_prefix_app (p s : string) : String.prefix p (p ++ s) = true.
Proof.
  induction p as [|c p IH]; [apply string_prefix_nil|].
  rewrite append_cons. cbn [String.prefix].
  by destruct (ascii_dec c c).
Qed.

Lemma prefix_split (p : string) : ∀ s,
  String.prefix p s = true → s = p ++ string_drop (String.length p) s.
Proof.
  induction p as [|c p IH]; intros s; [done|].
  destruct s as [|c' s]; [done|]. cbn [String.prefix String.length string_drop].
  destruct (ascii_dec c c') as [<-|]; [|done].
  intros Hp. rewrite append_cons. f_equal. by apply IH.
Qed.

Lemma string_drop_app (a b : string) :
  string_drop (String.length a) (a ++ b) = b.
Proof. induction a as [|c a IH]; [by destruct b | by rewrite append_cons]. Qed.

Lemma substring_app (a b : string) :
  substring 0 (String.length a) (a ++ b) = a.
Proof.
  induction a as [|c a IH]; [by destruct b|].
  rewrite append_cons. cbn [String.length substring]. by rewrite IH.
Qed.

Lemma count_while_app (p : ascii → bool) (a : string) c r :
  string_all p a = true → p c = false →
  count_while p (a ++ String c r) = String.length a.
Proof.
  intros Ha Hc. induction a as [|x a IH].
  - change ("" ++ String c r) with (String c r). cbn. by rewrite Hc.
  - rewrite append_cons. cbn [count_while String.length string_all] in *.
    apply andb_prop in Ha as [-> Ha]. by rewrite IH.
Qed.

Lemma substring_drop (n : nat) : ∀ s,
  (n ≤ String.length s)%nat → s = substring 0 n s ++ string_drop n s.
Proof.
  induction n as [|n IH]; intros s Hn; [by destruct s|].
  destruct s as [|c s]; [cbn in Hn; lia|].
  cbn [substring string_drop]. rewrite append_cons. f_equal.
  apply IH. cbn in Hn. lia.
Qed.

Lemma count_while_length p s : (count_while p s ≤ String.length s)%nat.
Proof.
  induction s as [|c s IH]; cbn [count_while String.length]; [lia|].
  destruct (p c); lia.
Qed.

Lemma count_while_all p s :
  string_all p (substring 0 (count_while p s) s) = true.
Proof.
  induction s as [|c s IH]; [done|]. cbn [count_while].
  destruct (p c) eqn:Hc; [|done]. cbn [substring string_all]. by rewrite Hc.
Qed.

Lemma count_while_nonempty p s :
  (0 < count_while p s)%nat → substring 0 (count_while p s) s ≠ "".
Proof.
  destruct s as [|c s]; cbn [count_while]; [lia|].
  destruct (p c); [done | lia].
Qed.

Lemma word_not_space (c : ascii) (r : string) :
  is_word c = true → js_space_len (String c r) = 0%nat.
Proof.
  destruct c as [[] [] [] [] [] [] [] []]; intros Hw;
    try discriminate Hw; reflexivity.
Qed.

(** A white-space character lies within the string, and is what it is
    whatever follows it. *)
Lemma js_space_len_bound (s : string) j :
  js_space_len s = S j → (j < String.length s)%nat.
Proof.
  unfold js_space_len. destruct s as [|a [|b [|c r]]]; [done|..];
    cbn [String.length]; repeat case_match; intros [= <-]; lia.
Qed.

Lemma js_space_len_app (s t : string) j :
  js_space_len s = S j → js_space_len (s ++ t) = S j.
Proof.
  unfold js_space_len. destruct s as [|a [|b [|c r]]]; [done|..];
    rewrite ?append_cons; repeat case_match; done.
Qed.

Lemma js_space_len_substring (c : ascii) (w : string) j n :
  js_space_len (String c w) = S j → (j ≤ n)%nat →
  js_space_len (String c (substring 0 n w)) = S j.
Proof.
  unfold js_space_len. destruct w as [|b [|d r]], n as [|[|n]];
    cbn [substring]; repeat case_match; (done || (intros [= <-]; lia)).
Qed.

Lemma spaces_len_from_skip (s : string) : ∀ j,
  (j ≤ String.length s)%nat → (j ≤ spaces_len_from j s)%nat.
Proof.
  induction s as [|c s IH]; intros j Hj; [cbn in *; lia|].
  destruct j as [|j]; [lia|]. cbn [spaces_len_from].
  specialize (IH j). cbn in Hj. lia.
Qed.

Lemma spaces_len_from_length (s : string) : ∀ j,
  (spaces_len_from j s ≤ String.length s)%nat.
Proof.
  induction s as [|c s IH]; intros j; [done|].
  cbn [spaces_len_from String.length].
  destruct j as [|j]; [destruct (js_space_len _)|]; try lia;
    match goal with |- context [spaces_len_from ?k s] => specialize (IH k) end;
    lia.
Qed.

Lemma spaces_len_from_run (s : string) : ∀ j,
  (j ≤ String.length s)%nat →
  spaces_len_from j (substring 0 (spaces_len_from j s) s) = spaces_len_from j s.
Proof.
  induction s as [|c s IH]; intros j Hj; [done|].
  destruct j as [|j].
  - cbn [spaces_len_from]. destruct (js_space_len (String c s)) as [|k] eqn:Hk;
      [done|].
    pose proof (js_space_len_bound _ _ Hk) as Hb. cbn in Hb.
    cbn [substring spaces_len_from].
    rewrite (js_space_len_substring c s k); [|done|].
    + rewrite IH by lia. done.
    + apply spaces_len_from_skip. lia.
  - cbn [spaces_len_from substring]. rewrite IH; [done|]. cbn in Hj. lia.
Qed.

Lemma spaces_len_from_app (ws : string) (k : ascii) (rest : string) : ∀ j,
  (j ≤ String.length ws)%nat →
  spaces_len_from j ws = String.length ws →
  js_space_len (String k rest) = 0%nat →
  spaces_len_from j (ws ++ String k rest) = String.length ws.
Proof.
  induction ws as [|c ws IH]; intros j Hj Hall Hk.
  - cbn in Hj. replace j with 0%nat by lia.
    change ("" ++ String k rest) with (String k rest).
    cbn [spaces_len_from]. by rewrite Hk.
  - rewrite append_cons. destruct j as [|j].
    + cbn [spaces_len_from] in *.
      destruct (js_space_len (String c ws)) as [|i] eqn:Hi; [done|].
      pose proof (js_space_len_bound _ _ Hi) as Hb. cbn in Hb.
      pose proof (js_space_len_app _ (String k rest) _ Hi) as Hi'.
      rewrite append_cons in Hi'. rewrite Hi'.
      cbn [String.length] in *. rewrite IH; [done | lia | lia | done].
    + cbn [spaces_len_from String.length] in *.
      rewrite IH; [done | lia | lia | done].
Qed.

Lemma substring_length (n : nat) : ∀ s,
  (n ≤ String.length s)%nat → String.length (substring 0 n s) = n.
Proof.
  induction n as [|n IH]; intros s Hn; [by destruct s|].
  destruct s as [|c s]; [cbn in Hn; lia|].
  cbn [substring String.length]. rewrite IH; [done|]. cbn in Hn. lia.
Qed.

(** X23: [renderPath] takes a fill for a resource reference exactly
    when it reads [{StaticResource], at least one white-space character,
    a key of one or more word characters, and [}], with nothing before
    or after; the key is then the name looked up among the resources.
    A colour, and a reference with spaces around it, are not
    references. *)
Theorem staticResource_spec (fill key : string) :
  staticResource fill = Some key ↔
  ∃ ws,
    fill = "{StaticResource" ++ ws ++ key ++ "}" ∧
    ws ≠ "" ∧ js_spaces ws = true ∧
    key ≠ "" ∧ string_all is_word key = true.
Proof.
  unfold staticResource, js_spaces, spaces_len. cbv zeta. split.
  - destruct (String.prefix _ fill) eqn:Hp; [|done].
    apply prefix_split in Hp.
    set (r := string_drop (String.length "{StaticResource") fill) in *.
    set (ws := spaces_len_from 0 r).
    set (r1 := string_drop ws r). set (w := count_while is_word r1).
    destruct (0 <? ws)%nat eqn:Hws; [|done].
    destruct (0 <? w)%nat eqn:Hw; [|done].
    destruct (String.eqb (string_drop w r1) "}") eqn:Hend; [|done].
    cbn [andb]. intros [= <-].
    apply Nat.ltb_lt in Hws, Hw. apply String.eqb_eq in Hend.
    pose proof (spaces_len_from_length r 0) as Hlen. fold ws in Hlen.
    exists (substring 0 ws r).
    split; [|split; [|split]].
    + rewrite Hp at 1. f_equal.
      rewrite <- Hend. rewrite <- (substring_drop w r1)
        by apply count_while_length.
      by apply substring_drop.
    + intros He. apply (f_equal String.length) in He.
      rewrite substring_length in He by done.
      cbn [String.length] in He. lia.
    + apply Nat.eqb_eq. rewrite substring_length by done.
      apply (spaces_len_from_run r 0). lia.
    + split; [by apply count_while_nonempty | apply count_while_all].
  - intros (ws & -> & Hne & Hws & Hk & Hkey).
    apply Nat.eqb_eq in Hws.
    rewrite string_prefix_app, string_drop_app.
    destruct key as [|k0 kr]; [done|].
    cbn [string_all] in Hkey. apply andb_prop in Hkey as [Hk0 Hkr].
    assert (spaces_len_from 0 (ws ++ String k0 kr ++ "}")
            = String.length ws) as ->.
    { rewrite append_cons. apply spaces_len_from_app; [lia | done|].
      by apply word_not_space. }
    rewrite string_drop_app.
    assert (count_while is_word (String k0 kr ++ "}")
            = String.length (String k0 kr)) as ->.
    { apply count_while_app; [|done]. cbn [string_all]. by rewrite Hk0. }
    rewrite string_drop_app, substring_app.
    destruct ws as [|w0 wr]; [done|]. reflexivity.
Qed.

End StringProperties.

Lemma chooseFont_shared_prefix_witness :
  fontIdOf "/Resources/Fonts/times.odttf" = fontIdOf "/Resources/Fonts/arial.odttf" ∧
  chooseFont (Some "/Resources/Fonts/times.odttf")
    {["/Resources/Fonts/times.odttf" := font_bytes]}
    (RState [] {[fontIdOf "/Resources/Fonts/arial.odttf"]}) =
  (Ok (fontIdOf "/Resources/Fonts/arial.odttf"),
   RState [] {[fontIdOf "/Resources/Fonts/arial.odttf"]}).
Proof.
  apply (chooseFont_shared_prefix
           {["/Resources/Fonts/times.odttf" := font_bytes]}
           "/Resources/Fonts/arial.odttf" "/Resources/Fonts/times.odttf"
           font_bytes).
  - reflexivity.
  - vm_compute; reflexivity.
  - cbn [registeredFonts]. by apply elem_of_singleton_2.
Defined.

(** ** Stroke parameters, and how a conversion fails *)

Section StrokeProperties.
Context {RT : Runtime} {BE : Backend}.

Lemma emits_call (P : call → bool) c : P c = true → emits P 1 (call_ c).
Proof.
  intros Hc st. unfold call_. destruct (pdf_accepts c (doc st)).
  - exists [c]. repeat split; [by repeat constructor | done].
  - exists []. rewrite app_nil_r. repeat split; [constructor | cbn; lia | done].
Qed.

Lemma emits_bind {A B} (P : call → bool) n1 n2 (m : M A) (f : A → M B) :
  emits P n1 m → (∀ a, emits P n2 (f a)) → emits P (n1 + n2) (m ≫= f).
Proof.
  intros Hm Hf st. rewrite bind_run.
  destruct (Hm st) as (a1 & Hd1 & Hp1 & Hl1 & Hn1).
  destruct (m st) as [[a|e] s1]; cbn [fst snd] in *.
  - destruct (Hf a s1) as (a2 & Hd2 & Hp2 & Hl2 & Hn2).
    exists (a1 ++ a2)%list. rewrite Hd2, Hd1, app_assoc, length_app.
    split; [done|]. split; [by apply Forall_app|].
    rewrite (Hn1 a eq_refl). split; [lia|].
    intros b Hb. by rewrite (Hn2 b Hb).
  - exists a1. split; [done|]. split; [done|]. split; [lia | done].
Qed.

Lemma emits_dollar (P : call → bool) n : emits P 0 (dollar n).
Proof.
  intros st. exists []. rewrite app_nil_r. unfold dollar.
  destruct (bool_decide _); repeat split; (constructor || done).
Qed.

(** X24: [applyStrokeStyle] makes six calls when none is rejected, and
    fewer when one is; each sets a stroke parameter, so nothing is
    drawn, saved or restored; and whatever the attributes say, the line
    cap it asks for is [butt], [round] or [square] and the line join
    [miter], [round] or [bevel]. *)
Theorem applyStrokeStyle_settings (n : node) (thickness : float)
    (st : rstate) :
  ∃ added,
    doc (applyStrokeStyle n thickness st).2 = (doc st ++ added)%list ∧
    Forall (λ c, stroke_setting c = true) added ∧
    (length added ≤ 6)%nat ∧
    ((applyStrokeStyle n thickness st).1 = Ok tt → length added = 6%nat).
Proof.
  assert (emits stroke_setting 6 (applyStrokeStyle n thickness)) as He.
  { unfold applyStrokeStyle. cbv zeta.
    apply (emits_bind _ 0 6); [apply emits_dollar | intros _].
    apply (emits_bind _ 1 5); [by apply emits_call | intros _].
    apply (emits_bind _ 1 4); [by apply emits_call | intros _].
    apply (emits_bind _ 1 3); [|intros _].
    { apply emits_call. cbn [stroke_setting]. apply bool_decide_eq_true.
      repeat (destruct (String.eqb _ _)); set_solver. }
    apply (emits_bind _ 1 2); [|intros _].
    { apply emits_call. cbn [stroke_setting]. apply bool_decide_eq_true.
      repeat (destruct (String.eqb _ _)); set_solver. }
    apply (emits_bind _ 1 1); [by apply emits_call | intros _].
    destruct (truthy (attrs n !! "StrokeDashArray"));
      [destruct (negb _)|]; by apply emits_call. }
  destruct (He st) as (added & Hd & Hp & Hl & Hn). exists added.
  split; [done|]. split; [done|]. split; [done|]. apply Hn.
Qed.

End StrokeProperties.

Section FailureModes.
Context {RT : Runtime} {BE : Backend}.




End FailureModes.

